(** * Bedrock-IPC: binary serialization, text-safe packetizer and reassembly

    A shallow embedding of the TypeScript sources
    ([proto/ByteBuffer.ts], [proto/serializers/*.ts],
    [net/encoding/PacketEncoder.ts], [net/messages/MessageListener.ts])
    and the properties of the specification that are about them.

    Conventions of the embedding.
    - A JavaScript string is the list of its UTF-16 code units ([jsstring]).
    - An integral JavaScript number is a [Z]; the 32-bit operators
      ([&], [|], [^], [<<], [>>], [>>>]) are written out with their
      [ToInt32]/[ToUint32] wrap-around.
    - A generator function is run to completion: a [yield] only hands the
      control back to the scheduler and carries no value.
    - Code that mutates a buffer and may throw lives in the monad [M]: the
      state survives a throw, as the mutated object does in JavaScript. *)

From Stdlib Require Import ZArith List Lia Bool Ascii String.
From Stdlib Require Import Floats.SpecFloat.
From stdpp Require Import base numbers list gmap.

Set Warnings "-register-all".

Open Scope Z_scope.

(** ** JavaScript strings and numbers *)

Abbreviation jsstring := (list Z) (only parsing).

(** The code units of an ASCII literal. *)
Definition str (s : string) : jsstring :=
  map (λ a, Z.of_N (N_of_ascii a)) (list_ascii_of_string s).

Definition ToInt32 (z : Z) : Z := (z + 2 ^ 31) mod 2 ^ 32 - 2 ^ 31.
Definition ToUint32 (z : Z) : Z := z mod 2 ^ 32.

(** [a & b], [a | b], [a ^ b], [a << n], [a >> n], [a >>> n] on numbers. *)
Definition js_and (a b : Z) : Z := ToInt32 (Z.land (ToInt32 a) (ToInt32 b)).
Definition js_or (a b : Z) : Z := ToInt32 (Z.lor (ToInt32 a) (ToInt32 b)).
Definition js_xor (a b : Z) : Z := ToInt32 (Z.lxor (ToInt32 a) (ToInt32 b)).
Definition js_shl (a n : Z) : Z := ToInt32 (Z.shiftl (ToInt32 a) (ToUint32 n mod 32)).
Definition js_sar (a n : Z) : Z := Z.shiftr (ToInt32 a) (ToUint32 n mod 32).
Definition js_shr (a n : Z) : Z := Z.shiftr (ToUint32 a) (ToUint32 n mod 32).

(** ** Errors and the state-and-exception monad *)

Inductive error : Type :=
  | BufferUnderflow (requested available : Z)
      (* `Buffer underflow: requested ${size}, available ${this.available}` *)
  | VarUInt32Underflow (i : Z)
      (* `Buffer underflow in VarUInt32 at byte ${i}` *)
  | MissingFragment (i : Z)
      (* `Missing fragment at index ${i}` *)
  | TypeError
      (* thrown by the engine: a property of undefined or null is read *)
  | RangeError
      (* thrown by the engine: a DataView access outside its array *)
  | OutsideType.
      (* the value handed to [serialize] is not of the serializer's
         TypeScript type; JavaScript's coercions are not followed there *)

Inductive completion (A : Type) : Type :=
  | Normal (a : A)
  | Throw (e : error).
Arguments Normal {A} a.
Arguments Throw {A} e.

Definition M (S A : Type) : Type := S → completion A * S.

#[global] Instance M_ret {S} : MRet (M S) := λ A a s, (Normal a, s).
#[global] Instance M_bind {S} : MBind (M S) := λ A B k m s,
  match m s with
  | (Normal a, s') => k a s'
  | (Throw e, s') => (Throw e, s')
  end.

#[global] Instance M_fmap {S} : FMap (M S) := λ A B f m, x ← m; mret (f x).

Definition throw {S A} (e : error) : M S A := λ s, (Throw e, s).
Definition gets {S A} (f : S → A) : M S A := λ s, (Normal (f s), s).
Definition modify {S} (f : S → S) : M S unit := λ s, (Normal (), f s).

(** [run m s] is the state a computation leaves, [result m s] what it
    completes with. *)
Definition run {S A} (m : M S A) (s : S) : S := snd (m s).
Definition result {S A} (m : M S A) (s : S) : completion A := fst (m s).

(** ** proto/ByteBuffer.ts *)

Module ByteBuffer.

(** [bytes] is the whole backing [Uint8Array] (its length is the
    capacity), which the [DataView] of the class shares. *)
Record t : Type := mk {
  bytes : list Z;
  writePos : Z;
  readPos : Z
}.

Definition new (initialSize : Z) : t :=
  {| bytes := replicate (Z.to_nat initialSize) 0; writePos := 0; readPos := 0 |}.

Definition writePosition (b : t) : Z := writePos b.
Definition readPosition (b : t) : Z := readPos b.
Definition available (b : t) : Z := writePos b - readPos b.

Definition capacity (b : t) : Z := Z.of_nat (length (bytes b)).

Definition set_bytes (l : list Z) (b : t) : t :=
  {| bytes := l; writePos := writePos b; readPos := readPos b |}.
Definition set_writePos (z : Z) (b : t) : t :=
  {| bytes := bytes b; writePos := z; readPos := readPos b |}.
Definition set_readPos (z : Z) (b : t) : t :=
  {| bytes := bytes b; writePos := writePos b; readPos := z |}.

Definition ensureCapacity (needed : Z) : M t unit :=
  required ← gets (λ b, writePos b + needed);
  len ← gets capacity;
  if required >? len then
    let newSize := Z.max (len * 2) required in
    modify (λ b, set_bytes (bytes b ++ replicate (Z.to_nat (newSize - len)) 0) b)
  else mret ().

Definition allocate (size : Z) : M t Z :=
  ensureCapacity size;;
  offset ← gets writePos;
  modify (set_writePos (offset + size));;
  mret offset.

Definition advance (size : Z) : M t Z :=
  avail ← gets available;
  if size >? avail then throw (BufferUnderflow size avail)
  else
    offset ← gets readPos;
    modify (set_readPos (offset + size));;
    mret offset.

(** [this.bytes[offset] = v] and [this.bytes[offset]] on the typed
    array: a store out of range is dropped, a load out of range is
    [undefined] (not reached below: [allocate] and [advance] come first). *)
Definition store (offset v : Z) : M t unit :=
  modify (λ b, set_bytes (<[Z.to_nat offset := v]> (bytes b)) b).

Definition load (offset : Z) : M t Z :=
  gets (λ b, default 0 (bytes b !! Z.to_nat offset)).

Definition writeByte (value : Z) : M t unit :=
  offset ← allocate 1;
  store offset (js_and value 0xFF).

Definition readByte : M t Z :=
  offset ← advance 1;
  load offset.

(** [this.bytes.set(data, offset)] *)
Fixpoint store_all (offset : Z) (data : list Z) : M t unit :=
  match data with
  | [] => mret ()
  | x :: data' => store offset x;; store_all (offset + 1) data'
  end.

Definition writeBytes (data : list Z) : M t unit :=
  offset ← allocate (Z.of_nat (length data));
  store_all offset data.

Definition slice (from to : Z) (l : list Z) : list Z :=
  take (Z.to_nat to - Z.to_nat from) (drop (Z.to_nat from) l).

Definition readBytes (len : Z) : M t (list Z) :=
  offset ← advance len;
  gets (λ b, slice offset (offset + len) (bytes b)).

Definition resetRead : M t unit := modify (set_readPos 0).

Definition clear : M t unit := modify (set_writePos 0);; modify (set_readPos 0).

Definition toUint8Array (b : t) : list Z := slice 0 (writePos b) (bytes b).

Definition from (data : list Z) : t :=
  run (writeBytes data;; resetRead) (new (Z.of_nat (length data))).

End ByteBuffer.

(** ** The built-in string and number functions the sources call *)

(** [String.fromCharCode(c)]: one code unit, [ToUint16 c]. *)
Definition String_fromCharCode (c : Z) : jsstring := [c mod 2 ^ 16].

(** The digit characters of [Number.prototype.toString]: lower case. *)
Definition digit_char (d : Z) : Z := if d <? 10 then 48 + d else 97 + (d - 10).

Fixpoint to_digits (fuel : nat) (radix n : Z) (acc : jsstring) : jsstring :=
  let acc' := digit_char (n mod radix) :: acc in
  match fuel with
  | O => acc'
  | S fuel' => if n / radix =? 0 then acc' else to_digits fuel' radix (n / radix) acc'
  end.

(** [n.toString(radix)] for an integer [n >= 0]: the fuel is more than the
    number of digits of [n], the loop stops at the leading digit. *)
Definition Number_toString (n radix : Z) : jsstring :=
  to_digits (Z.to_nat (Z.log2 n)) radix n [].

(** [s.padStart(targetLength, pad)] for a one-character [pad]. *)
Definition padStart (targetLength : Z) (pad : jsstring) (s : jsstring) : jsstring :=
  match pad with
  | [p] => replicate (Z.to_nat targetLength - length s) p ++ s
  | _ => s
  end.

(** [s.toUpperCase()] on the ASCII letters, the only ones the digits of a
    number contain. *)
Definition toUpperCase (s : jsstring) : jsstring :=
  map (λ c, if (97 <=? c) && (c <=? 122) then c - 32 else c) s.

(** White space and line terminators, which [parseInt] skips. *)
Definition is_whitespace (c : Z) : bool :=
  bool_decide (c ∈ [9; 10; 11; 12; 13; 32; 160; 5760; 8232; 8233; 8239; 8287; 12288; 65279])
  || ((8192 <=? c) && (c <=? 8202)).

Definition hex_value (c : Z) : option Z :=
  if (48 <=? c) && (c <=? 57) then Some (c - 48)
  else if (65 <=? c) && (c <=? 70) then Some (c - 55)
  else if (97 <=? c) && (c <=? 102) then Some (c - 87)
  else None.

(** The value of the longest prefix of hexadecimal digits, [None] when it
    is empty. *)
Fixpoint hex_prefix (acc : option Z) (s : jsstring) : option Z :=
  match s with
  | [] => acc
  | c :: s' =>
    match hex_value c with
    | Some d => hex_prefix (Some (default 0 acc * 16 + d)) s'
    | None => acc
    end
  end.

Fixpoint skip_whitespace (s : jsstring) : jsstring :=
  match s with
  | c :: s' => if is_whitespace c then skip_whitespace s' else s
  | [] => []
  end.

(** [parseInt(s, 16)]; [None] is [NaN]. *)
Definition parseInt16 (s : jsstring) : option Z :=
  let s := skip_whitespace s in
  let '(sign, s) :=
    match s with
    | 45 :: s' => (-1, s')
    | 43 :: s' => (1, s')
    | _ => (1, s)
    end in
  let s :=
    match s with
    | 48 :: 120 :: s' => s'
    | 48 :: 88 :: s' => s'
    | _ => s
    end in
  (λ n, sign * n) <$> hex_prefix None s.

(** [ToInt32(NaN)] is 0: a bitwise operator reads [NaN] as 0. *)
Definition nan_as_zero (n : option Z) : Z := default 0 n.

(** ** net/encoding/PacketEncoder.ts *)

Module PacketEncoder.

Definition MAX_FRAGMENT_SIZE : Z := 2048.

(** The local variables of [encode]. *)
Record encode_state : Type := mk_state {
  fragments : list jsstring;
  currentFragment : jsstring;
  currentSize : Z
}.

Definition charCode_of (low high : Z) : Z := js_or low (js_shl high 8).

Definition charSize_of (charCode : Z) : Z :=
  if charCode >? 0xFF then
    (if charCode <=? 0x7F then 1 else if charCode <=? 0x7FF then 2 else 3)
  else 2.

(** One turn of the [for] loop of [encode], on the bytes [low] and [high]. *)
Definition encode_step (maxSize low high : Z) (st : encode_state) : encode_state :=
  let charCode := charCode_of low high in
  let charSize := charSize_of charCode in
  let st :=
    if currentSize st + charSize >? maxSize then
      {| fragments := fragments st ++ [currentFragment st];
         currentFragment := []; currentSize := 0 |}
    else st in
  if charCode >? 0xFF then
    {| fragments := fragments st;
       currentFragment := currentFragment st ++ String_fromCharCode charCode;
       currentSize := currentSize st + charSize |}
  else
    {| fragments := fragments st;
       currentFragment :=
         currentFragment st ++ toUpperCase (padStart 2 (str "0") (Number_toString charCode 16));
       currentSize := currentSize st + 2 |}.

(** [for (let i = 0; i < bytes.length; i += 2)], a missing [bytes[i + 1]]
    read as 0. *)
Fixpoint encode_loop (maxSize : Z) (bytes : list Z) (st : encode_state) : encode_state :=
  match bytes with
  | [] => st
  | [low] => encode_step maxSize low 0 st
  | low :: high :: rest => encode_loop maxSize rest (encode_step maxSize low high st)
  end.

Definition encode (buffer : ByteBuffer.t) (maxSize : Z) : list jsstring :=
  let bytes := ByteBuffer.toUint8Array buffer in
  let st := encode_loop maxSize bytes {| fragments := []; currentFragment := []; currentSize := 0 |} in
  if bool_decide (currentFragment st ≠ []) || bool_decide (length (fragments st) = 0%nat) then
    fragments st ++ [currentFragment st]
  else fragments st.

(** The two branches of the inner loop of [decode]. *)
Definition decode_hex (hex : jsstring) : M ByteBuffer.t unit :=
  let hexCode := nan_as_zero (parseInt16 hex) in
  ByteBuffer.writeByte (js_and hexCode 0xFF);;
  ByteBuffer.writeByte (js_sar hexCode 8).

Definition decode_raw (charCode : Z) : M ByteBuffer.t unit :=
  ByteBuffer.writeByte (js_and charCode 0xFF);;
  ByteBuffer.writeByte (js_sar charCode 8).

(** The inner loop on one fragment, from index [j] on. In the hex branch
    [fragment[++j]] is [undefined] at the end of the fragment, and
    concatenates as the text "undefined". *)
Fixpoint decode_fragment (fragment : jsstring) : M ByteBuffer.t unit :=
  match fragment with
  | [] => mret ()
  | charCode :: rest =>
    if charCode <=? 0xFF then
      match rest with
      | [] => decode_hex (charCode :: str "undefined")
      | c2 :: rest' => decode_hex [charCode; c2];; decode_fragment rest'
      end
    else decode_raw charCode;; decode_fragment rest
  end.

Fixpoint decode_loop (fragments : list jsstring) : M ByteBuffer.t unit :=
  match fragments with
  | [] => mret ()
  | fragment :: rest =>
    (if bool_decide (fragment = []) then mret () else decode_fragment fragment);;
    decode_loop rest
  end.

Definition decode (fragments : list jsstring) : ByteBuffer.t :=
  let buffer := ByteBuffer.new 256 in
  if bool_decide (length fragments = 0%nat) then run ByteBuffer.resetRead buffer
  else run (decode_loop fragments;; ByteBuffer.resetRead) buffer.

End PacketEncoder.

(** ** The [DataView] of a buffer *)

Module DataView.
Import ByteBuffer.

(** The [n] low bytes of [v], most significant first (the default byte
    order of [DataView]). *)
Fixpoint be_bytes (n : nat) (v : Z) : list Z :=
  match n with
  | O => []
  | S n' => (v / 2 ^ (8 * Z.of_nat n')) mod 256 :: be_bytes n' v
  end.

Definition be_value (l : list Z) : Z := foldl (λ acc x, acc * 256 + x) 0 l.

(** A [DataView] access outside the backing array throws a RangeError. *)
Definition check (offset n : Z) : M t unit :=
  len ← gets capacity;
  if (offset <? 0) || (offset + n >? len) then throw RangeError else mret ().

Definition setUint (n : nat) (offset value : Z) : M t unit :=
  check offset (Z.of_nat n);;
  store_all offset (be_bytes n value).

Definition getUint (n : nat) (offset : Z) : M t Z :=
  check offset (Z.of_nat n);;
  gets (λ b, be_value (slice offset (offset + Z.of_nat n) (bytes b))).

(** The signed reading of an [n]-byte pattern. *)
Definition signed (n : nat) (v : Z) : Z :=
  if v <? 2 ^ (8 * Z.of_nat n - 1) then v else v - 2 ^ (8 * Z.of_nat n).

Definition setInt (n : nat) (offset value : Z) : M t unit := setUint n offset value.
Definition getInt (n : nat) (offset : Z) : M t Z := signed n <$> getUint n offset.

(** *** IEEE 754 binary interchange formats

    A number is a [spec_float] of the binary64 format. [mw] and [ew] are
    the widths of the trailing significand and of the exponent fields. *)
Section Format.
Variables mw ew : Z.
Let prec := mw + 1.
Let emax := 2 ^ (ew - 1).

Definition sign_bit (s : bool) : Z := if s then 2 ^ (mw + ew) else 0.

Definition bits_of (f : spec_float) : Z :=
  match f with
  | S754_zero s => sign_bit s
  | S754_infinity s => sign_bit s + (2 ^ ew - 1) * 2 ^ mw
  | S754_nan => (2 ^ ew - 1) * 2 ^ mw + 2 ^ (mw - 1)
  | S754_finite s m e =>
    if Z.pos m <? 2 ^ mw then sign_bit s + Z.pos m
    else sign_bit s + (e - emin prec emax + 1) * 2 ^ mw + (Z.pos m - 2 ^ mw)
  end.

Definition of_bits (bits : Z) : spec_float :=
  let s := Z.odd (bits / 2 ^ (mw + ew)) in
  let e := (bits / 2 ^ mw) mod 2 ^ ew in
  let m := bits mod 2 ^ mw in
  if e =? 0 then
    match m with
    | Z.pos p => S754_finite s p (emin prec emax)
    | _ => S754_zero s
    end
  else if e =? 2 ^ ew - 1 then
    (if m =? 0 then S754_infinity s else S754_nan)
  else
    match m + 2 ^ mw with
    | Z.pos p => S754_finite s p (e - 1 + emin prec emax)
    | _ => S754_nan
    end.

(** Rounding to the format, to nearest with ties to even. *)
Definition round_to (f : spec_float) : spec_float :=
  match f with
  | S754_finite s m e => binary_normalize prec emax (cond_Zopp s (Z.pos m)) e s
  | _ => f
  end.

Definition is_valid (f : spec_float) : bool := valid_binary prec emax f.
End Format.

Definition setFloat64 (offset : Z) (value : spec_float) : M t unit :=
  setUint 8 offset (bits_of 52 11 value).
Definition getFloat64 (offset : Z) : M t spec_float :=
  of_bits 52 11 <$> getUint 8 offset.

(** [setFloat32] rounds the number to binary32; [getFloat32] reads a
    binary32 value, which is a number as it is. *)
Definition setFloat32 (offset : Z) (value : spec_float) : M t unit :=
  setUint 4 offset (bits_of 23 8 (round_to 23 8 value)).
Definition getFloat32 (offset : Z) : M t spec_float :=
  (λ bits, round_to 52 11 (of_bits 23 8 bits)) <$> getUint 4 offset.

End DataView.

(** ** proto/Serializer.ts and proto/serializers/*.ts *)

Module Serializer.
Import ByteBuffer.

(** The values serializers handle. A number is a [VNumber] where the
    integer serializers handle it and a [VFloat] where the floating-point
    ones do. An object lists its own properties; a [Map] and a [Set] list
    their entries in insertion order. *)
Inductive value : Type :=
  | VUndefined
  | VNull
  | VBoolean (b : bool)
  | VNumber (n : Z)
  | VFloat (f : spec_float)
  | VBigInt (n : Z)
  | VString (s : jsstring)
  | VArray (items : list value)
  | VObject (fields : list (jsstring * value))
  | VMap (entries : list (value * value))
  | VSet (items : list value).

(** The serializer classes. A child serializer is a field of the object
    and may be [undefined] at run time: [None]. *)
Inductive t : Type :=
  | BooleanSerializer
  | Int8Serializer
  | Int16Serializer
  | Int32Serializer
  | UInt8Serializer
  | UInt16Serializer
  | UInt32Serializer
  | Float32Serializer
  | Float64Serializer
  | VarUInt32Serializer
  | VarInt32Serializer
  | VarUInt64Serializer
  | VarInt64Serializer
  | StringSerializer
  | ArraySerializer (elementSerializer : option t)
  | ObjectSerializer (schema : option (list (jsstring * option t)))
  | TupleSerializer (serializers : option (list (option t)))
  | OptionalSerializer (serializer : option t)
  | MapSerializer (keySerializer valueSerializer : option t)
  | SetSerializer (elementSerializer : option t).

(** *** Loops *)

(** [for (let i = 0; i < n; i++) acc = body(acc)] *)
Fixpoint for_loop {S A} (n : nat) (body : A → M S A) (acc : A) : M S A :=
  match n with
  | O => mret acc
  | S n' => acc' ← body acc; for_loop n' body acc'
  end.

(** [for (const x of l) body(x)] *)
Fixpoint for_of {S A} (body : A → M S unit) (l : list A) : M S unit :=
  match l with
  | [] => mret ()
  | x :: l' => body x;; for_of body l'
  end.

(** *** Values as JavaScript sees them *)

Definition ToBoolean (v : value) : bool :=
  match v with
  | VUndefined | VNull => false
  | VBoolean b => b
  | VNumber n => negb (n =? 0)
  | VFloat (S754_zero _) | VFloat S754_nan => false
  | VFloat _ => true
  | VBigInt n => negb (n =? 0)
  | VString s => negb (bool_decide (s = []))
  | _ => true
  end.

(** [o[key]] and [o[key] = v] on the properties of an object. *)
Fixpoint get_property (key : jsstring) (fields : list (jsstring * value)) : value :=
  match fields with
  | [] => VUndefined
  | (k, v) :: fields' => if bool_decide (k = key) then v else get_property key fields'
  end.

Fixpoint set_property (key : jsstring) (v : value) (fields : list (jsstring * value))
    : list (jsstring * value) :=
  match fields with
  | [] => [(key, v)]
  | (k, v') :: fields' =>
    if bool_decide (k = key) then (k, v) :: fields'
    else (k, v') :: set_property key v fields'
  end.

(** The keys of a [Map] and the elements of a [Set] are compared with
    SameValueZero: primitive values by value, with [NaN] equal to itself
    and [-0] kept as [+0]; objects by identity. [deserialize] allocates
    every object it returns, so an object it has just built is a key no
    entry has yet. *)
Definition normalize_key (k : value) : value :=
  match k with
  | VFloat (S754_zero _) => VFloat (S754_zero false)
  | _ => k
  end.

Definition spec_float_eqb (f g : spec_float) : bool :=
  match f, g with
  | S754_zero s, S754_zero s' => eqb s s'
  | S754_infinity s, S754_infinity s' => eqb s s'
  | S754_nan, S754_nan => true
  | S754_finite s m e, S754_finite s' m' e' => eqb s s' && (m =? m')%positive && (e =? e')
  | _, _ => false
  end.

Definition same_value_zero (a b : value) : bool :=
  match normalize_key a, normalize_key b with
  | VUndefined, VUndefined => true
  | VNull, VNull => true
  | VBoolean x, VBoolean y => eqb x y
  | VNumber x, VNumber y => x =? y
  | VFloat x, VFloat y => spec_float_eqb x y
  | VBigInt x, VBigInt y => x =? y
  | VString x, VString y => bool_decide (x = y)
  | _, _ => false
  end.

(** [map.set(key, val)] *)
Fixpoint Map_set (key val : value) (entries : list (value * value)) : list (value * value) :=
  match entries with
  | [] => [(normalize_key key, val)]
  | (k, v) :: entries' =>
    if same_value_zero k key then (k, val) :: entries'
    else (k, v) :: Map_set key val entries'
  end.

(** [set.add(item)] *)
Fixpoint Set_add (item : value) (items : list value) : list value :=
  match items with
  | [] => [normalize_key item]
  | x :: items' =>
    if same_value_zero x item then x :: items' else x :: Set_add item items'
  end.

(** *** PrimitiveSerializers.ts *)

Definition Boolean_serialize (value : bool) : M ByteBuffer.t unit :=
  writeByte (if value then 1 else 0).
Definition Boolean_deserialize : M ByteBuffer.t bool :=
  byte ← readByte; mret (negb (byte =? 0)).

Definition Int_serialize (n : nat) (value : Z) : M ByteBuffer.t unit :=
  offset ← allocate (Z.of_nat n); DataView.setInt n offset value.
Definition Int_deserialize (n : nat) : M ByteBuffer.t Z :=
  offset ← advance (Z.of_nat n); DataView.getInt n offset.

Definition UInt_serialize (n : nat) (value : Z) : M ByteBuffer.t unit :=
  offset ← allocate (Z.of_nat n); DataView.setUint n offset value.
Definition UInt_deserialize (n : nat) : M ByteBuffer.t Z :=
  offset ← advance (Z.of_nat n); DataView.getUint n offset.

Definition Float32_serialize (value : spec_float) : M ByteBuffer.t unit :=
  offset ← allocate 4; DataView.setFloat32 offset value.
Definition Float32_deserialize : M ByteBuffer.t spec_float :=
  offset ← advance 4; DataView.getFloat32 offset.

Definition Float64_serialize (value : spec_float) : M ByteBuffer.t unit :=
  offset ← allocate 8; DataView.setFloat64 offset value.
Definition Float64_deserialize : M ByteBuffer.t spec_float :=
  offset ← advance 8; DataView.getFloat64 offset.

(** [while (value >= 0x80) { ... value = value >>> 7 }]. The fuel is the
    position of the highest set bit of [value], which every turn lowers:
    the loop leaves by its test ([VarUInt32_while_eq]). *)
Fixpoint VarUInt32_while (fuel : nat) (value : Z) : M ByteBuffer.t unit :=
  if value >=? 0x80 then
    match fuel with
    | O => mret ()
    | S fuel' =>
      writeByte (js_or (js_and value 0x7F) 0x80);;
      VarUInt32_while fuel' (js_shr value 7)
    end
  else writeByte value.

Definition VarUInt32_serialize (value : Z) : M ByteBuffer.t unit :=
  let value := js_shr value 0 in
  VarUInt32_while (Z.to_nat (Z.log2 value)) value.

(** [for (let i = 0; i < 5; i++)] with [n] turns left. *)
Fixpoint VarUInt32_for (n : nat) (i value shift : Z) : M ByteBuffer.t Z :=
  match n with
  | O => mret value
  | S n' =>
    avail ← gets available;
    if avail <=? 0 then throw (VarUInt32Underflow i)
    else
      byte ← readByte;
      let value := js_or value (js_shl (js_and byte 0x7F) shift) in
      if js_and byte 0x80 =? 0 then mret value
      else VarUInt32_for n' (i + 1) value (shift + 7)
  end.

Definition VarUInt32_deserialize : M ByteBuffer.t Z :=
  value ← VarUInt32_for 5 0 0 0;
  mret (js_shr value 0).

Definition VarInt32_serialize (value : Z) : M ByteBuffer.t unit :=
  let zigzag := js_xor (js_shl value 1) (js_sar value 31) in
  VarUInt32_serialize zigzag.

Definition VarInt32_deserialize : M ByteBuffer.t Z :=
  zigzag ← VarUInt32_deserialize;
  mret (js_xor (js_shr zigzag 1) (- js_and zigzag 1)).

(** The BigInt operators are those of [Z]. *)
Fixpoint VarUInt64_while (fuel : nat) (value : Z) : M ByteBuffer.t unit :=
  if value >=? 0x80 then
    match fuel with
    | O => mret ()
    | S fuel' =>
      writeByte (Z.lor (Z.land value 0x7F) 0x80);;
      VarUInt64_while fuel' (Z.shiftr value 7)
    end
  else writeByte value.

Definition VarUInt64_serialize (value : Z) : M ByteBuffer.t unit :=
  let value := value mod 2 ^ 64 in
  VarUInt64_while (Z.to_nat (Z.log2 value)) value.

Fixpoint VarUInt64_for (n : nat) (value shift : Z) : M ByteBuffer.t Z :=
  match n with
  | O => mret value
  | S n' =>
    byte ← readByte;
    let value := Z.lor value (Z.shiftl (Z.land byte 0x7F) shift) in
    if Z.land byte 0x80 =? 0 then mret value
    else VarUInt64_for n' value (shift + 7)
  end.

Definition VarUInt64_deserialize : M ByteBuffer.t Z :=
  value ← VarUInt64_for 10 0 0;
  mret (value mod 2 ^ 64).

Definition VarInt64_serialize (value : Z) : M ByteBuffer.t unit :=
  let zigzag := Z.lxor (Z.shiftl value 1) (Z.shiftr value 63) in
  VarUInt64_serialize zigzag.

Definition VarInt64_deserialize : M ByteBuffer.t Z :=
  zigzag ← VarUInt64_deserialize;
  mret (Z.lxor (Z.shiftr zigzag 1) (- Z.land zigzag 1)).

(** *** StringSerializer.ts *)

Definition String_serialize (value : jsstring) : M ByteBuffer.t unit :=
  VarUInt32_serialize (Z.of_nat (length value));;
  for_of VarUInt32_serialize value.

(** The test of [length] against [undefined] and [null] never fires:
    [VarUInt32.deserialize] returns a number. *)
Definition String_deserialize : M ByteBuffer.t jsstring :=
  len ← VarUInt32_deserialize;
  for_loop (Z.to_nat len)
    (λ result, charCode ← VarUInt32_deserialize;
               mret (result ++ String_fromCharCode charCode)) [].

(** *** [serialize] and [deserialize] of every class *)

(** [child.serialize(v, buffer)] on a field that may be undefined. *)
Definition call {A} (child : option t) (method : t → M ByteBuffer.t A) : M ByteBuffer.t A :=
  match child with
  | Some s => method s
  | None => throw TypeError
  end.

Fixpoint serialize (self : t) (v : value) {struct self} : M ByteBuffer.t unit :=
  match self with
  | BooleanSerializer => Boolean_serialize (ToBoolean v)
  | Int8Serializer => match v with VNumber n => Int_serialize 1 n | _ => throw OutsideType end
  | Int16Serializer => match v with VNumber n => Int_serialize 2 n | _ => throw OutsideType end
  | Int32Serializer => match v with VNumber n => Int_serialize 4 n | _ => throw OutsideType end
  | UInt8Serializer => match v with VNumber n => UInt_serialize 1 n | _ => throw OutsideType end
  | UInt16Serializer => match v with VNumber n => UInt_serialize 2 n | _ => throw OutsideType end
  | UInt32Serializer => match v with VNumber n => UInt_serialize 4 n | _ => throw OutsideType end
  | Float32Serializer => match v with VFloat f => Float32_serialize f | _ => throw OutsideType end
  | Float64Serializer => match v with VFloat f => Float64_serialize f | _ => throw OutsideType end
  | VarUInt32Serializer => match v with VNumber n => VarUInt32_serialize n | _ => throw OutsideType end
  | VarInt32Serializer => match v with VNumber n => VarInt32_serialize n | _ => throw OutsideType end
  | VarUInt64Serializer => match v with VBigInt n => VarUInt64_serialize n | _ => throw OutsideType end
  | VarInt64Serializer => match v with VBigInt n => VarInt64_serialize n | _ => throw OutsideType end
  | StringSerializer =>
    match v with
    | VString s => String_serialize s
    | VUndefined | VNull => throw TypeError
    | _ => throw OutsideType
    end
  | ArraySerializer elementSerializer =>
    match v with
    | VArray items =>
      VarUInt32_serialize (Z.of_nat (length items));;
      for_of (λ item,
                match elementSerializer with
                | Some s => serialize s item
                | None => throw TypeError
                end) items
    | VUndefined | VNull => throw TypeError
    | _ => throw OutsideType
    end
  | ObjectSerializer schema =>
    match schema with
    | None => mret ()
    | Some schema =>
      (fix for_in (schema : list (jsstring * option t)) : M ByteBuffer.t unit :=
         match schema with
         | [] => mret ()
         | (key, child) :: schema' =>
           (match child with
            | None => throw TypeError
            | Some s =>
              match v with
              | VObject fields => serialize s (get_property key fields)
              | VUndefined | VNull => throw TypeError
              | _ => throw OutsideType
              end
            end);;
           for_in schema'
         end) schema
    end
  | TupleSerializer serializers =>
    match serializers with
    | None => throw TypeError
    | Some serializers =>
      (fix for_i (serializers : list (option t)) (i : nat) : M ByteBuffer.t unit :=
         match serializers with
         | [] => mret ()
         | child :: serializers' =>
           (match child with
            | None => throw TypeError
            | Some s =>
              match v with
              | VArray items => serialize s (default VUndefined (items !! i))
              | VUndefined | VNull => throw TypeError
              | _ => throw OutsideType
              end
            end);;
           for_i serializers' (S i)
         end) serializers O
    end
  | OptionalSerializer serializer =>
    let isDefined :=
      match v with
      | VUndefined | VNull => false
      | _ => true
      end in
    Boolean_serialize isDefined;;
    if isDefined then
      match serializer with
      | Some s => serialize s v
      | None => throw TypeError
      end
    else mret ()
  | MapSerializer keySerializer valueSerializer =>
    match v with
    | VMap entries =>
      VarUInt32_serialize (Z.of_nat (length entries));;
      for_of (λ kv,
                (match keySerializer with
                 | Some s => serialize s kv.1
                 | None => throw TypeError
                 end);;
                match valueSerializer with
                | Some s => serialize s kv.2
                | None => throw TypeError
                end) entries
    | VUndefined | VNull => throw TypeError
    | _ => throw OutsideType
    end
  | SetSerializer elementSerializer =>
    match v with
    | VSet items =>
      VarUInt32_serialize (Z.of_nat (length items));;
      for_of (λ item,
                match elementSerializer with
                | Some s => serialize s item
                | None => throw TypeError
                end) items
    | VUndefined | VNull => throw TypeError
    | _ => throw OutsideType
    end
  end.

Fixpoint deserialize (self : t) {struct self} : M ByteBuffer.t value :=
  match self with
  | BooleanSerializer => VBoolean <$> Boolean_deserialize
  | Int8Serializer => VNumber <$> Int_deserialize 1
  | Int16Serializer => VNumber <$> Int_deserialize 2
  | Int32Serializer => VNumber <$> Int_deserialize 4
  | UInt8Serializer => VNumber <$> UInt_deserialize 1
  | UInt16Serializer => VNumber <$> UInt_deserialize 2
  | UInt32Serializer => VNumber <$> UInt_deserialize 4
  | Float32Serializer => VFloat <$> Float32_deserialize
  | Float64Serializer => VFloat <$> Float64_deserialize
  | VarUInt32Serializer => VNumber <$> VarUInt32_deserialize
  | VarInt32Serializer => VNumber <$> VarInt32_deserialize
  | VarUInt64Serializer => VBigInt <$> VarUInt64_deserialize
  | VarInt64Serializer => VBigInt <$> VarInt64_deserialize
  | StringSerializer => VString <$> String_deserialize
  | ArraySerializer elementSerializer =>
    len ← VarUInt32_deserialize;
    match elementSerializer with
    | None => mret (VArray [])
    | Some s =>
      VArray <$> for_loop (Z.to_nat len)
                   (λ result, item ← deserialize s; mret (result ++ [item])) []
    end
  | ObjectSerializer schema =>
    match schema with
    | None => mret (VObject [])
    | Some schema =>
      VObject <$>
      (fix for_in (schema : list (jsstring * option t)) (result : list (jsstring * value))
           : M ByteBuffer.t (list (jsstring * value)) :=
         match schema with
         | [] => mret result
         | (key, child) :: schema' =>
           match child with
           | None => for_in schema' result
           | Some s =>
             x ← deserialize s;
             for_in schema' (set_property key x result)
           end
         end) schema []
    end
  | TupleSerializer serializers =>
    match serializers with
    | None => mret (VArray [])
    | Some serializers =>
      VArray <$>
      (fix for_i (serializers : list (option t)) (result : list value)
           : M ByteBuffer.t (list value) :=
         match serializers with
         | [] => mret result
         | child :: serializers' =>
           match child with
           | None => for_i serializers' result
           | Some s =>
             x ← deserialize s;
             for_i serializers' (result ++ [x])
           end
         end) serializers []
    end
  | OptionalSerializer serializer =>
    isDefined ← Boolean_deserialize;
    if (isDefined : bool) then
      match serializer with
      | Some s => deserialize s
      | None => throw TypeError
      end
    else mret VUndefined
  | MapSerializer keySerializer valueSerializer =>
    size ← VarUInt32_deserialize;
    VMap <$> for_loop (Z.to_nat size)
               (λ result,
                  key ← match keySerializer with
                        | Some s => deserialize s
                        | None => throw TypeError
                        end;
                  val ← match valueSerializer with
                        | Some s => deserialize s
                        | None => throw TypeError
                        end;
                  mret (Map_set key val result)) []
  | SetSerializer elementSerializer =>
    size ← VarUInt32_deserialize;
    VSet <$> for_loop (Z.to_nat size)
               (λ result,
                  item ← match elementSerializer with
                         | Some s => deserialize s
                         | None => throw TypeError
                         end;
                  mret (Set_add item result)) []
  end.

End Serializer.

(** ** More built-in string functions *)

(** [s.startsWith(prefix)] and [s.endsWith(suffix)] *)
Fixpoint startsWith (prefix s : jsstring) : bool :=
  match prefix, s with
  | [], _ => true
  | p :: prefix', c :: s' => (p =? c) && startsWith prefix' s'
  | _ :: _, [] => false
  end.

Definition endsWith (suffix s : jsstring) : bool :=
  startsWith (reverse suffix) (reverse s).

(** [s.slice(start, end)]: a negative index counts from the end, and both
    are clamped to the string. *)
Definition String_slice (start end_ : Z) (s : jsstring) : jsstring :=
  let len := Z.of_nat (length s) in
  let from := if start <? 0 then Z.max (len + start) 0 else Z.min start len in
  let to := if end_ <? 0 then Z.max (len + end_) 0 else Z.min end_ len in
  take (Z.to_nat (to - from)) (drop (Z.to_nat from) s).

(** [s.split(sep)] for a separator of one character. *)
Fixpoint split (sep : Z) (s : jsstring) : list jsstring :=
  match s with
  | [] => [[]]
  | c :: s' =>
    if c =? sep then [] :: split sep s'
    else
      match split sep s' with
      | part :: parts => (c :: part) :: parts
      | [] => [[c]]
      end
  end.

(** ** net/encoding/HeaderCodec.ts *)

Module HeaderCodec.

(** [for (let i = 0; i < bytes.length; i++)] of [encodeToHex] *)
Fixpoint encode_loop (bytes : list Z) (hex : jsstring) : jsstring :=
  match bytes with
  | [] => hex
  | byte :: rest =>
    encode_loop rest (hex ++ toUpperCase (padStart 2 (str "0") (Number_toString byte 16)))
  end.

Definition encodeToHex (buffer : ByteBuffer.t) : jsstring :=
  let bytes := ByteBuffer.toUint8Array buffer in
  encode_loop bytes (str "(0x") ++ str ")".

(** [for (let i = 0; i < content.length; i += 2)] of [decodeFromHex], on
    [content.slice(i)]: the last [content.slice(i, i + 2)] is one
    character when the length is odd. [writeByte] takes [NaN] for 0. *)
Fixpoint decode_loop (content : jsstring) : M ByteBuffer.t unit :=
  match content with
  | [] => mret ()
  | [c] => ByteBuffer.writeByte (nan_as_zero (parseInt16 [c]))
  | c1 :: c2 :: rest =>
    ByteBuffer.writeByte (nan_as_zero (parseInt16 [c1; c2]));; decode_loop rest
  end.

Definition decodeFromHex (hex : jsstring) : ByteBuffer.t :=
  let buffer := ByteBuffer.new 256 in
  if startsWith (str "(0x") hex && endsWith (str ")") hex then
    let content := String_slice 3 (-1) hex in
    run (decode_loop content;; ByteBuffer.resetRead) buffer
  else run ByteBuffer.resetRead buffer.

End HeaderCodec.

(** ** proto/serializers/StringSerializer.ts: BytesSerializer *)

Module BytesSerializer.

Definition serialize (value : list Z) : M ByteBuffer.t unit :=
  Serializer.VarUInt32_serialize (Z.of_nat (length value));;
  ByteBuffer.writeBytes value.

Definition deserialize : M ByteBuffer.t (list Z) :=
  len ← Serializer.VarUInt32_deserialize;
  ByteBuffer.readBytes len.

End BytesSerializer.

(** ** net/EndpointManager.ts *)

Module EndpointManager.
Section Listeners.

(** The listeners are functions: [indexOf] compares them by identity. *)
Context {L : Type} `{!EqDecision L}.

(** [endpoints] maps an endpoint to its array of listeners. An array is
    an object: the map and the unsubscribe functions refer to it, so the
    arrays made so far are kept apart, each under its number. *)
Record t : Type := mk {
  endpoints : gmap (list Z) nat;
  arrays : list (list L)
}.

Definition new : t := {| endpoints := ∅; arrays := [] |}.

(** What the function [register] returns closes over. *)
Record Unsubscribe : Type := mk_unsubscribe {
  listeners : nat;
  listener : L;
  endpoint : list Z
}.

Definition register (endpoint : jsstring) (listener : L) (m : t) : Unsubscribe * t :=
  match endpoints m !! endpoint with
  | Some listeners =>
    ({| listeners := listeners; listener := listener; endpoint := endpoint |},
     {| endpoints := endpoints m;
        arrays := alter (λ array, array ++ [listener]) listeners (arrays m) |})
  | None =>
    let listeners := length (arrays m) in
    ({| listeners := listeners; listener := listener; endpoint := endpoint |},
     {| endpoints := <[endpoint := listeners]> (endpoints m);
        arrays := arrays m ++ [[listener]] |})
  end.

(** [array.indexOf(x)], [None] for -1. *)
Definition indexOf (x : L) (array : list L) : option nat :=
  fst <$> list_find (λ y, y = x) array.

(** A call of the function [register] returned. *)
Definition unsubscribe (u : Unsubscribe) (m : t) : t :=
  let array := default [] (arrays m !! listeners u) in
  let array :=
    match indexOf (listener u) array with
    | Some index => delete index array
    | None => array
    end in
  {| endpoints :=
       if bool_decide (length array = 0%nat) then delete (endpoint u) (endpoints m)
       else endpoints m;
     arrays := <[listeners u := array]> (arrays m) |}.

Definition getListeners (endpoint : jsstring) (m : t) : option (list L) :=
  listeners ← endpoints m !! endpoint; arrays m !! listeners.

Definition hasListeners (endpoint : jsstring) (m : t) : bool :=
  match getListeners endpoint m with
  | Some listeners => (0 <? length listeners)%nat
  | None => false
  end.

Definition clearAll (m : t) : t := {| endpoints := ∅; arrays := arrays m |}.

End Listeners.
Arguments t L : clear implicits.
Arguments Unsubscribe L : clear implicits.
End EndpointManager.

(** ** net/encoding/Header.ts *)

Module Header.

Definition PROTOCOL_VERSION : jsstring := str "mcbe-ipc:v3".

Record HeaderData : Type := mk {
  guid : jsstring;
  version : jsstring;
  index : Z;
  isFinal : bool
}.

Definition create (guid : jsstring) (index : Z) (isFinal : bool) : HeaderData :=
  {| guid := guid; version := PROTOCOL_VERSION; index := index; isFinal := isFinal |}.

(** [HeaderSerializer], the object schema of a header. *)
Definition HeaderSerializer : Serializer.t :=
  Serializer.ObjectSerializer
    (Some [(str "guid", Some Serializer.StringSerializer);
           (str "version", Some Serializer.StringSerializer);
           (str "index", Some Serializer.VarUInt32Serializer);
           (str "isFinal", Some Serializer.BooleanSerializer)]).

(** The object of a header as the serializer takes it, and the header a
    listener reads off the object the serializer returns: its [guid],
    [index] and [isFinal] (and [version], which no one reads). *)
Definition to_value (header : HeaderData) : Serializer.value :=
  Serializer.VObject
    [(str "guid", Serializer.VString (guid header));
     (str "version", Serializer.VString (version header));
     (str "index", Serializer.VNumber (index header));
     (str "isFinal", Serializer.VBoolean (isFinal header))].

Definition of_value (v : Serializer.value) : option HeaderData :=
  match v with
  | Serializer.VObject fields =>
    match Serializer.get_property (str "guid") fields,
          Serializer.get_property (str "version") fields,
          Serializer.get_property (str "index") fields,
          Serializer.get_property (str "isFinal") fields with
    | Serializer.VString guid, Serializer.VString version,
      Serializer.VNumber index, Serializer.VBoolean isFinal =>
      Some {| guid := guid; version := version; index := index; isFinal := isFinal |}
    | _, _, _, _ => None
    end
  | _ => None
  end.

(** [generateId], with [random], the number [(Math.random() * 0x100000000) >>> 0]
    it starts from, as a parameter. *)
Definition generateId (random : Z) : jsstring :=
  let hex (n : Z) := padStart 2 (str "0") (Number_toString n 16) in
  toUpperCase
    (hex (js_and random 0xFF) ++
     hex (js_and (js_sar random 8) 0xFF) ++
     hex (js_and (js_sar random 16) 0xFF) ++
     hex (js_and (js_sar random 24) 0xFF)).

End Header.

(** ** net/messages/MessageEmitter.ts *)

Module MessageEmitter.
Import Header.

(** [for (let i = 0; i < fragments.length; i++)]: the header and the
    fragment of every [system.sendScriptEvent] call, in order. [n] is
    [fragments.length] and [rest] the fragments from index [i] on. *)
Fixpoint emit_loop (guid : jsstring) (n i : Z) (rest : list jsstring)
    : list (HeaderData * jsstring) :=
  match rest with
  | [] => []
  | fragment :: rest' =>
    (create guid i (i =? n - 1), fragment) :: emit_loop guid n (i + 1) rest'
  end.

(** [emit], with the identifier [Header.generateId()] drew as a
    parameter. The header travels hex-encoded in the event identifier and
    is decoded by the receiver before the listener sees it; that hop is
    left to the transport here. *)
Definition emit (guid : jsstring) (serializer : Serializer.t) (value : Serializer.value)
    : completion (list (HeaderData * jsstring)) :=
  match Serializer.serialize serializer value (ByteBuffer.new 256) with
  | (Throw e, _) => Throw e
  | (Normal _, payloadBuffer) =>
    let fragments := PacketEncoder.encode payloadBuffer PacketEncoder.MAX_FRAGMENT_SIZE in
    Normal (emit_loop guid (Z.of_nat (length fragments)) 0 fragments)
  end.

(** The calls of [system.sendScriptEvent] so far, each with its identifier
    and its message. *)
Definition sent : Type := list (jsstring * jsstring).

(** [const buffer = new ByteBuffer(); yield* write(buffer)] *)
Definition on_new_buffer {S} (write : M ByteBuffer.t unit) : M S ByteBuffer.t := λ s,
  match write (ByteBuffer.new 256) with
  | (Normal _, buffer) => (Normal buffer, s)
  | (Throw e, _) => (Throw e, s)
  end.

(** The loop of [emit] as it is written, from index [i] on. *)
Fixpoint send_loop (guid encodedEndpoint : jsstring) (n i : Z) (rest : list jsstring)
    : M sent unit :=
  match rest with
  | [] => mret ()
  | fragment :: rest' =>
    let header := create guid i (i =? n - 1) in
    headerBuffer ← on_new_buffer (Serializer.serialize HeaderSerializer (to_value header));
    let encodedHeader := HeaderCodec.encodeToHex headerBuffer in
    modify (λ log, log ++ [(encodedEndpoint ++ str ":" ++ encodedHeader, fragment)]);;
    send_loop guid encodedEndpoint n (i + 1) rest'
  end.

(** [emit] with the script events it sends, [guid] being what
    [Header.generateId()] returned. *)
Definition emit_events (guid endpoint : jsstring) (serializer : Serializer.t)
    (value : Serializer.value) : M sent unit :=
  endpointBuffer ← on_new_buffer (Serializer.String_serialize endpoint);
  let encodedEndpoint := HeaderCodec.encodeToHex endpointBuffer in
  payloadBuffer ← on_new_buffer (Serializer.serialize serializer value);
  let fragments := PacketEncoder.encode payloadBuffer PacketEncoder.MAX_FRAGMENT_SIZE in
  send_loop guid encodedEndpoint (Z.of_nat (length fragments)) 0 fragments.

End MessageEmitter.

(** ** net/messages/MessageListener.ts *)

Module MessageListener.
Import Header.

(** [fragments] is a JavaScript array that is only read and written by
    index: a hole is an absent key. *)
Record FragmentEntry : Type := mk_entry {
  size : Z;
  fragments : gmap Z (list Z);
  received : gset Z
}.

(** What [listen] closes over: the [fragmentBuffer] map, and the values
    the subscriber [callback] has been invoked with, oldest first. *)
Record state : Type := mk_state {
  fragmentBuffer : gmap (list Z) FragmentEntry;
  calls : list Serializer.value
}.

Definition initial : state := {| fragmentBuffer := ∅; calls := [] |}.

Definition new_entry : FragmentEntry :=
  {| size := -1; fragments := ∅; received := ∅ |}.

(** Lines 97 to 101: the entry after the header and the fragment are
    recorded. *)
Definition record_fragment (header : HeaderData) (fragment : jsstring)
    (entry : FragmentEntry) : FragmentEntry :=
  let size' := if isFinal header then index header + 1 else size entry in
  {| size := size';
     fragments := <[index header := fragment]> (fragments entry);
     received := {[index header]} ∪ received entry |}.

(** [entry.size !== -1 && entry.received.size === entry.size] *)
Definition complete (entry : FragmentEntry) : bool :=
  negb (size entry =? -1) && (Z.of_nat (stdpp.base.size (received entry)) =? size entry).

(** [for (let i = 0; i < entry.size; i++)] with [n] turns left: a hole
    and the empty string are both falsy. *)
Fixpoint copy_fragments (n : nat) (i : Z) (entry : FragmentEntry)
    (fragmentsCopy : list jsstring) : completion (list jsstring) :=
  match n with
  | O => Normal fragmentsCopy
  | S n' =>
    match fragments entry !! i with
    | None | Some [] => Throw (MissingFragment i)
    | Some fragment => copy_fragments n' (i + 1) entry (fragmentsCopy ++ [fragment])
    end
  end.

(** The [listener] that [listen] registers. The entry is an object the
    map refers to: what is recorded in it is recorded in the map. *)
Definition listener (deserializer : Serializer.t)
    (header : HeaderData) (fragment : jsstring) : M state unit := λ st,
  let entry := default new_entry (fragmentBuffer st !! guid header) in
  let entry := record_fragment header fragment entry in
  let st := {| fragmentBuffer := <[guid header := entry]> (fragmentBuffer st);
               calls := calls st |} in
  if complete entry then
    match copy_fragments (Z.to_nat (size entry)) 0 entry [] with
    | Throw e => (Throw e, st)
    | Normal fragmentsCopy =>
      let dataBuffer := PacketEncoder.decode fragmentsCopy in
      let st := {| fragmentBuffer := delete (guid header) (fragmentBuffer st);
                   calls := calls st |} in
      match Serializer.deserialize deserializer dataBuffer with
      | (Throw e, _) => (Throw e, st)
      | (Normal value, _) =>
        (Normal (), {| fragmentBuffer := fragmentBuffer st; calls := calls st ++ [value] |})
      end
    end
  else (Normal (), st).

(** The events of a run: every event is handled on its own, an error of
    the listener is caught and logged by [handleEvent]. *)
Definition deliver (deserializer : Serializer.t)
    (events : list (HeaderData * jsstring)) (st : state) : state :=
  foldl (λ st ev, run (listener deserializer ev.1 ev.2) st) st events.

(** *** The class: [listen], [handleEvent], [close] *)

Inductive ScriptEventSource : Type := Block | Entity | NPCDialogue | Server.

Record ScriptEvent : Type := mk_event {
  sourceType : ScriptEventSource;
  id : jsstring;
  message : jsstring
}.

(** A [MessageListener] with its endpoint manager. The listener functions
    that [listen] makes are numbered in the order they are made; function
    [i] closes over what [closures !! i] holds: its deserializer, its
    callback and its state. A callback is a function of the program that
    uses the class; it is given by a number, and [Callbacks] below says
    what the callback of each number does. *)
Record Closure : Type := mk_closure {
  deserializer : Serializer.t;
  callback : nat;
  captured : state
}.

Record t : Type := mk {
  endpointManager : EndpointManager.t nat;
  closures : list Closure
}.

Definition new : t := {| endpointManager := EndpointManager.new; closures := [] |}.

(** What the callbacks do when they are invoked with a value: they return
    or throw, and may do to the [MessageListener] what its methods and the
    unsubscribe functions do. *)
Definition Callbacks : Type := nat → Serializer.value → M t unit.

Definition listen (endpoint : jsstring) (deserializer : Serializer.t) (callback : nat) (l : t)
    : EndpointManager.Unsubscribe nat * t :=
  let listener := length (closures l) in
  let '(unsubscribe, manager) :=
    EndpointManager.register endpoint listener (endpointManager l) in
  (unsubscribe,
   {| endpointManager := manager;
      closures := closures l ++ [{| deserializer := deserializer; callback := callback;
                                    captured := initial |}] |}).

(** A call of the function an unsubscribe of [listen] is. *)
Definition unsubscribe (u : EndpointManager.Unsubscribe nat) (l : t) : t :=
  {| endpointManager := EndpointManager.unsubscribe u (endpointManager l);
     closures := closures l |}.

Definition close (l : t) : t :=
  {| endpointManager := EndpointManager.clearAll (endpointManager l);
     closures := closures l |}.

(** [yield* listener(header, event.message)] for the listener function
    [i], on the header object the serializer returned. [listener] records
    the value it invokes the callback with as the last thing it does: what
    the callback does follows, and what it throws the listener throws. *)
Definition call (callbacks : Callbacks) (i : nat) (header : Serializer.value)
    (fragment : jsstring) : M t unit := λ l,
  match closures l !! i with
  | None => (Throw TypeError, l)
  | Some c =>
    match Header.of_value header with
    | None => (Throw OutsideType, l)
    | Some h =>
      let '(r, st) := listener (deserializer c) h fragment (captured c) in
      let l := {| endpointManager := endpointManager l;
                  closures := <[i := {| deserializer := deserializer c;
                                        callback := callback c;
                                        captured := st |}]> (closures l) |} in
      match r, drop (length (calls (captured c))) (calls st) with
      | Normal _, value :: _ => callbacks (callback c) value l
      | _, _ => (r, l)
      end
    end
  end.

(** [try { ... } catch (e) { console.error(...); errors.push(e) }] *)
Definition try_catch {S} (m : M S unit) : M S unit := λ s,
  match m s with
  | (Throw _, s') => (Normal (), s')
  | r => r
  end.

(** A method of a value that may be [undefined]. *)
Definition defined {S A} (x : option A) : M S A :=
  match x with
  | Some a => mret a
  | None => throw TypeError
  end.

(** [yield* read(buffer)] on a buffer of its own. *)
Definition on_buffer {S A} (buffer : ByteBuffer.t) (read : M ByteBuffer.t A) : M S A := λ s,
  (fst (read buffer), s).

(** A job whose loop need not end: [None] when it has not ended after the
    turns it is given. *)
Definition Job (S A : Type) : Type := S → option (completion A * S).

#[global] Instance Job_ret {S} : MRet (Job S) := λ A a s, Some (Normal a, s).
#[global] Instance Job_bind {S} : MBind (Job S) := λ A B k m s,
  match m s with
  | Some (Normal a, s') => k a s'
  | Some (Throw e, s') => Some (Throw e, s')
  | None => None
  end.

(** A computation that ends. *)
Definition ends {S A} (m : M S A) : Job S A := λ s, Some (m s).

(** [for (const listener of listeners) { try { ... } catch ... }] from
    index [i] on. [listeners] is the array [getListeners] returned, by its
    number: the loop reads [listeners[i]] and [listeners.length] at every
    turn, as the array is then, and a callback that registers or
    unsubscribes a listener of the endpoint changes it under the loop.
    [fuel] is the number of turns the loop is given. *)
Fixpoint dispatch (fuel : nat) (callbacks : Callbacks) (listeners i : nat)
    (header : Serializer.value) (fragment : jsstring) : Job t unit := λ l,
  match default [] (EndpointManager.arrays (endpointManager l) !! listeners) !! i with
  | None => Some (Normal (), l)
  | Some listener =>
    match fuel with
    | O => None
    | S fuel' =>
      dispatch fuel' callbacks listeners (S i) header fragment
        (run (try_catch (call callbacks listener header fragment)) l)
    end
  end.

Definition handleEvent (callbacks : Callbacks) (fuel : nat) (event : ScriptEvent)
    : Job t unit :=
  match sourceType event with
  | Server =>
    let parts := split 58 (id event) in
    encodedEndpoint ← ends (defined (parts !! 0%nat));
    let endpointBuffer := HeaderCodec.decodeFromHex encodedEndpoint in
    endpoint ← ends (on_buffer endpointBuffer Serializer.String_deserialize);
    listeners ← ends (gets (λ l, EndpointManager.endpoints (endpointManager l) !! endpoint));
    match listeners with
    | None => mret ()
    | Some listeners =>
      array ← ends (gets (λ l,
        default [] (EndpointManager.arrays (endpointManager l) !! listeners)));
      match array with
      | [] => mret ()
      | _ :: _ =>
        encodedHeader ← ends (defined (parts !! 1%nat));
        let headerBuffer := HeaderCodec.decodeFromHex encodedHeader in
        header ← ends (on_buffer headerBuffer (Serializer.deserialize HeaderSerializer));
        dispatch fuel callbacks listeners 0 header (message event)
      end
    end
  | _ => mret ()
  end.

(** The script events of a run, each handled by a job of its own that is
    run to its end before the next: a job that throws ends, the next
    event is handled all the same. *)
Fixpoint handleEvents (callbacks : Callbacks) (fuel : nat) (events : list ScriptEvent)
    (l : t) : option t :=
  match events with
  | [] => Some l
  | event :: events' =>
    match handleEvent callbacks fuel event l with
    | Some (_, l') => handleEvents callbacks fuel events' l'
    | None => None
    end
  end.

End MessageListener.

(** * Properties *)

(** ** The vocabulary of the statements *)

Section Vocabulary.
Import ByteBuffer.

(** The invariant of the class: the cursors are ordered and inside the
    backing array. *)
Definition wf (b : t) : Prop :=
  0 ≤ readPos b ∧ readPos b ≤ writePos b ∧ writePos b ≤ capacity b.

(** What a computation appends to the written bytes, whatever the
    buffer it starts from. *)
Definition writes (m : M t unit) (bs : list Z) : Prop :=
  ∀ b, wf b →
    ∃ b', m b = (Normal (), b') ∧ wf b' ∧
          toUint8Array b' = toUint8Array b ++ bs ∧ readPos b' = readPos b.

(** What a computation returns when the unread bytes start with [bs],
    and that it consumes exactly [bs]. *)
Definition reads {A} (m : M t A) (bs : list Z) (a : A) : Prop :=
  ∀ b rest, wf b →
    drop (Z.to_nat (readPos b)) (toUint8Array b) = bs ++ rest →
    m b = (Normal a, set_readPos (readPos b + Z.of_nat (length bs)) b).

End Vocabulary.

(** A byte, as a [Uint8Array] holds it. *)
Definition is_byte (x : Z) : Prop := 0 ≤ x < 256.

Definition byte_pair (p : Z * Z) : Prop := is_byte p.1 ∧ is_byte p.2.

(** The cost [PacketEncoder.encode] charges for a fragment, unit by unit: a
    character up to 0xFF starts a pair of hex digits, which costs 2, any
    other character is a unit of its own and costs its [charSize]. *)
Fixpoint fragment_cost (fragment : jsstring) : Z :=
  match fragment with
  | [] => 0
  | c :: rest =>
    if c <=? 0xFF then
      2 + match rest with
          | [] => 0
          | _ :: rest' => fragment_cost rest'
          end
    else PacketEncoder.charSize_of c + fragment_cost rest
  end.

(** The bytes of a buffer taken two at a time, an odd last byte paired
    with 0: what the loop of [encode] sees. *)
Fixpoint byte_pairs (bytes : list Z) : list (Z * Z) :=
  match bytes with
  | [] => []
  | [low] => [(low, 0)]
  | low :: high :: rest => (low, high) :: byte_pairs rest
  end.

(** The text of one unit in a fragment. *)
Definition unit_text (p : Z * Z) : jsstring :=
  let charCode := PacketEncoder.charCode_of p.1 p.2 in
  if charCode >? 0xFF then String_fromCharCode charCode
  else toUpperCase (padStart 2 (str "0") (Number_toString charCode 16)).

Definition units_text (ps : list (Z * Z)) : jsstring := concat (map unit_text ps).

Definition units_cost (ps : list (Z * Z)) : Z :=
  foldr (λ p acc, PacketEncoder.charSize_of (PacketEncoder.charCode_of p.1 p.2) + acc) 0 ps.

Definition units_bytes (ps : list (Z * Z)) : list Z := concat (map (λ p, [p.1; p.2]) ps).

(** The hex branch of both directions, on every value it can meet. *)
Definition hex_unit_ok (c : Z) : bool :=
  match toUpperCase (padStart 2 (str "0") (Number_toString c 16)) with
  | [h1; h2] =>
    (h1 <=? 0xFF) && (h2 <=? 0xFF) &&
    (js_and (nan_as_zero (parseInt16 [h1; h2])) 0xFF =? c) &&
    (js_sar (nan_as_zero (parseInt16 [h1; h2])) 8 =? 0)
  | _ => false
  end.

(** The loop of [encode] on the units: the closed fragments and the open
    one, each as the list of its units. *)
Definition encode_units_step (maxSize : Z) (acc : list (list (Z * Z)) * list (Z * Z))
    (p : Z * Z) : list (list (Z * Z)) * list (Z * Z) :=
  if units_cost acc.2 + PacketEncoder.charSize_of (PacketEncoder.charCode_of p.1 p.2) >? maxSize
  then (acc.1 ++ [acc.2], [p])
  else (acc.1, acc.2 ++ [p]).

Definition encode_state_of (acc : list (list (Z * Z)) * list (Z * Z))
    : PacketEncoder.encode_state :=
  {| PacketEncoder.fragments := map units_text acc.1;
     PacketEncoder.currentFragment := units_text acc.2;
     PacketEncoder.currentSize := units_cost acc.2 |}.

(** The entry of the message of [header] once the listener has recorded
    [fragment] in it: the one its completion test looks at. *)
Definition recorded (st : MessageListener.state) (header : Header.HeaderData)
    (fragment : jsstring) : MessageListener.FragmentEntry :=
  MessageListener.record_fragment header fragment
    (default MessageListener.new_entry
       (MessageListener.fragmentBuffer st !! Header.guid header)).

(** A hole of the [fragments] array or the empty string: what the copy
    loop of the listener takes for a missing fragment. *)
Definition falsy (fragment : option jsstring) : Prop :=
  fragment = None ∨ fragment = Some [].

(** The LEB128 bytes of [v >= 0]: groups of 7 bits, the lowest first, the
    continuation bit on all but the last. The fuel only has to reach the
    highest set bit of [v]. *)
Fixpoint leb128 (fuel : nat) (v : Z) : list Z :=
  if v <? 128 then [v]
  else
    match fuel with
    | O => []
    | S fuel' => (v mod 128 + 128) :: leb128 fuel' (v / 128)
    end.

Definition varuint_bytes (v : Z) : list Z := leb128 (Z.to_nat (Z.log2 v)) v.

(** Zigzag: the unsigned integer a signed one is written as. *)
Definition zigzag (v : Z) : Z := if v <? 0 then - 2 * v - 1 else 2 * v.

(** ** The values a serializer is for *)

Section Validity.
Import Serializer.

(** A string: UTF-16 code units, fewer than 2^32 of them (no engine makes
    a longer one). *)
Definition valid_string (s : jsstring) : Prop :=
  Z.of_nat (length s) < 2 ^ 32 ∧ Forall (λ c, 0 ≤ c < 2 ^ 16) s.

(** The keys of a [Map], the elements of a [Set]: each is stored as
    [map.set] and [set.add] keep it, and no earlier one is the same value
    as a later one. *)
Fixpoint distinct_keys (l : list value) : Prop :=
  match l with
  | [] => True
  | x :: l' =>
    normalize_key x = x ∧ Forall (λ y, same_value_zero x y = false) l' ∧ distinct_keys l'
  end.

(** A number that binary32 represents exactly. *)
Definition binary32_exact (f : spec_float) : Prop :=
  DataView.is_valid 23 8 (DataView.round_to 23 8 f) = true ∧
  DataView.round_to 52 11 (DataView.round_to 23 8 f) = f.

(** What [deserialize] gives back for [v]: a serializer that reads [bs]
    after having written it. *)
Definition roundtrips (s : t) (v : value) : Prop :=
  ∃ bs, writes (serialize s v) bs ∧ reads (deserialize s) bs v.

(** [valid s v]: [v] is a value of the TypeScript type [T] of the
    serializer [s : Serializer<T>], every serializer the schema names is
    there, and the sizes fit the 32-bit length prefix. The properties of an
    object are listed in the order of the schema. For
    [OptionalSerializer], [null] is left out: it is written as absent. *)
Fixpoint valid (s : t) (v : value) {struct s} : Prop :=
  match s with
  | BooleanSerializer => match v with VBoolean _ => True | _ => False end
  | Int8Serializer => match v with VNumber n => - 2 ^ 7 ≤ n < 2 ^ 7 | _ => False end
  | Int16Serializer => match v with VNumber n => - 2 ^ 15 ≤ n < 2 ^ 15 | _ => False end
  | Int32Serializer => match v with VNumber n => - 2 ^ 31 ≤ n < 2 ^ 31 | _ => False end
  | UInt8Serializer => match v with VNumber n => 0 ≤ n < 2 ^ 8 | _ => False end
  | UInt16Serializer => match v with VNumber n => 0 ≤ n < 2 ^ 16 | _ => False end
  | UInt32Serializer => match v with VNumber n => 0 ≤ n < 2 ^ 32 | _ => False end
  | Float32Serializer =>
    match v with
    | VFloat f => DataView.is_valid 52 11 f = true ∧ binary32_exact f
    | _ => False
    end
  | Float64Serializer =>
    match v with VFloat f => DataView.is_valid 52 11 f = true | _ => False end
  | VarUInt32Serializer => match v with VNumber n => 0 ≤ n < 2 ^ 32 | _ => False end
  | VarInt32Serializer => match v with VNumber n => - 2 ^ 31 ≤ n < 2 ^ 31 | _ => False end
  | VarUInt64Serializer => match v with VBigInt n => 0 ≤ n < 2 ^ 64 | _ => False end
  | VarInt64Serializer => match v with VBigInt n => - 2 ^ 63 ≤ n < 2 ^ 63 | _ => False end
  | StringSerializer => match v with VString s => valid_string s | _ => False end
  | ArraySerializer (Some e) =>
    match v with
    | VArray items => Z.of_nat (length items) < 2 ^ 32 ∧ Forall (valid e) items
    | _ => False
    end
  | ObjectSerializer (Some schema) =>
    match v with
    | VObject fields =>
      NoDup schema.*1 ∧
      (fix each (schema : list (jsstring * option t)) (fields : list (jsstring * value)) : Prop :=
         match schema, fields with
         | [], [] => True
         | (key, Some child) :: schema', (key', x) :: fields' =>
           key = key' ∧ valid child x ∧ each schema' fields'
         | _, _ => False
         end) schema fields
    | _ => False
    end
  | TupleSerializer (Some serializers) =>
    match v with
    | VArray items =>
      (fix each (serializers : list (option t)) (items : list value) : Prop :=
         match serializers, items with
         | [], [] => True
         | Some child :: serializers', x :: items' => valid child x ∧ each serializers' items'
         | _, _ => False
         end) serializers items
    | _ => False
    end
  | OptionalSerializer (Some e) => v = VUndefined ∨ valid e v
  | MapSerializer (Some k) (Some e) =>
    match v with
    | VMap entries =>
      Z.of_nat (length entries) < 2 ^ 32 ∧
      Forall (λ kv, valid k kv.1 ∧ valid e kv.2) entries ∧
      distinct_keys entries.*1
    | _ => False
    end
  | SetSerializer (Some e) =>
    match v with
    | VSet items =>
      Z.of_nat (length items) < 2 ^ 32 ∧ Forall (valid e) items ∧ distinct_keys items
    | _ => False
    end
  | _ => False
  end.

(** The loops of the object and tuple serializers, by name. *)
Definition serialize_fields (v : value) : list (jsstring * option t) → M ByteBuffer.t unit :=
  fix for_in (schema : list (jsstring * option t)) : M ByteBuffer.t unit :=
    match schema with
    | [] => mret ()
    | (key, child) :: schema' =>
      (match child with
       | None => throw TypeError
       | Some s =>
         match v with
         | VObject fields => serialize s (get_property key fields)
         | VUndefined | VNull => throw TypeError
         | _ => throw OutsideType
         end
       end);;
      for_in schema'
    end.

Fixpoint deserialize_fields (schema : list (jsstring * option t))
    (result : list (jsstring * value)) : M ByteBuffer.t (list (jsstring * value)) :=
  match schema with
  | [] => mret result
  | (key, child) :: schema' =>
    match child with
    | None => deserialize_fields schema' result
    | Some s => x ← deserialize s; deserialize_fields schema' (set_property key x result)
    end
  end.

Definition serialize_items (v : value) : list (option t) → nat → M ByteBuffer.t unit :=
  fix for_i (serializers : list (option t)) (i : nat) : M ByteBuffer.t unit :=
    match serializers with
    | [] => mret ()
    | child :: serializers' =>
      (match child with
       | None => throw TypeError
       | Some s =>
         match v with
         | VArray items => serialize s (default VUndefined (items !! i))
         | VUndefined | VNull => throw TypeError
         | _ => throw OutsideType
         end
       end);;
      for_i serializers' (S i)
    end.

Fixpoint deserialize_items (serializers : list (option t)) (result : list value)
    : M ByteBuffer.t (list value) :=
  match serializers with
  | [] => mret result
  | child :: serializers' =>
    match child with
    | None => deserialize_items serializers' result
    | Some s => x ← deserialize s; deserialize_items serializers' (result ++ [x])
    end
  end.

(** The two inner loops of [valid], by name. *)
Definition valid_fields : list (jsstring * option t) → list (jsstring * value) → Prop :=
  fix each (schema : list (jsstring * option t)) (fields : list (jsstring * value)) : Prop :=
    match schema, fields with
    | [], [] => True
    | (key, Some child) :: schema', (key', x) :: fields' =>
      key = key' ∧ valid child x ∧ each schema' fields'
    | _, _ => False
    end.

Definition valid_items : list (option t) → list value → Prop :=
  fix each (serializers : list (option t)) (items : list value) : Prop :=
    match serializers, items with
    | [], [] => True
    | Some child :: serializers', x :: items' => valid child x ∧ each serializers' items'
    | _, _ => False
    end.

End Validity.

(** ** Insufficient bytes *)

Section Strictness.
Import ByteBuffer.

(** The two errors that report a read past the written bytes. *)
Definition underflow (e : error) : Prop :=
  (∃ requested available, e = BufferUnderflow requested available) ∨
  (∃ i, e = VarUInt32Underflow i).

(** The bytes left to read. *)
Definition unread (b : t) : list Z := drop (Z.to_nat (readPos b)) (toUint8Array b).

(** A computation that returns a value has consumed some [k] of the bytes
    left to read and touched nothing else; on a buffer that has only a
    prefix of those bytes left it returns the same value when the prefix
    holds [k] bytes or more, and throws an underflow error when it holds
    fewer: it never makes up for the bytes that are not there. *)
Definition strict {A} (m : M t A) : Prop :=
  ∀ b a b', wf b → m b = (Normal a, b') →
    ∃ k, 0 ≤ k ∧ readPos b + k ≤ writePos b ∧ b' = set_readPos (readPos b + k) b ∧
      ∀ b2, wf b2 → (∃ extra, unread b = unread b2 ++ extra) →
        (k ≤ Z.of_nat (length (unread b2)) →
           m b2 = (Normal a, set_readPos (readPos b2 + k) b2)) ∧
        (Z.of_nat (length (unread b2)) < k →
           ∃ e b2', underflow e ∧ m b2 = (Throw e, b2')).

End Strictness.

(** ** Induction on serializers *)

Section SerializerInduction.
Import Serializer.

(** The serializers that hold no other serializer. *)
Definition is_primitive (s : t) : Prop :=
  match s with
  | ArraySerializer _ | ObjectSerializer _ | TupleSerializer _
  | OptionalSerializer _ | MapSerializer _ _ | SetSerializer _ => False
  | _ => True
  end.

(** Induction on a serializer and the serializers it holds. *)
Section Induction.
Variable P : t → Prop.
Let P_child (c : option t) : Prop := ∀ s, c = Some s → P s.
Hypothesis Hprimitive : ∀ s, is_primitive s → P s.
Hypothesis Harray : ∀ e, P_child e → P (ArraySerializer e).
Hypothesis Hobject : ∀ schema,
  (∀ fields, schema = Some fields → Forall (λ kc, P_child kc.2) fields) →
  P (ObjectSerializer schema).
Hypothesis Htuple : ∀ serializers,
  (∀ l, serializers = Some l → Forall P_child l) → P (TupleSerializer serializers).
Hypothesis Hoptional : ∀ e, P_child e → P (OptionalSerializer e).
Hypothesis Hmap : ∀ k e, P_child k → P_child e → P (MapSerializer k e).
Hypothesis Hset : ∀ e, P_child e → P (SetSerializer e).

Fixpoint serializer_ind (s : t) : P s :=
  let child (c : option t) : P_child c :=
    match c return P_child c with
    | Some s' => λ s0 E, eq_ind s' P (serializer_ind s') s0 (Some_inj _ _ E)
    | None => λ s0 E, False_ind _ (None_ne_Some _ E)
    end in
  match s return P s with
  | ArraySerializer e => Harray e (child e)
  | ObjectSerializer schema =>
    Hobject schema
      match schema return ∀ fields, schema = Some fields → Forall (λ kc, P_child kc.2) fields with
      | Some l => λ fields E,
        eq_ind l (Forall (λ kc, P_child kc.2))
          ((fix go (l : list (jsstring * option t)) : Forall (λ kc, P_child kc.2) l :=
              match l with
              | [] => List.Forall_nil _
              | kc :: l' => List.Forall_cons _ kc l' (child kc.2) (go l')
              end) l) fields (Some_inj _ _ E)
      | None => λ fields E, False_ind _ (None_ne_Some _ E)
      end
  | TupleSerializer serializers =>
    Htuple serializers
      match serializers return ∀ l, serializers = Some l → Forall P_child l with
      | Some l => λ l0 E,
        eq_ind l (Forall P_child)
          ((fix go (l : list (option t)) : Forall P_child l :=
              match l with
              | [] => List.Forall_nil _
              | c :: l' => List.Forall_cons _ c l' (child c) (go l')
              end) l) l0 (Some_inj _ _ E)
      | None => λ l0 E, False_ind _ (None_ne_Some _ E)
      end
  | OptionalSerializer e => Hoptional e (child e)
  | MapSerializer k e => Hmap k e (child k) (child e)
  | SetSerializer e => Hset e (child e)
  | s' => Hprimitive s' I
  end.
End Induction.

End SerializerInduction.

(** ** The vocabulary of the further properties *)

(** An upper-case hexadecimal digit, as [toString(16).toUpperCase()]
    writes it. *)
Definition is_hex_upper (c : Z) : Prop := 48 ≤ c ≤ 57 ∨ 65 ≤ c ≤ 70.

(** The two hexadecimal digits of a byte. *)
Definition hex_byte_ok (c : Z) : bool :=
  match toUpperCase (padStart 2 (str "0") (Number_toString c 16)) with
  | [h1; h2] =>
    ((48 <=? h1) && (h1 <=? 57) || (65 <=? h1) && (h1 <=? 70)) &&
    ((48 <=? h2) && (h2 <=? 57) || (65 <=? h2) && (h2 <=? 70)) &&
    (nan_as_zero (parseInt16 [h1; h2]) =? c)
  | _ => false
  end.

(** The text [HeaderCodec.encodeToHex] writes for a byte and for the bytes
    of a buffer, between ["(0x"] and [")"]. *)
Definition byte_hex (c : Z) : jsstring :=
  toUpperCase (padStart 2 (str "0") (Number_toString c 16)).

Definition bytes_hex (bytes : list Z) : jsstring := concat (map byte_hex bytes).

(** A computation that leaves bytes, and nothing else, in the backing
    array of a buffer that held bytes: what a [Uint8Array] makes of every
    store. *)
Definition keeps_bytes {A} (m : M ByteBuffer.t A) : Prop :=
  ∀ b, Forall is_byte (ByteBuffer.bytes b) → Forall is_byte (ByteBuffer.bytes (run m b)).

(** The entry of a message after the listener has recorded the events
    [events] of that message, in that order, in a new entry. *)
Definition entry_of (events : list (Header.HeaderData * list Z)) : MessageListener.FragmentEntry :=
  foldl (λ entry ev, MessageListener.record_fragment ev.1 ev.2 entry)
    MessageListener.new_entry events.

(** The events of the message of identifier [guid] cut into [fragments]:
    what [emit] sends, in the order it sends them. *)
Definition message_of (guid : list Z) (fragments : list (list Z))
    : list (Header.HeaderData * list Z) :=
  MessageEmitter.emit_loop guid (Z.of_nat (length fragments)) 0 fragments.

(** An event of that message, whatever its place. *)
Definition of_message (guid : list Z) (fragments : list (list Z))
    (ev : Header.HeaderData * list Z) : Prop :=
  ev.1 = Header.create guid (Header.index ev.1)
           (Header.index ev.1 =? Z.of_nat (length fragments) - 1) ∧
  0 ≤ Header.index ev.1 ∧
  fragments !! Z.to_nat (Header.index ev.1) = Some ev.2.

(** What a delivery makes of the entry of its message, [None] when there
    is none before and when it is deleted after, and the values the
    callback is invoked with: the listener looks at nothing else. *)
Definition outcome (des : Serializer.t) (header : Header.HeaderData) (fragment : list Z)
    (entry : option MessageListener.FragmentEntry)
    : option MessageListener.FragmentEntry * list Serializer.value :=
  let entry :=
    MessageListener.record_fragment header fragment (default MessageListener.new_entry entry) in
  if MessageListener.complete entry then
    match MessageListener.copy_fragments (Z.to_nat (MessageListener.size entry)) 0 entry [] with
    | Throw _ => (Some entry, [])
    | Normal fragmentsCopy =>
      match Serializer.deserialize des (PacketEncoder.decode fragmentsCopy) with
      | (Normal value, _) => (None, [value])
      | (Throw _, _) => (None, [])
      end
    end
  else (Some entry, []).

(** The invariant of an endpoint manager: the array of every endpoint is
    one of the arrays made so far and is not empty, and no two endpoints
    share an array. *)
Definition wf_manager {L} (m : EndpointManager.t L) : Prop :=
  (∀ endpoint listeners, EndpointManager.endpoints m !! endpoint = Some listeners →
     ∃ array, EndpointManager.arrays m !! listeners = Some array ∧ array ≠ []) ∧
  (∀ endpoint endpoint' listeners,
     EndpointManager.endpoints m !! endpoint = Some listeners →
     EndpointManager.endpoints m !! endpoint' = Some listeners → endpoint = endpoint').

(** The invariant of a [MessageListener]: that of its endpoint manager,
    and every registered listener is one of the functions [listen] made. *)
Definition wf_listener (l : MessageListener.t) : Prop :=
  wf_manager (MessageListener.endpointManager l) ∧
  Forall (Forall (λ i, (i < length (MessageListener.closures l))%nat))
    (EndpointManager.arrays (MessageListener.endpointManager l)).



(** The [MessageListener] when its listener function [j] has recorded a
    fragment and its callback, if it is to be invoked, has not yet done
    anything. *)
Definition recorded_by (j : nat) (header : Header.HeaderData) (fragment : list Z)
    (l : MessageListener.t) : MessageListener.t :=
  match MessageListener.closures l !! j with
  | Some c =>
    {| MessageListener.endpointManager := MessageListener.endpointManager l;
       MessageListener.closures :=
         <[j := {| MessageListener.deserializer := MessageListener.deserializer c;
                   MessageListener.callback := MessageListener.callback c;
                   MessageListener.captured :=
                     run (MessageListener.listener (MessageListener.deserializer c)
                            header fragment)
                         (MessageListener.captured c) |}]> (MessageListener.closures l) |}
  | None => l
  end.


(** The script event [emit] sends for a fragment and its header, under the
    encoded endpoint [encodedEndpoint]. *)
Definition wire_event (encodedEndpoint : list Z) (ev : Header.HeaderData * list Z)
    : list Z * list Z :=
  (encodedEndpoint ++ str ":" ++
   HeaderCodec.encodeToHex
     (run (Serializer.serialize Header.HeaderSerializer (Header.to_value ev.1))
          (ByteBuffer.new 256)),
   ev.2).

(** A script event as the listener receives it from [system.sendScriptEvent]. *)
Definition received_event (sent : list Z * list Z) : MessageListener.ScriptEvent :=
  {| MessageListener.sourceType := MessageListener.Server;
     MessageListener.id := sent.1;
     MessageListener.message := sent.2 |}.

(** What a serializer reads back after it has written [v] to a buffer
    that had nothing left to read. *)
Definition reads_back (s : Serializer.t) (v r : Serializer.value) : Prop :=
  ∀ b, wf b → ByteBuffer.readPos b = ByteBuffer.writePos b →
    result (Serializer.serialize s v;; Serializer.deserialize s) b = Normal r.

(** The integer of [w] bits, unsigned and signed, that has the low [w]
    bits of [v]. *)
Definition wrap_unsigned (w v : Z) : Z := v mod 2 ^ w.
Definition wrap_signed (w v : Z) : Z := (v + 2 ^ (w - 1)) mod 2 ^ w - 2 ^ (w - 1).

(** ** The 32-bit operators of JavaScript on the values the code meets *)

Section BitFacts.

Lemma ToInt32_small z : - 2 ^ 31 ≤ z < 2 ^ 31 → ToInt32 z = z.
Proof. intros H. unfold ToInt32. rewrite Z.mod_small; lia. Qed.

Lemma ToUint32_small z : 0 ≤ z < 2 ^ 32 → ToUint32 z = z.
Proof. intros H. unfold ToUint32. by rewrite Z.mod_small. Qed.

Lemma land_255 z : Z.land z 255 = z mod 256.
Proof. change 255 with (Z.ones 8). by rewrite Z.land_ones. Qed.

(** A property of bytes checked on each of them. *)
Lemma byte_cases (P : Z → bool) :
  forallb P (seqZ 0 256) = true → ∀ x, is_byte x → P x = true.
Proof.
  intros H x Hx. rewrite forallb_forall in H. apply H.
  apply list_elem_of_In, elem_of_seqZ. unfold is_byte in Hx. lia.
Qed.

Lemma ToInt32_eq_mod z : ∃ q, ToInt32 z = z + 2 ^ 32 * q.
Proof.
  exists (- ((z + 2 ^ 31) / 2 ^ 32)). unfold ToInt32.
  pose proof (Z.div_mod (z + 2 ^ 31) (2 ^ 32)). lia.
Qed.

Lemma ToInt32_mod z k : 0 ≤ k ≤ 32 → ToInt32 z mod 2 ^ k = z mod 2 ^ k.
Proof.
  intros Hk. destruct (ToInt32_eq_mod z) as [q ->].
  replace (2 ^ 32) with (2 ^ (32 - k) * 2 ^ k) by (rewrite <- Z.pow_add_r; [f_equal|..]; lia).
  replace (z + 2 ^ (32 - k) * 2 ^ k * q) with (z + (2 ^ (32 - k) * q) * 2 ^ k) by lia.
  apply Z_mod_plus_full.
Qed.

Lemma ToInt32_cong x y : x mod 2 ^ 32 = y mod 2 ^ 32 → ToInt32 x = ToInt32 y.
Proof.
  intros E. unfold ToInt32. f_equal.
  rewrite <- (Zplus_mod_idemp_l x), <- (Zplus_mod_idemp_l y). by rewrite E.
Qed.

Lemma ToInt32_idem z : ToInt32 (ToInt32 z) = ToInt32 z.
Proof. apply ToInt32_cong, ToInt32_mod. lia. Qed.

Lemma ToUint32_ToInt32 z : ToUint32 (ToInt32 z) = z mod 2 ^ 32.
Proof. apply ToInt32_mod. lia. Qed.

Lemma mod_pow2_lor a b n :
  0 ≤ n → Z.lor a b mod 2 ^ n = Z.lor (a mod 2 ^ n) (b mod 2 ^ n).
Proof.
  intros Hn. apply Z.bits_inj'. intros k Hk. rewrite Z.lor_spec.
  destruct (Z.lt_ge_cases k n).
  - by rewrite !Z.mod_pow2_bits_low, Z.lor_spec by lia.
  - by rewrite !Z.mod_pow2_bits_high by lia.
Qed.

Lemma mod_pow2_lxor a b n :
  0 ≤ n → Z.lxor a b mod 2 ^ n = Z.lxor (a mod 2 ^ n) (b mod 2 ^ n).
Proof.
  intros Hn. apply Z.bits_inj'. intros k Hk. rewrite Z.lxor_spec.
  destruct (Z.lt_ge_cases k n).
  - by rewrite !Z.mod_pow2_bits_low, Z.lxor_spec by lia.
  - by rewrite !Z.mod_pow2_bits_high by lia.
Qed.

Lemma js_or_eq a b : js_or a b = ToInt32 (Z.lor a b).
Proof.
  unfold js_or. apply ToInt32_cong.
  rewrite (mod_pow2_lor a b), mod_pow2_lor, !ToInt32_mod; lia.
Qed.

Lemma js_xor_eq a b : js_xor a b = ToInt32 (Z.lxor a b).
Proof.
  unfold js_xor. apply ToInt32_cong.
  rewrite (mod_pow2_lxor a b), mod_pow2_lxor, !ToInt32_mod; lia.
Qed.

Lemma lor_disjoint low high n :
  0 ≤ n → 0 ≤ low < 2 ^ n → Z.lor low (high * 2 ^ n) = low + high * 2 ^ n.
Proof.
  intros Hn H.
  rewrite <- Z.lxor_lor, <- Z.add_nocarry_lxor; [lia| |].
  all: apply Z.bits_inj'; intros k Hk; rewrite Z.land_spec, Z.bits_0.
  all: destruct (Z.lt_ge_cases k n).
  all: try (rewrite Z.mul_pow2_bits_low by lia; apply andb_false_r).
  all: destruct (Z.eq_dec low 0) as [->|]; [by rewrite Z.bits_0|].
  all: rewrite (Z.bits_above_log2 low k); [done|lia|].
  all: apply Z.log2_lt_pow2; [lia|].
  all: apply Z.lt_le_trans with (2 ^ n); [lia|apply Z.pow_le_mono_r; lia].
Qed.

Lemma js_shr_0 z : js_shr z 0 = z mod 2 ^ 32.
Proof. unfold js_shr. change (ToUint32 0 mod 32) with 0. by rewrite Z.shiftr_0_r. Qed.

Lemma js_shr_small z n :
  0 ≤ z < 2 ^ 32 → 0 ≤ n < 32 → js_shr z n = z / 2 ^ n.
Proof.
  intros Hz Hn. unfold js_shr. rewrite (ToUint32_small z), (ToUint32_small n) by lia.
  rewrite Z.mod_small by lia. by rewrite Z.shiftr_div_pow2 by lia.
Qed.

Lemma js_shl_small z n :
  - 2 ^ 31 ≤ z < 2 ^ 31 → 0 ≤ n < 32 → js_shl z n = ToInt32 (z * 2 ^ n).
Proof.
  intros Hz Hn. unfold js_shl. rewrite (ToInt32_small z), (ToUint32_small n) by lia.
  rewrite Z.mod_small by lia. by rewrite Z.shiftl_mul_pow2 by lia.
Qed.

Lemma js_and_low z k :
  0 ≤ k < 31 → js_and z (2 ^ k - 1) = z mod 2 ^ k.
Proof.
  intros Hk. unfold js_and.
  assert (0 < 2 ^ k ≤ 2 ^ 30).
  { split; [apply Z.pow_pos_nonneg; lia|apply Z.pow_le_mono_r; lia]. }
  rewrite (ToInt32_small (2 ^ k - 1)) by lia.
  replace (2 ^ k - 1) with (Z.ones k) by (rewrite Z.ones_equiv; lia).
  rewrite Z.land_ones, ToInt32_mod by lia.
  pose proof (Z.mod_pos_bound z (2 ^ k)). apply ToInt32_small. lia.
Qed.

End BitFacts.


(** ** The monad *)

Section MonadFacts.
Context {S : Type}.

Lemma bind_normal {A B} (m : M S A) (k : A → M S B) s a s' :
  m s = (Normal a, s') → (m ≫= k) s = k a s'.
Proof. intros H. unfold mbind, M_bind. by rewrite H. Qed.

Lemma bind_throw {A B} (m : M S A) (k : A → M S B) s e s' :
  m s = (Throw e, s') → (m ≫= k) s = (Throw e, s').
Proof. intros H. unfold mbind, M_bind. by rewrite H. Qed.

Lemma fmap_normal {A B} (f : A → B) (m : M S A) s a s' :
  m s = (Normal a, s') → (f <$> m) s = (Normal (f a), s').
Proof. intros H. unfold fmap, M_fmap. by rewrite (bind_normal _ _ _ _ _ H). Qed.

Lemma fmap_throw {A B} (f : A → B) (m : M S A) s e s' :
  m s = (Throw e, s') → (f <$> m) s = (Throw e, s').
Proof. intros H. unfold fmap, M_fmap. by rewrite (bind_throw _ _ _ _ _ H). Qed.
End MonadFacts.

(** ** ByteBuffer *)

Section ByteBufferFacts.
Import ByteBuffer.

Lemma wf_new n : wf (new n).
Proof. unfold wf, capacity, new; simpl. lia. Qed.

Lemma toUint8Array_take b : toUint8Array b = take (Z.to_nat (writePos b)) (bytes b).
Proof. unfold toUint8Array, slice. simpl. by rewrite Nat.sub_0_r, drop_0. Qed.

Lemma length_toUint8Array b : wf b → Z.of_nat (length (toUint8Array b)) = writePos b.
Proof.
  intros (?&?&?). rewrite toUint8Array_take, length_take. unfold capacity in *. lia.
Qed.

Lemma allocate_eq size b :
  allocate size b =
  (Normal (writePos b),
   {| bytes :=
        if writePos b + size >? capacity b then
          bytes b ++ replicate (Z.to_nat (Z.max (capacity b * 2) (writePos b + size) - capacity b)) 0
        else bytes b;
      writePos := writePos b + size;
      readPos := readPos b |}).
Proof.
  unfold allocate, ensureCapacity, mbind, M_bind, gets, modify, mret, M_ret; simpl.
  by destruct (writePos b + size >? capacity b).
Qed.

Lemma advance_eq size b :
  advance size b =
  if size >? available b then (Throw (BufferUnderflow size (available b)), b)
  else (Normal (readPos b), set_readPos (readPos b + size) b).
Proof.
  unfold advance, mbind, M_bind, gets, modify, throw, mret, M_ret; simpl.
  by destruct (size >? available b).
Qed.

Lemma writes_ret : writes (mret ()) [].
Proof. intros b Hb. exists b. by rewrite app_nil_r. Qed.

Lemma writes_bind m1 m2 bs1 bs2 :
  writes m1 bs1 → writes m2 bs2 → writes (m1;; m2) (bs1 ++ bs2).
Proof.
  intros H1 H2 b Hb.
  destruct (H1 b Hb) as (b1 & E1 & Hb1 & W1 & R1).
  destruct (H2 b1 Hb1) as (b2 & E2 & Hb2 & W2 & R2).
  exists b2. rewrite (bind_normal _ _ _ _ _ E1). split; [done|]. split; [done|].
  split; [|congruence]. by rewrite W2, W1, app_assoc.
Qed.

(** [store_all] inside the allocated room. *)
Lemma store_all_eq data : ∀ offset b,
  0 ≤ offset → offset + Z.of_nat (length data) ≤ capacity b →
  store_all offset data b =
  (Normal (),
   set_bytes (take (Z.to_nat offset) (bytes b) ++ data
              ++ drop (Z.to_nat offset + length data) (bytes b)) b).
Proof.
  induction data as [|x data IH]; intros offset b Ho Hc; simpl.
  - rewrite Nat.add_0_r, take_drop. by destruct b.
  - erewrite bind_normal by reflexivity.
    unfold capacity in *. simpl in Hc.
    rewrite IH; unfold capacity, set_bytes; simpl; [|lia|rewrite length_insert; lia].
    f_equal. f_equal.
    assert (Hlt : (Z.to_nat offset < length (bytes b))%nat) by lia.
    rewrite Z2Nat.inj_add by lia.
    change (Z.to_nat 1) with 1%nat.
    rewrite Nat.add_1_r, (take_S_r _ _ x), <- app_assoc; simpl.
    2:{ by apply list_lookup_insert_eq. }
    rewrite take_insert_ge by lia.
    rewrite drop_insert_lt by lia.
    by rewrite Nat.add_succ_r.
Qed.

Lemma allocate_spec size b :
  ∃ zeros,
    allocate size b =
    (Normal (writePos b),
     {| bytes := bytes b ++ zeros; writePos := writePos b + size; readPos := readPos b |})
    ∧ writePos b + size ≤ Z.of_nat (length (bytes b ++ zeros)).
Proof.
  rewrite allocate_eq. unfold capacity.
  destruct (Z.gtb_spec (writePos b + size) (Z.of_nat (length (bytes b)))).
  - eexists. split; [done|]. rewrite length_app. rewrite length_replicate. lia.
  - exists []. rewrite app_nil_r. split; [done|lia].
Qed.

(** [allocate] followed by a [store_all] of as many bytes appends them. *)
Lemma writes_allocate_store (n : Z) (k : Z → M t unit) data :
  n = Z.of_nat (length data) →
  (∀ offset b, 0 ≤ offset → offset + n ≤ capacity b → k offset b = store_all offset data b) →
  writes (allocate n ≫= k) data.
Proof.
  intros -> Hk b (Hr & Hrw & Hw).
  destruct (allocate_spec (Z.of_nat (length data)) b) as (zeros & E & Hcap).
  rewrite (bind_normal _ _ _ _ _ E).
  set (b1 := {| bytes := _ |}) in *.
  unfold capacity in *.
  rewrite Hk, store_all_eq by (unfold capacity; simpl; lia).
  eexists. split; [done|].
  unfold wf, capacity, set_bytes in *; simpl.
  rewrite !toUint8Array_take; simpl.
  assert (Hpre : take (Z.to_nat (writePos b)) (bytes b ++ zeros)
                 = take (Z.to_nat (writePos b)) (bytes b)).
  { rewrite take_app_le; [done|]. lia. }
  assert (Hlen : length (take (Z.to_nat (writePos b)) (bytes b ++ zeros))
                 = Z.to_nat (writePos b)).
  { rewrite length_take. lia. }
  split_and!; try lia.
  - rewrite !length_app, length_drop. rewrite length_app in Hcap. lia.
  - rewrite app_assoc. rewrite take_app_le by (rewrite length_app; lia).
    rewrite take_ge by (rewrite length_app; lia). by rewrite Hpre.
Qed.

Lemma js_and_255 value : js_and value 0xFF = Z.land value 255.
Proof. rewrite land_255. apply (js_and_low value 8). lia. Qed.

Lemma writes_writeByte value : writes (writeByte value) [Z.land value 255].
Proof. rewrite <- js_and_255. by apply writes_allocate_store. Qed.

Lemma writes_ext m m' bs : (∀ b, m b = m' b) → writes m bs → writes m' bs.
Proof. intros E H b Hb. rewrite <- E. by apply H. Qed.

Lemma set_readPos_wf b n :
  wf b → 0 ≤ n → readPos b + n ≤ writePos b → wf (set_readPos (readPos b + n) b).
Proof. unfold wf, capacity; simpl. lia. Qed.

Lemma set_readPos_add b n m :
  set_readPos (readPos (set_readPos n b) + m) (set_readPos n b) = set_readPos (n + m) b.
Proof. done. Qed.

Lemma set_readPos_id b : set_readPos (readPos b + 0) b = b.
Proof. destruct b. unfold set_readPos; simpl. f_equal. lia. Qed.

(** The unread bytes, as the hypothesis of [reads] has them. *)
Lemma unread_length b bs rest :
  wf b → drop (Z.to_nat (readPos b)) (toUint8Array b) = bs ++ rest →
  readPos b + Z.of_nat (length bs) ≤ writePos b.
Proof.
  intros Hb E. pose proof (length_toUint8Array b Hb) as Hl.
  apply (f_equal length) in E. rewrite length_drop, length_app in E.
  destruct Hb as (?&?&?). lia.
Qed.

Lemma unread_slice b bs rest :
  wf b → drop (Z.to_nat (readPos b)) (toUint8Array b) = bs ++ rest →
  slice (readPos b) (readPos b + Z.of_nat (length bs)) (bytes b) = bs.
Proof.
  intros Hb E. pose proof (unread_length _ _ _ Hb E) as Hl.
  destruct Hb as (?&?&?).
  unfold slice.
  replace (Z.to_nat (readPos b + Z.of_nat (length bs)) - Z.to_nat (readPos b))%nat
    with (length bs) by lia.
  rewrite toUint8Array_take in E.
  apply (f_equal (take (length bs))) in E.
  rewrite take_app_length in E. etrans; [|exact E].
  rewrite !take_drop_commute, take_take. do 2 f_equal. lia.
Qed.

Lemma unread_rest b bs rest :
  wf b → drop (Z.to_nat (readPos b)) (toUint8Array b) = bs ++ rest →
  drop (Z.to_nat (readPos b + Z.of_nat (length bs))) (toUint8Array b) = rest.
Proof.
  intros Hb E. destruct Hb as (?&?&?).
  rewrite Z2Nat.inj_add, Nat2Z.id, <- drop_drop, E by lia.
  by rewrite drop_app_length.
Qed.

Lemma reads_ret {A} (a : A) : reads (mret a) [] a.
Proof. intros b rest Hb E. simpl. by rewrite set_readPos_id. Qed.

Lemma reads_bind {A B} (m : M t A) (k : A → M t B) bs1 bs2 a c :
  reads m bs1 a → reads (k a) bs2 c → reads (m ≫= k) (bs1 ++ bs2) c.
Proof.
  intros H1 H2 b rest Hb E. rewrite <- app_assoc in E.
  pose proof (unread_length _ _ _ Hb E) as Hl.
  rewrite (bind_normal _ _ _ _ _ (H1 b _ Hb E)).
  erewrite H2.
  - rewrite set_readPos_add, length_app. do 2 f_equal. lia.
  - apply set_readPos_wf; [done|lia|done].
  - change (toUint8Array (set_readPos ?n b)) with (toUint8Array b).
    simpl. by apply unread_rest.
Qed.

Lemma reads_fmap {A B} (f : A → B) (m : M t A) bs a :
  reads m bs a → reads (f <$> m) bs (f a).
Proof. intros H b rest Hb E. by apply fmap_normal, H with rest. Qed.

Lemma reads_ext {A} (m m' : M t A) bs a :
  (∀ b, m b = m' b) → reads m bs a → reads m' bs a.
Proof. intros E H b rest Hb Hd. rewrite <- E. by apply H with rest. Qed.

(** [advance] followed by a look at the bytes it has passed. *)
Lemma reads_advance {A} (n : Z) (k : Z → M t A) (f : list Z → A) bs :
  n = Z.of_nat (length bs) →
  (∀ offset b, 0 ≤ offset → offset + n ≤ capacity b →
     k offset b = (Normal (f (slice offset (offset + n) (bytes b))), b)) →
  reads (advance n ≫= k) bs (f bs).
Proof.
  intros -> Hk b rest Hb E.
  pose proof (unread_length _ _ _ Hb E) as Hl.
  pose proof (unread_slice _ _ _ Hb E) as Hs.
  destruct Hb as (?&?&?).
  erewrite bind_normal; last first.
  { rewrite advance_eq. unfold available.
    destruct (Z.gtb_spec (Z.of_nat (length bs)) (writePos b - readPos b)); [lia|done]. }
  rewrite Hk by (unfold capacity in *; simpl; lia).
  simpl. by rewrite Hs.
Qed.

Lemma reads_readByte x : reads readByte [x] x.
Proof.
  refine (reads_advance 1 load (λ l, default 0 (l !! 0%nat)) [x] eq_refl _).
  intros offset b Ho Hc. unfold load, gets. do 2 f_equal.
  unfold slice. rewrite lookup_take_lt by lia. rewrite lookup_drop. do 2 f_equal. lia.
Qed.

(** C8 -- [advance(n)] throws the underflow error exactly when [n] is
    more than the bytes available, [writePosition - readPosition]; the
    throw leaves the buffer, so the read cursor, as it was and returns no
    data; otherwise [advance] returns the read offset it found and moves
    the read cursor forward by exactly [n], touching nothing else. *)
Theorem advance_underflow_exactly (b : t) (n : Z) :
  (result (advance n) b = Throw (BufferUnderflow n (writePosition b - readPosition b))
     ↔ n > writePosition b - readPosition b) ∧
  (n > available b →
     advance n b = (Throw (BufferUnderflow n (available b)), b)) ∧
  (n ≤ available b →
     result (advance n) b = Normal (readPosition b) ∧
     readPosition (run (advance n) b) = readPosition b + n ∧
     writePosition (run (advance n) b) = writePosition b ∧
     bytes (run (advance n) b) = bytes b).
Proof.
  unfold result, run, writePosition, readPosition. rewrite advance_eq. unfold available.
  destruct (Z.gtb_spec n (writePos b - readPos b)); simpl.
  - split; [split; [lia|done]|]. split; [done|lia].
  - split; [split; [done|lia]|]. split; [lia|done].
Qed.

(** Three bytes asked of a buffer that holds two, then two. *)
Lemma advance_underflow_exactly_witness :
  advance 3 (ByteBuffer.from [1; 2])
    = (Throw (BufferUnderflow 3 2), ByteBuffer.from [1; 2]) ∧
  result (advance 2) (ByteBuffer.from [1; 2]) = Normal 0 ∧
  readPosition (run (advance 2) (ByteBuffer.from [1; 2])) = 2.
Proof.
  destruct (advance_underflow_exactly (ByteBuffer.from [1; 2]) 3) as (_ & H3 & _).
  destruct (advance_underflow_exactly (ByteBuffer.from [1; 2]) 2) as (_ & _ & H2).
  split; [apply H3; reflexivity|].
  destruct H2 as (E1 & E2 & _); [discriminate|]. by split.
Defined.

End ByteBufferFacts.

(** ** PacketEncoder *)

Section PacketEncoderFacts.
Import ByteBuffer PacketEncoder.

Lemma charCode_of_bytes low high :
  is_byte low → is_byte high → charCode_of low high = low + 256 * high.
Proof.
  unfold is_byte, charCode_of, js_or, js_shl. intros Hl Hh.
  rewrite (ToInt32_small high), (ToInt32_small low) by lia.
  change (ToUint32 8 mod 32) with 8.
  assert (Z.shiftl high 8 = 256 * high) as E by (rewrite Z.shiftl_mul_pow2; lia).
  rewrite !(ToInt32_small (Z.shiftl high 8)) by lia.
  rewrite E. replace (256 * high) with (high * 2 ^ 8) by lia.
  rewrite lor_disjoint by lia. apply ToInt32_small. lia.
Qed.

Lemma hex_unit_all c : is_byte c → hex_unit_ok c = true.
Proof. apply byte_cases. by vm_compute. Qed.

Lemma list_pair_ind {A} (P : list A → Prop) :
  P [] → (∀ x, P [x]) → (∀ x y l, P l → P (x :: y :: l)) → ∀ l, P l.
Proof.
  intros H0 H1 H2 l. cut (P l ∧ ∀ x, P (x :: l)); [by intros []|].
  induction l as [|a l [IH1 IH2]]; split; auto.
Qed.

Lemma byte_pairs_bytes bytes : Forall is_byte bytes → Forall byte_pair (byte_pairs bytes).
Proof.
  induction bytes as [|x|x y l IH] using list_pair_ind; intros H; simpl.
  - constructor.
  - inversion_clear H. constructor; [|constructor]. split; [done|]. unfold is_byte; simpl. lia.
  - inversion_clear H as [|?? Hx H']. inversion_clear H' as [|?? Hy H''].
    constructor; [done|auto].
Qed.

Lemma units_bytes_pairs bytes :
  units_bytes (byte_pairs bytes) = bytes ++ (if Nat.odd (length bytes) then [0] else []).
Proof.
  induction bytes as [|x|x y l IH] using list_pair_ind; [done..|].
  change (byte_pairs (x :: y :: l)) with ((x, y) :: byte_pairs l).
  change (units_bytes ((x, y) :: byte_pairs l)) with (x :: y :: units_bytes (byte_pairs l)).
  rewrite IH. by change (Nat.odd (length (x :: y :: l))) with (Nat.odd (length l)).
Qed.

Lemma encode_loop_foldl maxSize bytes : ∀ st,
  encode_loop maxSize bytes st
  = foldl (λ st p, encode_step maxSize p.1 p.2 st) st (byte_pairs bytes).
Proof.
  induction bytes as [|x|x y l IH] using list_pair_ind; intros st; [done..|].
  simpl. by rewrite IH.
Qed.

(** *** One unit, in both directions *)

Lemma unit_text_cases p :
  byte_pair p →
  (p.2 = 0 ∧ ∃ h1 h2, unit_text p = [h1; h2] ∧ h1 ≤ 0xFF ∧ h2 ≤ 0xFF ∧
                js_and (nan_as_zero (parseInt16 [h1; h2])) 0xFF = p.1 ∧
                js_sar (nan_as_zero (parseInt16 [h1; h2])) 8 = 0) ∨
  (0 < p.2 ∧ unit_text p = [p.1 + 256 * p.2]).
Proof.
  destruct p as [low high]. intros [Hl Hh]; simpl in *.
  unfold unit_text; simpl. rewrite charCode_of_bytes by done.
  unfold is_byte in *.
  destruct (Z.eq_dec high 0) as [->|Hne]; [left|right].
  - split; [done|]. replace (low + 256 * 0) with low by lia.
    destruct (Z.gtb_spec low 255); [lia|].
    pose proof (hex_unit_all low Hl) as Hok. unfold hex_unit_ok in Hok.
    destruct (toUpperCase _) as [|h1 [|h2 [|]]]; try done.
    apply andb_prop in Hok as [Hok H4]. apply andb_prop in Hok as [Hok H3].
    apply andb_prop in Hok as [H1 H2].
    exists h1, h2. split_and!; [done|lia..].
  - split; [lia|].
    destruct (Z.gtb_spec (low + 256 * high) 255); [|lia].
    unfold String_fromCharCode. rewrite Z.mod_small; [done|lia].
Qed.

Lemma unit_charSize p :
  byte_pair p →
  charSize_of (charCode_of p.1 p.2) = if decide (p.2 = 0) then 2 else charSize_of (p.1 + 256 * p.2).
Proof.
  intros [Hl Hh]. rewrite charCode_of_bytes by done. unfold is_byte in *.
  case_decide as E; [|done]. rewrite E. unfold charSize_of.
  destruct (Z.gtb_spec (p.1 + 256 * 0) 255); [lia|done].
Qed.

Lemma fragment_cost_unit p s :
  byte_pair p →
  fragment_cost (unit_text p ++ s) = charSize_of (charCode_of p.1 p.2) + fragment_cost s.
Proof.
  intros Hp. rewrite unit_charSize by done.
  destruct (unit_text_cases p Hp) as [(E & h1 & h2 & -> & H1 & H2 & _)|(Hpos & ->)].
  - rewrite decide_True by done. simpl.
    destruct (Z.leb_spec h1 255); [done|lia].
  - rewrite decide_False by lia. destruct Hp as [Hl Hh]. unfold is_byte in *. simpl.
    destruct (Z.leb_spec (p.1 + 256 * p.2) 255); [lia|done].
Qed.

Lemma fragment_cost_units ps :
  Forall byte_pair ps → fragment_cost (units_text ps) = units_cost ps.
Proof.
  induction 1 as [|p ps Hp _ IH]; [done|].
  unfold units_text in *; simpl. by rewrite fragment_cost_unit, IH.
Qed.

Lemma raw_char_bytes low high :
  is_byte low → is_byte high →
  Z.land (js_and (low + 256 * high) 0xFF) 255 = low ∧
  Z.land (js_sar (low + 256 * high) 8) 255 = high.
Proof.
  unfold is_byte, js_and, js_sar. intros Hl Hh.
  rewrite !(ToInt32_small (low + 256 * high)), (ToInt32_small 255) by lia.
  change (ToUint32 8 mod 32) with 8.
  rewrite Z.shiftr_div_pow2 by lia. rewrite !land_255.
  replace ((low + 256 * high) mod 256) with low
    by (apply Z.mod_unique_pos with high; lia).
  replace ((low + 256 * high) / 2 ^ 8) with high
    by (apply Z.div_unique_pos with low; lia).
  rewrite (ToInt32_small low) by lia. rewrite !Z.mod_small; lia.
Qed.

Lemma decode_unit p s bs :
  byte_pair p →
  writes (decode_fragment s) bs →
  writes (decode_fragment (unit_text p ++ s)) ([p.1; p.2] ++ bs).
Proof.
  intros Hp Hs.
  destruct (unit_text_cases p Hp) as [(E & h1 & h2 & -> & H1 & H2 & Ha & Hb)|(Hpos & ->)].
  - simpl. destruct (Z.leb_spec h1 255); [|lia].
    apply (writes_bind _ _ [p.1; p.2] bs); [|done]. unfold decode_hex.
    apply (writes_bind _ _ [_] [_]).
    + rewrite Ha. destruct Hp as [Hl _]. unfold is_byte in Hl.
      replace p.1 with (Z.land p.1 255) at 2 by (rewrite land_255, Z.mod_small; lia).
      apply writes_writeByte.
    + rewrite Hb, E. apply writes_writeByte.
  - destruct Hp as [Hl Hh]. pose proof (raw_char_bytes _ _ Hl Hh) as [Ea Eb].
    unfold is_byte in *. simpl.
    destruct (Z.leb_spec (p.1 + 256 * p.2) 255); [lia|].
    apply (writes_bind _ _ [p.1; p.2] bs); [|done]. unfold decode_raw.
    apply (writes_bind _ _ [_] [_]).
    + rewrite <- Ea at 2. apply writes_writeByte.
    + rewrite <- Eb at 2. apply writes_writeByte.
Qed.

Lemma decode_units ps :
  Forall byte_pair ps → writes (decode_fragment (units_text ps)) (units_bytes ps).
Proof.
  induction 1 as [|p ps Hp _ IH]; [apply writes_ret|].
  by apply (decode_unit p _ _ Hp).
Qed.

Lemma decode_loop_units pss :
  Forall (Forall byte_pair) pss →
  writes (decode_loop (map units_text pss)) (units_bytes (concat pss)).
Proof.
  induction 1 as [|ps pss Hps _ IH]; [apply writes_ret|].
  simpl. unfold units_bytes. rewrite map_app, concat_app.
  apply writes_bind; [|done].
  case_bool_decide as E; [|by apply decode_units].
  pose proof (decode_units ps Hps) as Hw. by rewrite E in Hw.
Qed.

Lemma decode_units_bytes pss :
  Forall (Forall byte_pair) pss →
  toUint8Array (decode (map units_text pss)) = units_bytes (concat pss).
Proof.
  intros H. unfold decode. case_bool_decide as E.
  - destruct pss; [done|]. done.
  - destruct (decode_loop_units pss H (new 256) (wf_new _)) as (b' & Eb & _ & W & _).
    unfold run. rewrite (bind_normal _ _ _ _ _ Eb). simpl.
    change (toUint8Array (set_readPos 0 b')) with (toUint8Array b').
    by rewrite W.
Qed.

(** *** The loop of [encode] *)

Lemma units_text_app ps ps' : units_text (ps ++ ps') = units_text ps ++ units_text ps'.
Proof. unfold units_text. by rewrite map_app, concat_app. Qed.

Lemma units_cost_app ps ps' : units_cost (ps ++ ps') = units_cost ps + units_cost ps'.
Proof. induction ps as [|p ps IH]; simpl; [done|]. rewrite IH. lia. Qed.

Lemma units_text_nil ps : Forall byte_pair ps → units_text ps = [] → ps = [].
Proof.
  intros [|p ps' Hp _]; [done|]. unfold units_text; simpl.
  by destruct (unit_text_cases p Hp) as [(_ & h1 & h2 & -> & _)|(_ & ->)].
Qed.

Lemma units_text_single p : units_text [p] = unit_text p.
Proof. unfold units_text. simpl. by rewrite app_nil_r. Qed.

Lemma units_cost_single p : units_cost [p] = charSize_of (charCode_of p.1 p.2).
Proof. unfold units_cost. simpl. lia. Qed.

Lemma encode_step_units maxSize acc p :
  encode_step maxSize p.1 p.2 (encode_state_of acc)
  = encode_state_of (encode_units_step maxSize acc p).
Proof.
  destruct acc as [pss ps].
  unfold encode_step, encode_units_step, encode_state_of.
  cbn [fst snd fragments currentFragment currentSize].
  set (c := charCode_of p.1 p.2).
  assert (Ht : unit_text p = if c >? 255 then String_fromCharCode c
                             else toUpperCase (padStart 2 (str "0") (Number_toString c 16)))
    by done.
  assert (Hs : charSize_of c = if c >? 255 then charSize_of c else 2).
  { unfold charSize_of. by destruct (c >? 255). }
  destruct (units_cost ps + charSize_of c >? maxSize);
    cbn [fst snd fragments currentFragment currentSize].
  - rewrite map_app, units_text_single, units_cost_single, Ht. fold c.
    rewrite Hs at 2. destruct (c >? 255); f_equal.
  - rewrite units_text_app, units_cost_app, units_text_single, units_cost_single, Ht.
    fold c. rewrite Hs at 2. destruct (c >? 255); f_equal.
Qed.

Lemma encode_loop_units maxSize bytes acc :
  encode_loop maxSize bytes (encode_state_of acc)
  = encode_state_of (foldl (encode_units_step maxSize) acc (byte_pairs bytes)).
Proof.
  rewrite encode_loop_foldl. generalize (byte_pairs bytes). intros l.
  revert acc. induction l as [|p l IH]; intros acc; [done|].
  simpl. by rewrite encode_step_units, IH.
Qed.

Lemma encode_units_concat maxSize l : ∀ acc,
  let acc' := foldl (encode_units_step maxSize) acc l in
  concat acc'.1 ++ acc'.2 = concat acc.1 ++ acc.2 ++ l.
Proof.
  induction l as [|p l IH]; intros acc; simpl.
  - by rewrite app_nil_r.
  - rewrite IH. unfold encode_units_step. case_match; simpl.
    + rewrite concat_app. simpl. by rewrite app_nil_r, <- !app_assoc.
    + by rewrite <- !app_assoc.
Qed.

Lemma charSize_of_le c : charSize_of c ≤ 3.
Proof. unfold charSize_of. repeat case_match; lia. Qed.

Lemma encode_units_cost maxSize l : ∀ acc,
  3 ≤ maxSize →
  Forall (λ ps, units_cost ps ≤ maxSize ∧ ps ≠ []) acc.1 → units_cost acc.2 ≤ maxSize →
  let acc' := foldl (encode_units_step maxSize) acc l in
  Forall (λ ps, units_cost ps ≤ maxSize ∧ ps ≠ []) acc'.1 ∧ units_cost acc'.2 ≤ maxSize.
Proof.
  induction l as [|p l IH]; intros acc Hm H1 H2; simpl; [done|].
  pose proof (charSize_of_le (charCode_of p.1 p.2)) as Hc.
  apply IH; [done|..]; unfold encode_units_step.
  - destruct (Z.gtb_spec (units_cost acc.2 + charSize_of (charCode_of p.1 p.2)) maxSize);
      simpl; [|done].
    apply Forall_app. split; [done|]. constructor; [|done].
    split; [done|]. intros E. rewrite E in *. simpl in *. lia.
  - destruct (Z.gtb_spec (units_cost acc.2 + charSize_of (charCode_of p.1 p.2)) maxSize); simpl.
    + lia.
    + rewrite units_cost_app. simpl. lia.
Qed.

(** What [encode] returns, as lists of units. *)
Lemma encode_units buffer maxSize :
  Forall is_byte (toUint8Array buffer) →
  ∃ pss, encode buffer maxSize = map units_text pss
       ∧ concat pss = byte_pairs (toUint8Array buffer)
       ∧ (3 ≤ maxSize →
            Forall (λ ps, units_cost ps ≤ maxSize) pss ∧
            (pss = [[]] ∨ Forall (λ ps, ps ≠ []) pss)).
Proof.
  intros Hb. unfold encode.
  change {| fragments := []; currentFragment := []; currentSize := 0 |}
    with (encode_state_of ([], [])).
  rewrite encode_loop_units.
  pose proof (encode_units_concat maxSize (byte_pairs (toUint8Array buffer)) ([], [])) as Hc.
  pose proof (encode_units_cost maxSize (byte_pairs (toUint8Array buffer)) ([], [])) as Hk.
  destruct (foldl _ _ _) as [pss ps]. simpl in *.
  assert (Hps : Forall byte_pair ps).
  { pose proof (byte_pairs_bytes _ Hb) as H. rewrite <- Hc in H.
    by apply Forall_app in H as [_ H]. }
  destruct (decide (ps = [])) as [->|Hne].
  - rewrite app_nil_r in Hc.
    destruct pss as [|ps' pss].
    + exists [[]]. simpl. split; [done|]. split; [done|].
      intros Hm. split; [|by left]. repeat constructor. simpl. lia.
    + exists (ps' :: pss). simpl. split; [done|]. split; [done|].
      intros Hm. destruct Hk as [H1 _]; [done|constructor|simpl; lia|].
      split; [|right]; eapply Forall_impl; try exact H1; by intros ? [].
  - exists (pss ++ [ps]).
    rewrite bool_decide_true by (intros E; by apply units_text_nil in E).
    simpl. rewrite map_app, concat_app. simpl. rewrite app_nil_r.
    split; [done|]. split; [done|].
    intros Hm. destruct Hk as [H1 H2]; [done|constructor|simpl; lia|].
    split; [|right]; apply Forall_app; (split; [|by constructor]);
      eapply Forall_impl; try exact H1; by intros ? [].
Qed.

(** With a budget of 3 or more, no fragment is empty but the only one of
    an empty buffer. *)
Lemma encode_nonempty buffer maxSize :
  Forall is_byte (toUint8Array buffer) → 3 ≤ maxSize →
  encode buffer maxSize = [[]] ∨ Forall (λ fragment, fragment ≠ []) (encode buffer maxSize).
Proof.
  intros Hb Hm. destruct (encode_units buffer maxSize Hb) as (pss & -> & Hc & Hk).
  destruct (Hk Hm) as [_ [->|Hne]]; [by left|right].
  assert (Hp : Forall (Forall byte_pair) pss).
  { apply Forall_concat. rewrite Hc. by apply byte_pairs_bytes. }
  apply Forall_map. rewrite Forall_forall in *. intros ps Hin E.
  apply units_text_nil in E; [|auto]. by apply (Hne ps).
Qed.

(** C1, as the code has it -- decoding the fragments of a buffer gives its
    bytes back, followed by one 0 byte when their number is odd: [encode]
    pads the last byte with 0 and no fragment records that it did, so
    [decode] writes the padding out. The budget plays no part. *)
Theorem decode_encode_padded (buffer : ByteBuffer.t) (maxSize : Z) :
  Forall is_byte (toUint8Array buffer) →
  toUint8Array (decode (encode buffer maxSize))
  = toUint8Array buffer ++ (if Nat.odd (length (toUint8Array buffer)) then [0] else []).
Proof.
  intros Hb. destruct (encode_units buffer maxSize Hb) as (pss & -> & Hc & _).
  rewrite decode_units_bytes, Hc; [apply units_bytes_pairs|].
  apply Forall_concat. rewrite Hc. by apply byte_pairs_bytes.
Qed.

Lemma decode_encode_padded_witness :
  toUint8Array (decode (encode (ByteBuffer.from [1; 2; 3]) 2048)) = [1; 2; 3; 0].
Proof.
  apply (decode_encode_padded (ByteBuffer.from [1; 2; 3]) 2048).
  repeat constructor; unfold is_byte; lia.
Defined.

(** C1, as stated, fails on a buffer of one byte: the decoded buffer has
    two. *)
Lemma decode_encode_odd_counterexample :
  toUint8Array (decode (encode (ByteBuffer.from [7]) 2048))
  ≠ toUint8Array (ByteBuffer.from [7]).
Proof. vm_compute. discriminate. Qed.

(** C3, as the code has it -- with a budget of at least 3, the cost of the
    dearest unit, every fragment [encode] returns costs at most the
    budget. *)
Theorem encode_fragment_cost (buffer : ByteBuffer.t) (maxSize : Z) :
  Forall is_byte (toUint8Array buffer) →
  3 ≤ maxSize →
  Forall (λ fragment, fragment_cost fragment ≤ maxSize) (encode buffer maxSize).
Proof.
  intros Hb Hm. destruct (encode_units buffer maxSize Hb) as (pss & -> & Hc & Hk).
  destruct (Hk Hm) as [Hk' _]. clear Hk. rename Hk' into Hk.
  assert (Hp : Forall (Forall byte_pair) pss).
  { apply Forall_concat. rewrite Hc. by apply byte_pairs_bytes. }
  apply Forall_map. rewrite Forall_forall in *. intros ps Hin. simpl.
  rewrite fragment_cost_units; auto.
Qed.

Lemma encode_fragment_cost_witness :
  Forall (λ fragment, fragment_cost fragment ≤ 3)
    (encode (ByteBuffer.from [1; 2; 3; 0; 255; 255]) 3).
Proof.
  apply (encode_fragment_cost (ByteBuffer.from [1; 2; 3; 0; 255; 255]) 3); [|lia].
  repeat constructor; unfold is_byte; lia.
Defined.

(** C3, as stated, fails for a budget of 1: a unit costs at least 2 and
    cannot be split. *)
Lemma encode_fragment_cost_counterexample :
  ¬ Forall (λ fragment, fragment_cost fragment ≤ 1) (encode (ByteBuffer.from [0; 0]) 1).
Proof.
  change (encode (ByteBuffer.from [0; 0]) 1) with [[]; [48; 48]].
  intros H. inversion_clear H as [|?? _ H']. inversion_clear H' as [|?? H _].
  simpl in H. lia.
Qed.

(** C9 -- [encode] of an empty buffer is the one fragment [""], whatever
    the budget, and [decode] of [[""]] is an empty buffer. *)
Theorem encode_empty_decode_empty (buffer : ByteBuffer.t) (maxSize : Z) :
  (toUint8Array buffer = [] → encode buffer maxSize = [[]]) ∧
  encode (ByteBuffer.new 256) maxSize = [[]] ∧
  toUint8Array (decode [[]]) = [] ∧
  writePosition (decode [[]]) = 0 ∧ readPosition (decode [[]]) = 0.
Proof.
  split; [|done]. unfold encode. by intros ->.
Qed.

End PacketEncoderFacts.

(** ** MessageListener *)

Section MessageListenerFacts.
Import Header MessageListener.

Lemma listener_pending des h f st :
  complete (recorded st h f) = false →
  listener des h f st
  = (Normal (), {| fragmentBuffer := <[guid h := recorded st h f]> (fragmentBuffer st);
                   calls := calls st |}).
Proof. intros H. unfold listener. fold (recorded st h f). by rewrite H. Qed.

Lemma listener_missing des h f st i :
  complete (recorded st h f) = true →
  copy_fragments (Z.to_nat (size (recorded st h f))) 0 (recorded st h f) []
    = Throw (MissingFragment i) →
  listener des h f st
  = (Throw (MissingFragment i),
     {| fragmentBuffer := <[guid h := recorded st h f]> (fragmentBuffer st);
        calls := calls st |}).
Proof. intros H E. unfold listener. fold (recorded st h f). by rewrite H, E. Qed.

Lemma listener_dispatch des h f st fs v :
  complete (recorded st h f) = true →
  copy_fragments (Z.to_nat (size (recorded st h f))) 0 (recorded st h f) [] = Normal fs →
  result (Serializer.deserialize des) (PacketEncoder.decode fs) = Normal v →
  listener des h f st
  = (Normal (), {| fragmentBuffer := delete (guid h) (fragmentBuffer st);
                   calls := calls st ++ [v] |}).
Proof.
  intros H E D. unfold listener. fold (recorded st h f). rewrite H, E.
  unfold result in D. destruct (Serializer.deserialize _ _) as [[]]; simpl in *; [|done].
  simplify_eq. by rewrite delete_insert_eq.
Qed.

(** The callback is invoked at most once by a delivery, and only on the
    way through the completion test. *)
Lemma listener_calls des h f st :
  calls (run (listener des h f) st) = calls st ∨
  (complete (recorded st h f) = true ∧
   ∃ v, calls (run (listener des h f) st) = calls st ++ [v]).
Proof.
  unfold run, listener. fold (recorded st h f).
  destruct (complete _); [|by left].
  destruct (copy_fragments _ _ _ _); [|by left].
  destruct (Serializer.deserialize _ _) as [[v|] ?]; [right|by left].
  split; [done|]. by exists v.
Qed.

(** What the copy loop does: it throws at the first missing fragment. *)
Lemma copy_fragments_missing entry n : ∀ i acc k,
  i ≤ k < i + Z.of_nat n → falsy (fragments entry !! k) →
  ∃ j, i ≤ j ≤ k ∧ falsy (fragments entry !! j)
     ∧ (∀ j', i ≤ j' < j → ¬ falsy (fragments entry !! j'))
     ∧ copy_fragments n i entry acc = Throw (MissingFragment j).
Proof.
  induction n as [|n IH]; intros i acc k Hk Hf; [lia|].
  simpl. destruct (fragments entry !! i) as [[|c fr]|] eqn:E.
  - exists i. split; [lia|]. split; [by right|]. split; [|done]. intros; lia.
  - destruct (decide (k = i)) as [->|].
    { rewrite E in Hf. by destruct Hf. }
    destruct (IH (i + 1) (acc ++ [c :: fr]) k) as (j & Hj & Hfj & Hfirst & Hc); [lia|done|].
    exists j. split; [lia|]. split; [done|]. split; [|done].
    intros j' Hj'. destruct (decide (j' = i)) as [->|]; [|apply Hfirst; lia].
    rewrite E. by intros [|].
  - exists i. split; [lia|]. split; [by left|]. split; [|done]. intros; lia.
Qed.

(** C6 -- a delivery invokes the subscriber callback only if the
    completion predicate, [expectedCount != -1] and
    [count(receivedIndices) == expectedCount], holds for the entry of the
    guid once the fragment is recorded; and after fragments 0 and 1 of a
    message whose final flag is on fragment 2, delivered to a listener
    that has no entry for the guid, the callback has not been invoked. *)
Theorem no_dispatch_before_complete :
  (∀ des h f st,
     calls (run (listener des h f) st) ≠ calls st →
     size (recorded st h f) ≠ -1 ∧
     Z.of_nat (stdpp.base.size (received (recorded st h f))) = size (recorded st h f)) ∧
  (∀ des g f0 f1 st,
     fragmentBuffer st !! g = None →
     calls (deliver des [(create g 0 false, f0); (create g 1 false, f1)] st) = calls st).
Proof.
  split.
  - intros des h f st Hc.
    destruct (listener_calls des h f st) as [|[H _]]; [done|].
    unfold complete in H. apply andb_prop in H as [H1 H2].
    apply negb_true_iff in H1. lia.
  - intros des g f0 f1 st Hg. unfold deliver. simpl.
    unfold run at 2. rewrite listener_pending; last first.
    { unfold recorded. simpl. by rewrite Hg. }
    unfold run. rewrite listener_pending; [done|].
    unfold recorded. simpl. rewrite lookup_insert_eq. simpl. by rewrite Hg.
Qed.

Lemma no_dispatch_before_complete_witness :
  calls (deliver Serializer.UInt8Serializer
           [(create [7] 0 false, str "0102"); (create [7] 1 false, str "0304")] initial)
  = [].
Proof.
  apply (proj2 no_dispatch_before_complete Serializer.UInt8Serializer [7]
           (str "0102") (str "0304") initial).
  reflexivity.
Defined.

(** C5 -- the three fragments of a message (the fragments [encode] cut a
    payload into under a budget of 3 or more; the emitter's is 2048), with
    the final flag on index 2, delivered in the order 2, 0, 1 or in the
    order 0, 1, 2 to a listener that has no entry for the guid: in both
    orders the callback is not invoked by the first two deliveries, the
    third completes the message, and the callback is invoked once, with
    the value the fragments decode to; the two runs end in the same
    state, the entry deleted. *)
Theorem reassembly_out_of_order
    (des : Serializer.t) (payload : ByteBuffer.t) (maxSize : Z)
    (g f0 f1 f2 : list Z) (v : Serializer.value) (st : state) :
  Forall is_byte (ByteBuffer.toUint8Array payload) →
  3 ≤ maxSize →
  PacketEncoder.encode payload maxSize = [f0; f1; f2] →
  fragmentBuffer st !! g = None →
  result (Serializer.deserialize des) (PacketEncoder.decode [f0; f1; f2]) = Normal v →
  let e0 := (create g 0 false, f0) in
  let e1 := (create g 1 false, f1) in
  let e2 := (create g 2 true, f2) in
  deliver des [e2; e0; e1] st = deliver des [e0; e1; e2] st ∧
  deliver des [e0; e1; e2] st = {| fragmentBuffer := fragmentBuffer st; calls := calls st ++ [v] |} ∧
  calls (deliver des [e2; e0] st) = calls st ∧
  calls (deliver des [e0; e1] st) = calls st.
Proof.
  intros Hb Hm He Hg Hv.
  assert (f0 ≠ [] ∧ f1 ≠ [] ∧ f2 ≠ []) as (H0 & H1 & H2).
  { destruct (encode_nonempty payload maxSize Hb Hm) as [E|E]; rewrite He in E; [done|].
    inversion_clear E as [|?? ? E']. inversion_clear E' as [|?? ? E''].
    by inversion_clear E''. }
  destruct f0 as [|c0 f0]; [done|]. destruct f1 as [|c1 f1]; [done|].
  destruct f2 as [|c2 f2]; [done|].
  destruct st as [fb cs]. simpl in Hg.
  assert (Hpend : ∀ h f fb', complete (recorded {| fragmentBuffer := fb'; calls := cs |} h f) = false →
    run (listener des h f) {| fragmentBuffer := fb'; calls := cs |}
    = {| fragmentBuffer := <[guid h := recorded {| fragmentBuffer := fb'; calls := cs |} h f]> fb';
         calls := cs |}).
  { intros h f fb' H. unfold run. by rewrite listener_pending. }
  assert (Hdone : ∀ h f fb',
    complete (recorded {| fragmentBuffer := fb'; calls := cs |} h f) = true →
    copy_fragments (Z.to_nat (size (recorded {| fragmentBuffer := fb'; calls := cs |} h f))) 0
      (recorded {| fragmentBuffer := fb'; calls := cs |} h f) []
    = Normal [c0 :: f0; c1 :: f1; c2 :: f2] →
    run (listener des h f) {| fragmentBuffer := fb'; calls := cs |}
    = {| fragmentBuffer := delete (guid h) fb'; calls := cs ++ [v] |}).
  { intros h f fb' H E. unfold run. by erewrite listener_dispatch. }
  intros e0 e1 e2. unfold deliver, e0, e1, e2. simpl foldl. cbn [fst snd].
  assert (Hrec : ∀ h f e fb', guid h = g →
    recorded {| fragmentBuffer := <[g := e]> fb'; calls := cs |} h f = record_fragment h f e).
  { intros h f e fb' <-. unfold recorded. simpl. by rewrite lookup_insert_eq. }
  assert (Hnew : ∀ h f, guid h = g →
    recorded {| fragmentBuffer := fb; calls := cs |} h f = record_fragment h f new_entry).
  { intros h f <-. unfold recorded. simpl. by rewrite Hg. }
  rewrite (Hpend (create g 2 true) _ fb) by ((rewrite Hnew by done); by vm_compute).
  rewrite (Hpend (create g 0 false) _ fb) by ((rewrite Hnew by done); by vm_compute).
  rewrite !Hnew by done. cbn [guid create].
  rewrite (Hpend (create g 0 false) _
             (<[g := record_fragment (create g 2 true) (c2 :: f2) new_entry]> fb));
    [|(rewrite Hrec by done); by vm_compute].
  rewrite (Hpend (create g 1 false) _
             (<[g := record_fragment (create g 0 false) (c0 :: f0) new_entry]> fb));
    [|(rewrite Hrec by done); by vm_compute].
  rewrite !Hrec by done. cbn [guid create]. rewrite !insert_insert_eq.
  rewrite (Hdone (create g 1 false)), (Hdone (create g 2 true));
    rewrite ?Hrec by done; try by vm_compute.
  cbn [guid create calls fragmentBuffer].
  by rewrite !delete_insert_eq, (delete_id _ _ Hg).
Qed.

Lemma reassembly_out_of_order_witness :
  calls (deliver Serializer.UInt8Serializer
           [(create [7] 2 true, str "05"); (create [7] 0 false, str "0102");
            (create [7] 1 false, str "0304")] initial)
  = [Serializer.VNumber 1].
Proof.
  destruct (reassembly_out_of_order Serializer.UInt8Serializer
              (ByteBuffer.from [1; 0; 2; 0; 3; 0; 4; 0; 5; 0]) 4
              [7] (str "0102") (str "0304") (str "05") (Serializer.VNumber 1) initial)
    as (E1 & E2 & _).
  - repeat constructor; unfold is_byte; lia.
  - lia.
  - reflexivity.
  - reflexivity.
  - reflexivity.
  - rewrite E1, E2. reflexivity.
Defined.

Lemma listener_empty_final des g st :
  calls (run (listener des (create g 0 true) []) st) = calls st ∧
  (fragmentBuffer st !! g = None →
   result (listener des (create g 0 true) []) st = Throw (MissingFragment 0)).
Proof.
  set (h := create g 0 true).
  assert (Hcopy : copy_fragments (Z.to_nat (size (recorded st h []))) 0 (recorded st h []) []
                  = Throw (MissingFragment 0)).
  { unfold recorded, record_fragment. simpl. by rewrite lookup_insert_eq. }
  split.
  - destruct (complete (recorded st h [])) eqn:Hc.
    + unfold run. by rewrite (listener_missing des h [] st 0 Hc Hcopy).
    + unfold run. by rewrite listener_pending.
  - intros Hg.
    assert (Hc : complete (recorded st h []) = true).
    { unfold recorded. simpl. rewrite Hg. by vm_compute. }
    unfold result. by rewrite (listener_missing des h [] st 0 Hc Hcopy).
Qed.

Lemma emit_empty_payload g s v :
  result (Serializer.serialize s v) (ByteBuffer.new 256) = Normal () →
  ByteBuffer.toUint8Array (run (Serializer.serialize s v) (ByteBuffer.new 256)) = [] →
  MessageEmitter.emit g s v = Normal [(create g 0 true, [])].
Proof.
  unfold result, run, MessageEmitter.emit.
  destruct (Serializer.serialize s v (ByteBuffer.new 256)) as [[[]|] payload]; [|done].
  simpl. intros _ E. unfold PacketEncoder.encode. by rewrite E.
Qed.

(** C10, as the code has it -- when the completion predicate holds after a
    delivery and the fragment stored at an index [i] below the expected
    count is the empty string, the listener throws 'Missing fragment at
    index j' for the first index [j] whose fragment is missing or empty
    ([j] is [i] when no earlier one is) and does not invoke the callback.
    A payload of no byte is emitted as the one fragment [""] with the
    final flag on index 0, and the delivery of that fragment never invokes
    the callback: on a listener with no entry for the guid it throws
    'Missing fragment at index 0'. *)
Theorem empty_fragment_never_dispatched :
  (∀ des h f st i,
     complete (recorded st h f) = true →
     0 ≤ i < size (recorded st h f) →
     fragments (recorded st h f) !! i = Some [] →
     calls (run (listener des h f) st) = calls st ∧
     ∃ j, 0 ≤ j ≤ i ∧
          falsy (fragments (recorded st h f) !! j) ∧
          (∀ j', 0 ≤ j' < j → ¬ falsy (fragments (recorded st h f) !! j')) ∧
          result (listener des h f) st = Throw (MissingFragment j)) ∧
  (∀ des g s v st,
     result (Serializer.serialize s v) (ByteBuffer.new 256) = Normal () →
     ByteBuffer.toUint8Array (run (Serializer.serialize s v) (ByteBuffer.new 256)) = [] →
     MessageEmitter.emit g s v = Normal [(create g 0 true, [])] ∧
     calls (deliver des [(create g 0 true, [])] st) = calls st ∧
     (fragmentBuffer st !! g = None →
      result (listener des (create g 0 true) []) st = Throw (MissingFragment 0))) ∧
  (∀ g, MessageEmitter.emit g (Serializer.TupleSerializer (Some [])) (Serializer.VArray [])
        = Normal [(create g 0 true, [])]).
Proof.
  split; [|split].
  - intros des h f st i Hc Hi Hf.
    destruct (copy_fragments_missing (recorded st h f) (Z.to_nat (size (recorded st h f)))
                0 [] i) as (j & Hj & Hfj & Hfirst & E); [lia|by right|].
    unfold run, result. rewrite (listener_missing des h f st j Hc E). simpl.
    split; [done|]. by exists j.
  - intros des g s v st Hr Hw. split; [by apply emit_empty_payload|].
    apply listener_empty_final.
  - done.
Qed.

(** The empty tuple is written as no byte: its message is one empty
    fragment, which the listener refuses. *)
Lemma empty_fragment_never_dispatched_witness :
  MessageEmitter.emit [7] (Serializer.TupleSerializer (Some [])) (Serializer.VArray [])
    = Normal [(create [7] 0 true, [])] ∧
  calls (deliver (Serializer.TupleSerializer (Some [])) [(create [7] 0 true, [])] initial) = [] ∧
  result (listener (Serializer.TupleSerializer (Some [])) (create [7] 0 true) []) initial
    = Throw (MissingFragment 0).
Proof.
  destruct empty_fragment_never_dispatched as (_ & H & _).
  destruct (H (Serializer.TupleSerializer (Some [])) [7]
              (Serializer.TupleSerializer (Some [])) (Serializer.VArray []) initial)
    as (E1 & E2 & E3); [reflexivity|reflexivity|].
  split; [exact E1|]. split; [exact E2|]. apply E3. reflexivity.
Defined.

(** C10, as stated, names the index of the empty fragment in the error.
    The copy loop stops at the first fragment that is missing or empty:
    with the empty string at the indices 0 and 1 of a message of two
    fragments, the fragment of index 1 is empty and the error is 'Missing
    fragment at index 0'. *)
Lemma empty_fragment_index_counterexample :
  complete (recorded (deliver Serializer.UInt8Serializer [(create [7] 0 false, [])] initial)
              (create [7] 1 true) []) = true ∧
  fragments (recorded (deliver Serializer.UInt8Serializer [(create [7] 0 false, [])] initial)
               (create [7] 1 true) []) !! 1 = Some [] ∧
  result (listener Serializer.UInt8Serializer (create [7] 1 true) [])
    (deliver Serializer.UInt8Serializer [(create [7] 0 false, [])] initial)
  = Throw (MissingFragment 0) ∧
  result (listener Serializer.UInt8Serializer (create [7] 1 true) [])
    (deliver Serializer.UInt8Serializer [(create [7] 0 false, [])] initial)
  ≠ Throw (MissingFragment 1).
Proof.
  assert (E : result (listener Serializer.UInt8Serializer (create [7] 1 true) [])
                (deliver Serializer.UInt8Serializer [(create [7] 0 false, [])] initial)
              = Throw (MissingFragment 0)) by by vm_compute.
  split; [by vm_compute|]. split; [by vm_compute|]. split; [exact E|].
  rewrite E. discriminate.
Qed.

End MessageListenerFacts.

(** ** DataView and the fixed-width serializers *)

Section DataViewFacts.
Import ByteBuffer DataView.

Lemma length_be_bytes n v : length (be_bytes n v) = n.
Proof. induction n; simpl; auto. Qed.

Lemma be_value_app l x : be_value (l ++ [x]) = be_value l * 256 + x.
Proof. unfold be_value. by rewrite foldl_app. Qed.

Lemma be_value_cons x l : be_value (x :: l) = x * 256 ^ Z.of_nat (length l) + be_value l.
Proof.
  revert x. induction l as [|y l IH] using rev_ind; intros x.
  - unfold be_value. simpl. lia.
  - rewrite app_comm_cons, !be_value_app, IH, length_app. simpl.
    rewrite Nat2Z.inj_add, Z.pow_add_r by lia. simpl. lia.
Qed.

Lemma be_value_be_bytes n v : be_value (be_bytes n v) = v mod 2 ^ (8 * Z.of_nat n).
Proof.
  induction n as [|n IH].
  - simpl. by rewrite Z.mod_1_r.
  - cbn [be_bytes]. rewrite be_value_cons, IH, length_be_bytes.
    replace (8 * Z.of_nat (S n)) with (8 * Z.of_nat n + 8) by lia.
    rewrite Z.pow_add_r by lia. change (2 ^ 8) with 256.
    rewrite Z.rem_mul_r by lia.
    replace (256 ^ Z.of_nat n) with (2 ^ (8 * Z.of_nat n)); [lia|].
    rewrite Z.pow_mul_r by lia. done.
Qed.

Lemma signed_mod n v :
  (0 < n)%nat →
  - 2 ^ (8 * Z.of_nat n - 1) ≤ v < 2 ^ (8 * Z.of_nat n - 1) →
  signed n (v mod 2 ^ (8 * Z.of_nat n)) = v.
Proof.
  intros Hn Hv. unfold signed.
  assert (E : 2 ^ (8 * Z.of_nat n) = 2 * 2 ^ (8 * Z.of_nat n - 1)).
  { rewrite <- Z.pow_succ_r by lia. f_equal. lia. }
  assert (0 < 2 ^ (8 * Z.of_nat n - 1)) by (apply Z.pow_pos_nonneg; lia).
  rewrite E. set (h := 2 ^ (8 * Z.of_nat n - 1)) in *.
  destruct (Z.lt_ge_cases v 0).
  - replace (v mod (2 * h)) with (v + 2 * h)
      by (apply Z.mod_unique_pos with (-1); lia).
    destruct (Z.ltb_spec (v + 2 * h) h); lia.
  - rewrite Z.mod_small by lia. destruct (Z.ltb_spec v h); lia.
Qed.

Lemma check_ok offset n b :
  0 ≤ offset → offset + n ≤ capacity b → check offset n b = (Normal (), b).
Proof.
  intros H1 H2. unfold check. erewrite bind_normal by reflexivity.
  destruct (Z.ltb_spec offset 0); [lia|].
  destruct (Z.gtb_spec (offset + n) (capacity b)); [lia|done].
Qed.

Lemma writes_UInt_serialize n v : writes (Serializer.UInt_serialize n v) (be_bytes n v).
Proof.
  apply writes_allocate_store; [by rewrite length_be_bytes|].
  intros offset b H1 H2. unfold setUint. by erewrite bind_normal by by apply check_ok.
Qed.

Lemma writes_Int_serialize n v : writes (Serializer.Int_serialize n v) (be_bytes n v).
Proof. apply writes_UInt_serialize. Qed.

Lemma reads_UInt_deserialize n bs :
  length bs = n → reads (Serializer.UInt_deserialize n) bs (be_value bs).
Proof.
  intros <-. apply (reads_advance _ _ be_value); [done|].
  intros offset b H1 H2. unfold getUint. by erewrite bind_normal by by apply check_ok.
Qed.

Lemma reads_Int_deserialize n bs :
  length bs = n → reads (Serializer.Int_deserialize n) bs (signed n (be_value bs)).
Proof.
  intros <-. apply (reads_advance _ _ (λ l, signed (length bs) (be_value l))); [done|].
  intros offset b H1 H2. unfold getInt. apply fmap_normal.
  unfold getUint. by erewrite bind_normal by by apply check_ok.
Qed.

End DataViewFacts.

(** ** The variable-length integers *)

Section VarintFacts.
Import ByteBuffer Serializer.

Lemma leb128_eq fuel v :
  leb128 fuel v =
  if v <? 128 then [v]
  else match fuel with
       | O => []
       | S fuel' => (v mod 128 + 128) :: leb128 fuel' (v / 128)
       end.
Proof. by destruct fuel. Qed.

Lemma log2_ge_128 v : 128 ≤ v → 7 ≤ Z.log2 v.
Proof. intros H. change 7 with (Z.log2 128). by apply Z.log2_le_mono. Qed.

Lemma log2_div_128 v : 128 ≤ v → Z.log2 (v / 128) = Z.log2 v - 7.
Proof.
  intros H. pose proof (log2_ge_128 v H).
  change 128 with (2 ^ 7). rewrite <- Z.shiftr_div_pow2, Z.log2_shiftr by lia. lia.
Qed.

(** The fuel of the [while] loops is never used up: any fuel that reaches
    the highest bit gives the same loop. *)
Lemma leb128_fuel fuel fuel' v :
  Z.log2 v ≤ Z.of_nat fuel → Z.log2 v ≤ Z.of_nat fuel' → leb128 fuel v = leb128 fuel' v.
Proof.
  revert fuel' v. induction fuel as [|fuel IH]; intros fuel' v H H';
    destruct fuel' as [|fuel']; cbn [leb128].
  all: destruct (Z.ltb_spec v 128) as [|Hge]; [done|].
  all: pose proof (log2_ge_128 v Hge); try lia.
  f_equal. apply IH; rewrite log2_div_128; lia.
Qed.

Lemma VarUInt32_while_eq fuel v :
  VarUInt32_while fuel v =
  if v >=? 0x80 then
    match fuel with
    | O => mret ()
    | S fuel' =>
      writeByte (js_or (js_and v 0x7F) 0x80);; VarUInt32_while fuel' (js_shr v 7)
    end
  else writeByte v.
Proof. by destruct fuel. Qed.

Lemma div_128_bounds v k : 0 ≤ v < 2 ^ k → 0 ≤ v / 128 < 2 ^ k.
Proof.
  intros H. split; [apply Z.div_pos; lia|].
  apply Z.div_lt_upper_bound; lia.
Qed.

Lemma VarUInt32_while_fuel fuel fuel' v :
  0 ≤ v < 2 ^ 32 →
  Z.log2 v ≤ Z.of_nat fuel → Z.log2 v ≤ Z.of_nat fuel' →
  VarUInt32_while fuel v = VarUInt32_while fuel' v.
Proof.
  revert fuel' v. induction fuel as [|fuel IH]; intros fuel' v Hv H H';
    destruct fuel' as [|fuel']; cbn [VarUInt32_while].
  all: destruct (Z.geb_spec v 128) as [Hge|]; [|done].
  all: pose proof (log2_ge_128 v Hge); try lia.
  rewrite js_shr_small by lia. change (2 ^ 7) with 128.
  pose proof (div_128_bounds v 32 Hv).
  rewrite (IH fuel' (v / 128)); [done|done|rewrite log2_div_128; lia..].
Qed.

(** The [while] loop of [VarUInt32Serializer.serialize] as the source
    writes it: the fuel does not show. *)
Lemma VarUInt32_while_loop v :
  0 ≤ v < 2 ^ 32 →
  let loop v := VarUInt32_while (Z.to_nat (Z.log2 v)) v in
  loop v =
  if v >=? 0x80 then writeByte (js_or (js_and v 0x7F) 0x80);; loop (js_shr v 7)
  else writeByte v.
Proof.
  intros Hv loop. unfold loop. rewrite VarUInt32_while_eq.
  destruct (Z.geb_spec v 128) as [Hge|]; [|done].
  pose proof (log2_ge_128 v Hge).
  destruct (Z.to_nat (Z.log2 v)) as [|fuel] eqn:E; [lia|].
  rewrite js_shr_small by lia. change (2 ^ 7) with 128.
  pose proof (div_128_bounds v 32 Hv).
  rewrite (VarUInt32_while_fuel fuel (Z.to_nat (Z.log2 (v / 128))) (v / 128));
    [done|done|rewrite log2_div_128; lia|lia].
Qed.

Lemma byte_and_7F b : is_byte b → js_and b 0x7F = b mod 128.
Proof. intros _. apply (js_and_low b 7). lia. Qed.

Lemma byte_and_80 b : is_byte b → js_and b 0x80 = if b <? 128 then 0 else 128.
Proof.
  intros Hb.
  pose proof (byte_cases (λ b, js_and b 0x80 =? if b <? 128 then 0 else 128)
                ltac:(by vm_compute) b Hb) as H.
  simpl in H. by apply Z.eqb_eq in H.
Qed.

Lemma continuation_byte v : 0 ≤ v → is_byte (v mod 128 + 128).
Proof. intros. unfold is_byte. pose proof (Z.mod_pos_bound v 128). lia. Qed.

Lemma writes_byte b : is_byte b → writes (writeByte b) [b].
Proof.
  intros Hb. pose proof (writes_writeByte b) as H.
  rewrite land_255, Z.mod_small in H; [done|]. apply Hb.
Qed.

Lemma writes_VarUInt32_while fuel : ∀ v,
  0 ≤ v < 2 ^ 32 → Z.log2 v ≤ Z.of_nat fuel →
  writes (VarUInt32_while fuel v) (leb128 fuel v).
Proof.
  induction fuel as [|fuel IH]; intros v Hv Hl; cbn [VarUInt32_while leb128].
  all: destruct (Z.geb_spec v 128) as [Hge|]; destruct (Z.ltb_spec v 128); try lia.
  all: try (apply writes_byte; unfold is_byte; lia).
  all: pose proof (log2_ge_128 v Hge); try lia.
  apply (writes_bind _ _ [_]).
  - rewrite js_and_low with (k := 7) by lia.
    pose proof (Z.mod_pos_bound v 128).
    pose proof (lor_disjoint (v mod 128) 1 7 ltac:(lia) ltac:(lia)) as E.
    change (1 * 2 ^ 7) with 128 in E.
    change (2 ^ 7) with 128. rewrite js_or_eq, E, ToInt32_small by lia.
    apply writes_byte, continuation_byte. lia.
  - rewrite js_shr_small by lia. change (2 ^ 7) with 128.
    apply IH; [by apply div_128_bounds|rewrite log2_div_128; lia].
Qed.

Lemma writes_VarUInt32_serialize v :
  0 ≤ v < 2 ^ 32 → writes (VarUInt32_serialize v) (varuint_bytes v).
Proof.
  intros Hv. unfold VarUInt32_serialize, varuint_bytes.
  rewrite js_shr_0, Z.mod_small by done.
  apply writes_VarUInt32_while; [done|lia].
Qed.

(** The guard of [VarUInt32Serializer.deserialize] passes when a byte is
    left. *)
Lemma reads_guard {A} (m : M ByteBuffer.t A) e x bs a :
  reads m (x :: bs) a →
  reads (avail ← gets available; if avail <=? 0 then throw e else m) (x :: bs) a.
Proof.
  intros H b rest Hb Hd. pose proof (unread_length _ _ _ Hb Hd) as Hl.
  erewrite bind_normal by reflexivity.
  unfold available. simpl in Hl.
  destruct (Z.leb_spec (writePos b - readPos b) 0); [lia|]. by apply H with rest.
Qed.

Lemma js_or_ToInt32 a b : js_or (ToInt32 a) (ToInt32 b) = ToInt32 (Z.lor a b).
Proof. unfold js_or. rewrite !ToInt32_idem. apply js_or_eq. Qed.

Lemma pow2_7n n : 2 ^ (7 * Z.of_nat (S n)) = 128 * 2 ^ (7 * Z.of_nat n).
Proof.
  replace (7 * Z.of_nat (S n)) with (7 + 7 * Z.of_nat n) by lia.
  by rewrite Z.pow_add_r by lia.
Qed.

Lemma reads_VarUInt32_for n : ∀ fuel v i acc shift,
  (0 < n)%nat →
  0 ≤ v < 2 ^ (7 * Z.of_nat n) → Z.log2 v ≤ Z.of_nat fuel →
  0 ≤ shift → shift + 7 * Z.of_nat n ≤ 35 →
  0 ≤ acc < 2 ^ shift → acc + v * 2 ^ shift < 2 ^ 32 →
  reads (VarUInt32_for n i (ToInt32 acc) shift) (leb128 fuel v)
        (ToInt32 (acc + v * 2 ^ shift)).
Proof.
  induction n as [|n IH]; intros fuel v i acc shift Hn Hv Hl Hs Hs' Ha Hsum; [lia|].
  assert (Hp : 0 < 2 ^ shift) by (apply Z.pow_pos_nonneg; lia).
  rewrite leb128_eq. cbn [VarUInt32_for].
  destruct (Z.ltb_spec v 128) as [Hlt|Hge].
  - apply reads_guard. apply (reads_bind _ _ [v] [] v); [apply reads_readByte|].
    assert (Hb : is_byte v) by (unfold is_byte; lia).
    rewrite byte_and_80, byte_and_7F by done.
    destruct (Z.ltb_spec v 128); [|lia]. simpl.
    rewrite Z.mod_small, js_shl_small by lia.
    rewrite js_or_ToInt32, lor_disjoint by lia. apply reads_ret.
  - pose proof (log2_ge_128 v Hge). destruct fuel as [|fuel]; [lia|].
    pose proof (Z.mod_pos_bound v 128 ltac:(lia)) as Hm.
    pose proof (Z.div_mod v 128 ltac:(lia)) as Hdm.
    assert (Hb : is_byte (v mod 128 + 128)) by (apply continuation_byte; lia).
    rewrite pow2_7n in Hv.
    assert (Hv' : 0 ≤ v / 128 < 2 ^ (7 * Z.of_nat n)).
    { split; [apply Z.div_pos; lia|apply Z.div_lt_upper_bound; lia]. }
    destruct n as [|n]; [simpl in Hv'; lia|].
    apply reads_guard.
    apply (reads_bind _ _ [_] _ (v mod 128 + 128)); [apply reads_readByte|].
    rewrite byte_and_80, byte_and_7F by done.
    destruct (Z.ltb_spec (v mod 128 + 128) 128); [lia|]. simpl (128 =? 0).
    cbn iota.
    replace ((v mod 128 + 128) mod 128) with (v mod 128)
      by (rewrite <- Z.add_mod_idemp_r by lia; change (128 mod 128) with 0;
          by rewrite Z.add_0_r, Z.mod_mod by lia).
    rewrite js_shl_small by lia. rewrite js_or_ToInt32, lor_disjoint by lia.
    replace (acc + v * 2 ^ shift)
      with (acc + v mod 128 * 2 ^ shift + v / 128 * 2 ^ (shift + 7))
      by (rewrite Z.pow_add_r by lia; change (2 ^ 7) with 128; nia).
    apply IH; try lia.
    + rewrite log2_div_128; lia.
    + rewrite Z.pow_add_r by lia. change (2 ^ 7) with 128. nia.
    + rewrite Z.pow_add_r by lia; change (2 ^ 7) with 128; nia.
Qed.

Lemma reads_VarUInt32_deserialize v :
  0 ≤ v < 2 ^ 32 → reads VarUInt32_deserialize (varuint_bytes v) v.
Proof.
  intros Hv. unfold VarUInt32_deserialize, varuint_bytes.
  rewrite <- (app_nil_r (leb128 _ _)).
  eapply reads_bind.
  - change 0 with (ToInt32 0) at 2.
    apply (reads_VarUInt32_for 5 _ v 0 0 0); simpl; lia.
  - rewrite js_shr_0, ToInt32_mod by lia.
    replace (0 + v * 2 ^ 0) with v by lia. rewrite Z.mod_small by done.
    apply reads_ret.
Qed.

(** *** Zigzag *)

Lemma zigzag_range v w : 0 ≤ w → - 2 ^ w ≤ v < 2 ^ w → 0 ≤ zigzag v < 2 ^ (w + 1).
Proof.
  intros Hw Hv. rewrite Z.pow_add_r by lia. change (2 ^ 1) with 2.
  unfold zigzag. destruct (Z.ltb_spec v 0); lia.
Qed.

Lemma shiftr_sign v w : 0 ≤ w → - 2 ^ w ≤ v < 2 ^ w → Z.shiftr v w = if v <? 0 then -1 else 0.
Proof.
  intros Hw Hv. rewrite Z.shiftr_div_pow2 by lia.
  assert (0 < 2 ^ w) by (apply Z.pow_pos_nonneg; lia).
  destruct (Z.ltb_spec v 0).
  - symmetry. apply Z.div_unique_pos with (v + 2 ^ w); lia.
  - apply Z.div_small. lia.
Qed.

Lemma lxor_sign x v : Z.lxor x (if v <? 0 then -1 else 0) = if v <? 0 then - x - 1 else x.
Proof.
  destruct (v <? 0).
  - rewrite Z.lxor_m1_r. unfold Z.lnot. lia.
  - apply Z.lxor_0_r.
Qed.

Lemma land_1 z : Z.land z 1 = z mod 2.
Proof. change 1 with (Z.ones 1). by rewrite Z.land_ones. Qed.

Lemma zigzag_half v :
  Z.lxor (zigzag v / 2) (- (zigzag v mod 2)) = v.
Proof.
  unfold zigzag. destruct (Z.ltb_spec v 0).
  - replace ((- 2 * v - 1) / 2) with (- v - 1) by (apply Z.div_unique_pos with 1; lia).
    replace ((- 2 * v - 1) mod 2) with 1 by (apply Z.mod_unique_pos with (- v - 1); lia).
    rewrite Z.lxor_m1_r. unfold Z.lnot. lia.
  - replace (2 * v / 2) with v by (apply Z.div_unique_pos with 0; lia).
    replace (2 * v mod 2) with 0 by (apply Z.mod_unique_pos with v; lia).
    apply Z.lxor_0_r.
Qed.

Lemma VarInt32_zigzag v :
  - 2 ^ 31 ≤ v < 2 ^ 31 →
  js_shr (js_xor (js_shl v 1) (js_sar v 31)) 0 = zigzag v.
Proof.
  intros Hv. pose proof (zigzag_range v 31 ltac:(lia) Hv) as Hz.
  rewrite js_shr_0, js_xor_eq, ToInt32_mod, js_shl_small by lia.
  unfold js_sar. rewrite (ToInt32_small v) by done.
  change (ToUint32 31 mod 32) with 31. rewrite shiftr_sign, lxor_sign by lia.
  destruct (ToInt32_eq_mod (v * 2 ^ 1)) as [q ->]. change (2 ^ 1) with 2.
  unfold zigzag in *. destruct (Z.ltb_spec v 0).
  - symmetry. apply Z.mod_unique_pos with (- q); lia.
  - symmetry. apply Z.mod_unique_pos with q; lia.
Qed.

Lemma VarInt32_unzigzag v :
  - 2 ^ 31 ≤ v < 2 ^ 31 →
  js_xor (js_shr (zigzag v) 1) (- js_and (zigzag v) 1) = v.
Proof.
  intros Hv. pose proof (zigzag_range v 31 ltac:(lia) Hv) as Hz.
  rewrite js_xor_eq, js_shr_small by lia.
  pose proof (js_and_low (zigzag v) 1 ltac:(lia)) as E.
  change (2 ^ 1 - 1) with 1 in E. rewrite E. change (2 ^ 1) with 2.
  rewrite zigzag_half. by apply ToInt32_small.
Qed.

Lemma writes_VarInt32_serialize v :
  - 2 ^ 31 ≤ v < 2 ^ 31 →
  writes (VarInt32_serialize v) (varuint_bytes (zigzag v)).
Proof.
  intros Hv. pose proof (zigzag_range v 31 ltac:(lia) Hv) as Hz.
  unfold VarInt32_serialize, VarUInt32_serialize.
  rewrite VarInt32_zigzag by done. apply writes_VarUInt32_while; [done|lia].
Qed.

Lemma reads_VarInt32_deserialize v :
  - 2 ^ 31 ≤ v < 2 ^ 31 →
  reads VarInt32_deserialize (varuint_bytes (zigzag v)) v.
Proof.
  intros Hv. pose proof (zigzag_range v 31 ltac:(lia) Hv) as Hz.
  unfold VarInt32_deserialize. rewrite <- (app_nil_r (varuint_bytes _)).
  eapply reads_bind; [by apply reads_VarUInt32_deserialize|].
  rewrite VarInt32_unzigzag by done. apply reads_ret.
Qed.

(** *** The 64-bit pair *)

Lemma land_7F z : Z.land z 0x7F = z mod 128.
Proof. change 0x7F with (Z.ones 7). by rewrite Z.land_ones. Qed.

Lemma land_80 b : is_byte b → Z.land b 0x80 = if b <? 128 then 0 else 128.
Proof.
  intros Hb.
  pose proof (byte_cases (λ b, Z.land b 0x80 =? if b <? 128 then 0 else 128)
                ltac:(by vm_compute) b Hb) as H.
  simpl in H. by apply Z.eqb_eq in H.
Qed.

Lemma writes_VarUInt64_while fuel : ∀ v,
  0 ≤ v → Z.log2 v ≤ Z.of_nat fuel →
  writes (VarUInt64_while fuel v) (leb128 fuel v).
Proof.
  induction fuel as [|fuel IH]; intros v Hv Hl; cbn [VarUInt64_while leb128].
  all: destruct (Z.geb_spec v 128) as [Hge|]; destruct (Z.ltb_spec v 128); try lia.
  all: try (apply writes_byte; unfold is_byte; lia).
  all: pose proof (log2_ge_128 v Hge); try lia.
  apply (writes_bind _ _ [_]).
  - rewrite land_7F. pose proof (Z.mod_pos_bound v 128).
    pose proof (lor_disjoint (v mod 128) 1 7 ltac:(lia) ltac:(lia)) as E.
    change (1 * 2 ^ 7) with 128 in E. rewrite E.
    apply writes_byte, continuation_byte. lia.
  - rewrite Z.shiftr_div_pow2 by lia. change (2 ^ 7) with 128.
    apply IH; [apply Z.div_pos; lia|rewrite log2_div_128; lia].
Qed.

Lemma writes_VarUInt64_serialize v :
  0 ≤ v < 2 ^ 64 → writes (VarUInt64_serialize v) (varuint_bytes v).
Proof.
  intros Hv. unfold VarUInt64_serialize, varuint_bytes. rewrite Z.mod_small by done.
  apply writes_VarUInt64_while; lia.
Qed.

Lemma reads_VarUInt64_for n : ∀ fuel v acc shift,
  (0 < n)%nat →
  0 ≤ v < 2 ^ (7 * Z.of_nat n) → Z.log2 v ≤ Z.of_nat fuel →
  0 ≤ shift → 0 ≤ acc < 2 ^ shift →
  reads (VarUInt64_for n acc shift) (leb128 fuel v) (acc + v * 2 ^ shift).
Proof.
  induction n as [|n IH]; intros fuel v acc shift Hn Hv Hl Hs Ha; [lia|].
  assert (Hp : 0 < 2 ^ shift) by (apply Z.pow_pos_nonneg; lia).
  rewrite leb128_eq. cbn [VarUInt64_for].
  destruct (Z.ltb_spec v 128) as [Hlt|Hge].
  - apply (reads_bind _ _ [v] [] v); [apply reads_readByte|].
    assert (Hb : is_byte v) by (unfold is_byte; lia).
    rewrite land_80, land_7F by done.
    destruct (Z.ltb_spec v 128); [|lia]. simpl.
    rewrite Z.mod_small, Z.shiftl_mul_pow2, lor_disjoint by lia. apply reads_ret.
  - pose proof (log2_ge_128 v Hge). destruct fuel as [|fuel]; [lia|].
    pose proof (Z.mod_pos_bound v 128 ltac:(lia)) as Hm.
    pose proof (Z.div_mod v 128 ltac:(lia)) as Hdm.
    assert (Hb : is_byte (v mod 128 + 128)) by (apply continuation_byte; lia).
    rewrite pow2_7n in Hv.
    assert (Hv' : 0 ≤ v / 128 < 2 ^ (7 * Z.of_nat n)).
    { split; [apply Z.div_pos; lia|apply Z.div_lt_upper_bound; lia]. }
    destruct n as [|n]; [simpl in Hv'; lia|].
    apply (reads_bind _ _ [_] _ (v mod 128 + 128)); [apply reads_readByte|].
    rewrite land_80, land_7F by done.
    destruct (Z.ltb_spec (v mod 128 + 128) 128); [lia|]. simpl (128 =? 0).
    cbn iota.
    replace ((v mod 128 + 128) mod 128) with (v mod 128)
      by (rewrite <- Z.add_mod_idemp_r by lia; change (128 mod 128) with 0;
          by rewrite Z.add_0_r, Z.mod_mod by lia).
    rewrite Z.shiftl_mul_pow2, lor_disjoint by lia.
    replace (acc + v * 2 ^ shift)
      with (acc + v mod 128 * 2 ^ shift + v / 128 * 2 ^ (shift + 7))
      by (rewrite Z.pow_add_r by lia; change (2 ^ 7) with 128; nia).
    apply IH; try lia.
    + rewrite log2_div_128; lia.
    + rewrite Z.pow_add_r by lia. change (2 ^ 7) with 128. nia.
Qed.

Lemma reads_VarUInt64_deserialize v :
  0 ≤ v < 2 ^ 64 → reads VarUInt64_deserialize (varuint_bytes v) v.
Proof.
  intros Hv. unfold VarUInt64_deserialize, varuint_bytes.
  rewrite <- (app_nil_r (leb128 _ _)).
  eapply reads_bind.
  - apply (reads_VarUInt64_for 10 _ v 0 0); simpl; lia.
  - replace (0 + v * 2 ^ 0) with v by lia. rewrite Z.mod_small by done.
    apply reads_ret.
Qed.

Lemma VarInt64_zigzag v :
  - 2 ^ 63 ≤ v < 2 ^ 63 → Z.lxor (Z.shiftl v 1) (Z.shiftr v 63) = zigzag v.
Proof.
  intros Hv. rewrite shiftr_sign, lxor_sign, Z.shiftl_mul_pow2 by lia.
  unfold zigzag. destruct (v <? 0); lia.
Qed.

Lemma writes_VarInt64_serialize v :
  - 2 ^ 63 ≤ v < 2 ^ 63 →
  writes (VarInt64_serialize v) (varuint_bytes (zigzag v)).
Proof.
  intros Hv. unfold VarInt64_serialize. rewrite VarInt64_zigzag by done.
  apply writes_VarUInt64_serialize. by apply (zigzag_range v 63).
Qed.

Lemma reads_VarInt64_deserialize v :
  - 2 ^ 63 ≤ v < 2 ^ 63 →
  reads VarInt64_deserialize (varuint_bytes (zigzag v)) v.
Proof.
  intros Hv. pose proof (zigzag_range v 63 ltac:(lia) Hv) as Hz.
  unfold VarInt64_deserialize. rewrite <- (app_nil_r (varuint_bytes _)).
  eapply reads_bind; [by apply reads_VarUInt64_deserialize|].
  rewrite Z.shiftr_div_pow2, land_1 by lia. change (2 ^ 1) with 2.
  rewrite zigzag_half. apply reads_ret.
Qed.

(** C7 -- the unsigned variable-length serializer writes 127 as the one
    byte 127 and 128 as the two bytes 128, 1; the signed one writes -1 as
    the one byte 1, which is what the unsigned one writes for 1. Each
    holds whatever the buffer already contains, and so on a new one. *)
Theorem varint_boundaries :
  writes (serialize VarUInt32Serializer (VNumber 127)) [127] ∧
  writes (serialize VarUInt32Serializer (VNumber 128)) [128; 1] ∧
  writes (serialize VarInt32Serializer (VNumber (-1))) [1] ∧
  writes (serialize VarUInt32Serializer (VNumber 1)) [1] ∧
  toUint8Array (run (serialize VarUInt32Serializer (VNumber 127)) (ByteBuffer.new 256)) = [127] ∧
  toUint8Array (run (serialize VarUInt32Serializer (VNumber 128)) (ByteBuffer.new 256)) = [128; 1] ∧
  toUint8Array (run (serialize VarInt32Serializer (VNumber (-1))) (ByteBuffer.new 256))
  = toUint8Array (run (serialize VarUInt32Serializer (VNumber 1)) (ByteBuffer.new 256)).
Proof.
  split_and!; try done.
  - apply (writes_VarUInt32_serialize 127). lia.
  - apply (writes_VarUInt32_serialize 128). lia.
  - apply (writes_VarInt32_serialize (-1)). lia.
  - apply (writes_VarUInt32_serialize 1). lia.
Qed.

End VarintFacts.

(** ** The floating-point formats *)

Section FormatFacts.
Import DataView.
Variables mw ew : Z.
Hypothesis Hmw : 0 < mw.
Hypothesis Hew : 1 < ew.

Lemma digits2_pos_bounds m :
  2 ^ (Z.pos (digits2_pos m) - 1) ≤ Z.pos m < 2 ^ Z.pos (digits2_pos m).
Proof.
  induction m as [m IH|m IH|]; simpl digits2_pos.
  - rewrite Pos2Z.inj_succ, Z.pow_succ_r by lia.
    replace (Z.succ (Z.pos (digits2_pos m)) - 1) with (Z.succ (Z.pos (digits2_pos m) - 1)) by lia.
    rewrite Z.pow_succ_r by lia. lia.
  - rewrite Pos2Z.inj_succ, Z.pow_succ_r by lia.
    replace (Z.succ (Z.pos (digits2_pos m)) - 1) with (Z.succ (Z.pos (digits2_pos m) - 1)) by lia.
    rewrite Z.pow_succ_r by lia. lia.
  - simpl. lia.
Qed.

(** The three fields of a bit pattern. *)
Lemma fields_of_bits (s : bool) (e m : Z) :
  0 ≤ e < 2 ^ ew → 0 ≤ m < 2 ^ mw →
  let bits := sign_bit mw ew s + e * 2 ^ mw + m in
  Z.odd (bits / 2 ^ (mw + ew)) = s ∧
  (bits / 2 ^ mw) mod 2 ^ ew = e ∧
  bits mod 2 ^ mw = m ∧
  0 ≤ bits < 2 ^ (mw + ew + 1).
Proof.
  intros He Hm bits.
  assert (Hpm : 0 < 2 ^ mw) by (apply Z.pow_pos_nonneg; lia).
  assert (Hpe : 0 < 2 ^ ew) by (apply Z.pow_pos_nonneg; lia).
  assert (Hadd : 2 ^ (mw + ew) = 2 ^ mw * 2 ^ ew) by (apply Z.pow_add_r; lia).
  assert (Hsucc : 2 ^ (mw + ew + 1) = 2 * (2 ^ mw * 2 ^ ew)).
  { rewrite Z.pow_add_r, Hadd by lia. change (2 ^ 1) with 2. lia. }
  set (b := if s then 1 else 0).
  assert (Hb : sign_bit mw ew s = b * (2 ^ mw * 2 ^ ew)).
  { unfold sign_bit, b. rewrite Hadd. destruct s; lia. }
  assert (Hb01 : 0 ≤ b ≤ 1) by (unfold b; destruct s; lia).
  unfold bits. rewrite Hb, Hadd, Hsucc.
  assert (E1 : (b * (2 ^ mw * 2 ^ ew) + e * 2 ^ mw + m) / (2 ^ mw * 2 ^ ew) = b).
  { symmetry. apply Z.div_unique_pos with (e * 2 ^ mw + m); nia. }
  assert (E2 : (b * (2 ^ mw * 2 ^ ew) + e * 2 ^ mw + m) / 2 ^ mw = b * 2 ^ ew + e).
  { symmetry. apply Z.div_unique_pos with m; nia. }
  rewrite E1, E2. split_and!.
  - unfold b. by destruct s.
  - symmetry. apply Z.mod_unique_pos with b; lia.
  - symmetry. apply Z.mod_unique_pos with (b * 2 ^ ew + e); nia.
  - nia.
  - nia.
Qed.

Lemma of_bits_fields (s : bool) (e m : Z) :
  0 ≤ e < 2 ^ ew → 0 ≤ m < 2 ^ mw →
  of_bits mw ew (sign_bit mw ew s + e * 2 ^ mw + m) =
  if e =? 0 then
    match m with
    | Z.pos p => S754_finite s p (emin (mw + 1) (2 ^ (ew - 1)))
    | _ => S754_zero s
    end
  else if e =? 2 ^ ew - 1 then (if m =? 0 then S754_infinity s else S754_nan)
  else
    match m + 2 ^ mw with
    | Z.pos p => S754_finite s p (e - 1 + emin (mw + 1) (2 ^ (ew - 1)))
    | _ => S754_nan
    end.
Proof.
  intros He Hm. destruct (fields_of_bits s e m He Hm) as (H1 & H2 & H3 & _).
  unfold of_bits. by rewrite H1, H2, H3.
Qed.

(** A valid value of the format is read back from its bit pattern, which
    fits the width of the format. *)
Lemma of_bits_bits_of f :
  is_valid mw ew f = true →
  of_bits mw ew (bits_of mw ew f) = f ∧ 0 ≤ bits_of mw ew f < 2 ^ (mw + ew + 1).
Proof.
  assert (Hpm : 0 < 2 ^ mw) by (apply Z.pow_pos_nonneg; lia).
  assert (Hpm1 : 2 * 2 ^ (mw - 1) = 2 ^ mw).
  { rewrite <- Z.pow_succ_r by lia. f_equal. lia. }
  assert (Hpm1' : 0 < 2 ^ (mw - 1)) by (apply Z.pow_pos_nonneg; lia).
  assert (Hpe1 : 2 * 2 ^ (ew - 1) = 2 ^ ew).
  { rewrite <- Z.pow_succ_r by lia. f_equal. lia. }
  assert (Hpe1' : 2 ≤ 2 ^ (ew - 1)).
  { change 2 with (2 ^ 1) at 1. apply Z.pow_le_mono_r; lia. }
  intros Hv. destruct f as [s|s| |s m e]; unfold bits_of.
  - replace (sign_bit mw ew s) with (sign_bit mw ew s + 0 * 2 ^ mw + 0) by lia.
    split; [by rewrite of_bits_fields by lia|apply fields_of_bits; lia].
  - replace (sign_bit mw ew s + (2 ^ ew - 1) * 2 ^ mw)
      with (sign_bit mw ew s + (2 ^ ew - 1) * 2 ^ mw + 0) by lia.
    split; [|apply fields_of_bits; lia].
    rewrite of_bits_fields by lia.
    destruct (Z.eqb_spec (2 ^ ew - 1) 0); [lia|]. by rewrite Z.eqb_refl.
  - replace ((2 ^ ew - 1) * 2 ^ mw + 2 ^ (mw - 1))
      with (sign_bit mw ew false + (2 ^ ew - 1) * 2 ^ mw + 2 ^ (mw - 1)) by (simpl; lia).
    split; [|apply fields_of_bits; lia].
    rewrite of_bits_fields by lia.
    destruct (Z.eqb_spec (2 ^ ew - 1) 0); [lia|]. rewrite Z.eqb_refl.
    destruct (Z.eqb_spec (2 ^ (mw - 1)) 0); [lia|done].
  - unfold is_valid, valid_binary, bounded, canonical_mantissa, fexp in Hv.
    apply andb_prop in Hv as [Hc He]. apply Z.eqb_eq in Hc. apply Z.leb_le in He.
    pose proof (digits2_pos_bounds m) as [Hd1 Hd2].
    set (d := Z.pos (digits2_pos m)) in *.
    set (emin' := emin (mw + 1) (2 ^ (ew - 1))) in *.
    assert (Hemin : emin' = 3 - 2 ^ (ew - 1) - (mw + 1)) by done.
    destruct (Z.ltb_spec (Z.pos m) (2 ^ mw)) as [Hlt|Hge].
    + assert (d ≤ mw).
      { destruct (Z.le_gt_cases d mw) as [|Hgt]; [done|].
        assert (2 ^ mw ≤ 2 ^ (d - 1)) by (apply Z.pow_le_mono_r; lia). lia. }
      assert (e = emin') by lia. subst e.
      replace (sign_bit mw ew s + Z.pos m) with (sign_bit mw ew s + 0 * 2 ^ mw + Z.pos m) by lia.
      split; [by rewrite of_bits_fields by lia|apply fields_of_bits; lia].
    + assert (d = mw + 1).
      { destruct (Z.le_gt_cases d (mw + 1)) as [|Hgt]; [|lia].
        destruct (Z.le_gt_cases (mw + 1) d) as [|Hgt]; [lia|].
        assert (2 ^ d ≤ 2 ^ mw) by (apply Z.pow_le_mono_r; lia). lia. }
      assert (Z.pos m < 2 * 2 ^ mw).
      { rewrite <- Z.pow_succ_r by lia. replace (Z.succ mw) with d by lia. done. }
      split; [|apply fields_of_bits; lia].
      rewrite of_bits_fields by lia.
      destruct (Z.eqb_spec (e - emin' + 1) 0); [lia|].
      destruct (Z.eqb_spec (e - emin' + 1) (2 ^ ew - 1)); [lia|].
      replace (Z.pos m - 2 ^ mw + 2 ^ mw) with (Z.pos m) by lia.
      f_equal. lia.
Qed.

End FormatFacts.

Section FloatFacts.
Import ByteBuffer DataView Serializer.

Lemma writes_Float64_serialize f :
  writes (Float64_serialize f) (be_bytes 8 (bits_of 52 11 f)).
Proof. apply (writes_UInt_serialize 8). Qed.

Lemma reads_Float64_deserialize f :
  is_valid 52 11 f = true →
  reads Float64_deserialize (be_bytes 8 (bits_of 52 11 f)) f.
Proof.
  intros Hv. destruct (of_bits_bits_of 52 11 ltac:(lia) ltac:(lia) f Hv) as [E Hr].
  pose proof (reads_advance 8 getFloat64 (λ l, of_bits 52 11 (be_value l))
                (be_bytes 8 (bits_of 52 11 f)) eq_refl) as H.
  cbv beta in H. rewrite be_value_be_bytes, Z.mod_small, E in H by (simpl in *; lia).
  apply H. intros offset b H1 H2. unfold getFloat64. apply fmap_normal.
  unfold getUint. by erewrite bind_normal by by apply check_ok.
Qed.

Lemma writes_Float32_serialize f :
  writes (Float32_serialize f) (be_bytes 4 (bits_of 23 8 (round_to 23 8 f))).
Proof. apply (writes_UInt_serialize 4). Qed.

Lemma reads_Float32_deserialize f :
  is_valid 23 8 (round_to 23 8 f) = true →
  round_to 52 11 (round_to 23 8 f) = f →
  reads Float32_deserialize (be_bytes 4 (bits_of 23 8 (round_to 23 8 f))) f.
Proof.
  intros Hv Hf.
  destruct (of_bits_bits_of 23 8 ltac:(lia) ltac:(lia) _ Hv) as [E Hr].
  pose proof (reads_advance 4 getFloat32 (λ l, round_to 52 11 (of_bits 23 8 (be_value l)))
                (be_bytes 4 (bits_of 23 8 (round_to 23 8 f))) eq_refl) as H.
  cbv beta in H. rewrite be_value_be_bytes, Z.mod_small, E, Hf in H by (simpl in *; lia).
  apply H. intros offset b H1 H2. unfold getFloat32.
  apply (fmap_normal (λ bits, round_to 52 11 (of_bits 23 8 bits))).
  unfold getUint. by erewrite bind_normal by by apply check_ok.
Qed.

End FloatFacts.

(** ** The serializers *)

Section SerializerFacts.
Import ByteBuffer Serializer.

Lemma serialize_Object schema v :
  serialize (ObjectSerializer (Some schema)) v = serialize_fields v schema.
Proof. reflexivity. Qed.

Lemma deserialize_Object schema :
  deserialize (ObjectSerializer (Some schema)) = VObject <$> deserialize_fields schema [].
Proof. reflexivity. Qed.

Lemma serialize_Tuple serializers v :
  serialize (TupleSerializer (Some serializers)) v = serialize_items v serializers 0.
Proof. reflexivity. Qed.

Lemma deserialize_Tuple serializers :
  deserialize (TupleSerializer (Some serializers)) = VArray <$> deserialize_items serializers [].
Proof. reflexivity. Qed.

(** *** Loops *)

Lemma writes_for_of {A} (body : A → M ByteBuffer.t unit) l bss :
  Forall2 (λ x bs, writes (body x) bs) l bss → writes (for_of body l) (concat bss).
Proof.
  induction 1 as [|x bs l bss Hx _ IH]; simpl; [apply writes_ret|by apply writes_bind].
Qed.

Lemma reads_for_loop {A B} (body : B → M ByteBuffer.t B) (step : B → A → B) l bss :
  Forall2 (λ x bs, ∀ acc, reads (body acc) bs (step acc x)) l bss →
  ∀ acc, reads (for_loop (length l) body acc) (concat bss) (foldl step acc l).
Proof.
  induction 1 as [|x bs l bss Hx _ IH]; intros acc; simpl; [apply reads_ret|].
  eapply reads_bind; [apply Hx|apply IH].
Qed.

Lemma reads_bind_ret {A B} (m : M ByteBuffer.t A) (f : A → B) bs a :
  reads m bs a → reads (x ← m; mret (f x)) bs (f a).
Proof. apply (reads_fmap f). Qed.

Lemma Forall_exists_Forall2 {A B} (P : A → B → Prop) l :
  Forall (λ x, ∃ y, P x y) l → ∃ l', Forall2 P l l'.
Proof.
  induction 1 as [|x l [y Hy] _ [l' IH]]; [by exists []|].
  exists (y :: l'). by constructor.
Qed.

Lemma foldl_snoc {A} (l : list A) acc : foldl (λ acc x, acc ++ [x]) acc l = acc ++ l.
Proof.
  revert acc. induction l as [|x l IH]; intros acc; simpl; [by rewrite app_nil_r|].
  by rewrite IH, <- app_assoc.
Qed.

Lemma varuint_length_roundtrip n :
  Z.of_nat n < 2 ^ 32 →
  writes (VarUInt32_serialize (Z.of_nat n)) (varuint_bytes (Z.of_nat n)) ∧
  reads VarUInt32_deserialize (varuint_bytes (Z.of_nat n)) (Z.of_nat n).
Proof.
  intros H. split; [apply writes_VarUInt32_serialize|apply reads_VarUInt32_deserialize]; lia.
Qed.

(** *** The primitive serializers and the string *)

Lemma roundtrips_Boolean b : roundtrips BooleanSerializer (VBoolean b).
Proof.
  exists [if b then 1 else 0]. split.
  - apply writes_byte. unfold is_byte. destruct b; lia.
  - apply reads_fmap. rewrite <- (app_nil_r [_]).
    eapply reads_bind; [apply reads_readByte|].
    replace b with (negb ((if b then 1 else 0) =? 0)) at 2 by by destruct b.
    apply reads_ret.
Qed.

Lemma Int_roundtrips s n v :
  (0 < n)%nat →
  serialize s (VNumber v) = Int_serialize n v →
  deserialize s = VNumber <$> Int_deserialize n →
  - 2 ^ (8 * Z.of_nat n - 1) ≤ v < 2 ^ (8 * Z.of_nat n - 1) →
  roundtrips s (VNumber v).
Proof.
  intros Hn Es Ed Hv. exists (DataView.be_bytes n v). rewrite Es, Ed. split.
  - apply writes_Int_serialize.
  - apply reads_fmap.
    pose proof (reads_Int_deserialize n _ (length_be_bytes n v)) as H.
    by rewrite be_value_be_bytes, signed_mod in H.
Qed.

Lemma UInt_roundtrips s n v :
  serialize s (VNumber v) = UInt_serialize n v →
  deserialize s = VNumber <$> UInt_deserialize n →
  0 ≤ v < 2 ^ (8 * Z.of_nat n) →
  roundtrips s (VNumber v).
Proof.
  intros Es Ed Hv. exists (DataView.be_bytes n v). rewrite Es, Ed. split.
  - apply writes_UInt_serialize.
  - apply reads_fmap.
    pose proof (reads_UInt_deserialize n _ (length_be_bytes n v)) as H.
    by rewrite be_value_be_bytes, Z.mod_small in H.
Qed.

Lemma roundtrips_String s : valid_string s → roundtrips StringSerializer (VString s).
Proof.
  intros [Hl Hc].
  destruct (varuint_length_roundtrip (length s) Hl) as [Hw Hr].
  assert (Hcs : Forall2 (λ c bs, writes (VarUInt32_serialize c) bs ∧
                                  reads VarUInt32_deserialize bs c ∧ 0 ≤ c < 2 ^ 16)
                        s (map varuint_bytes s)).
  { apply Forall2_fmap_r, Forall_Forall2_diag. eapply Forall_impl; [exact Hc|].
    intros c Hr'. simpl in Hr'.
    split_and!; [apply writes_VarUInt32_serialize|apply reads_VarUInt32_deserialize|..]; lia. }
  exists (varuint_bytes (Z.of_nat (length s)) ++ concat (map varuint_bytes s)). split.
  - apply writes_bind; [done|]. apply writes_for_of.
    eapply Forall2_impl; [exact Hcs|]. by intros ?? [? _].
  - apply reads_fmap. eapply reads_bind; [exact Hr|]. rewrite Nat2Z.id.
    pose proof (λ HH, reads_for_loop
      (λ result, charCode ← VarUInt32_deserialize;
                 mret (result ++ String_fromCharCode charCode))
      (λ acc c, acc ++ [c]) s (map varuint_bytes s) HH []) as H.
    rewrite foldl_snoc in H. apply H.
    eapply Forall2_impl; [exact Hcs|]. intros c bs (_ & Hr' & Hc') acc. simpl.
    replace [c] with (String_fromCharCode c)
      by (unfold String_fromCharCode; by rewrite Z.mod_small).
    by apply (reads_bind_ret _ (λ charCode, acc ++ String_fromCharCode charCode)).
Qed.

Lemma roundtrips_primitive s v : is_primitive s → valid s v → roundtrips s v.
Proof.
  intros Hp Hv.
  destruct s; try done; destruct v; try done; simpl in Hv.
  - apply roundtrips_Boolean.
  - apply (Int_roundtrips _ 1); [lia|done|done|exact Hv].
  - apply (Int_roundtrips _ 2); [lia|done|done|exact Hv].
  - apply (Int_roundtrips _ 4); [lia|done|done|exact Hv].
  - apply (UInt_roundtrips _ 1); [done|done|exact Hv].
  - apply (UInt_roundtrips _ 2); [done|done|exact Hv].
  - apply (UInt_roundtrips _ 4); [done|done|exact Hv].
  - destruct Hv as (_ & H1 & H2). eexists. split.
    + apply writes_Float32_serialize.
    + by apply reads_fmap, reads_Float32_deserialize.
  - eexists. split.
    + apply writes_Float64_serialize.
    + by apply reads_fmap, reads_Float64_deserialize.
  - eexists. split.
    + by apply writes_VarUInt32_serialize.
    + by apply reads_fmap, reads_VarUInt32_deserialize.
  - eexists. split.
    + by apply writes_VarInt32_serialize.
    + by apply reads_fmap, reads_VarInt32_deserialize.
  - eexists. split.
    + by apply writes_VarUInt64_serialize.
    + by apply reads_fmap, reads_VarUInt64_deserialize.
  - eexists. split.
    + by apply writes_VarInt64_serialize.
    + by apply reads_fmap, reads_VarInt64_deserialize.
  - by apply roundtrips_String.
Qed.

(** *** The composite serializers *)

Lemma valid_not_null s : ¬ valid s VNull.
Proof.
  induction s as [s Hp|e IH|schema IH|l IH|e IH|k e IHk IHe|e IH] using serializer_ind.
  - destruct s; simpl in *; tauto.
  - destruct e; simpl; tauto.
  - destruct schema; simpl; tauto.
  - destruct l; simpl; tauto.
  - destruct e as [e|]; simpl; [|tauto]. intros [|H]; [done|]. by apply (IH e).
  - destruct k, e; simpl; tauto.
  - destruct e; simpl; tauto.
Qed.

Lemma get_property_NoDup fields k x :
  NoDup fields.*1 → (k, x) ∈ fields → get_property k fields = x.
Proof.
  induction fields as [|[k' x'] fields IH]; intros Hnd Hin; [by apply elem_of_nil in Hin|].
  simpl in *. apply NoDup_cons in Hnd as [Hk' Hnd].
  apply elem_of_cons in Hin as [[= -> ->]|Hin].
  - by rewrite bool_decide_true.
  - rewrite bool_decide_false; [by apply IH|].
    intros ->. apply Hk'. apply list_elem_of_fmap. by exists (k, x).
Qed.

Lemma set_property_fresh k x result :
  k ∉ result.*1 → set_property k x result = result ++ [(k, x)].
Proof.
  induction result as [|[k' x'] result IH]; intros Hk; [done|].
  simpl in *. apply not_elem_of_cons in Hk as [Hne Hk].
  rewrite bool_decide_false by done. by rewrite IH.
Qed.

Lemma valid_fields_keys schema fields : valid_fields schema fields → fields.*1 = schema.*1.
Proof.
  revert fields. induction schema as [|[k [c|]] schema IH]; intros [|[k' x] fields]; try done.
  simpl. intros (-> & _ & H). f_equal. by apply IH.
Qed.

Lemma roundtrips_fields all_fields schema : ∀ fields,
  Forall (λ kc, ∀ s, kc.2 = Some s → ∀ v, valid s v → roundtrips s v) schema →
  valid_fields schema fields →
  (∀ k x, (k, x) ∈ fields → get_property k all_fields = x) →
  NoDup schema.*1 →
  ∃ bs, writes (serialize_fields (VObject all_fields) schema) bs ∧
        ∀ result, (∀ k, k ∈ schema.*1 → k ∉ result.*1) →
                  reads (deserialize_fields schema result) bs (result ++ fields).
Proof.
  induction schema as [|[k [c|]] schema IH]; intros [|[k' x] fields] HP Hv Hget Hnd; try done.
  - exists []. split; [apply writes_ret|]. intros result _. rewrite app_nil_r. apply reads_ret.
  - simpl in Hv. destruct Hv as (<- & Hx & Hv).
    apply Forall_cons in HP as [Hc HP]. simpl in Hnd. apply NoDup_cons in Hnd as [Hk Hnd].
    destruct (Hc c eq_refl x Hx) as (bs1 & Hw1 & Hr1).
    destruct (IH fields HP Hv) as (bs2 & Hw2 & Hr2); [|done|].
    { intros k' x' Hin. apply Hget. by apply elem_of_cons; right. }
    exists (bs1 ++ bs2). split.
    + cbn [serialize_fields]. apply writes_bind; [|done].
      rewrite (Hget k x) by (apply elem_of_cons; by left). done.
    + intros result Hfresh. cbn [deserialize_fields].
      eapply reads_bind; [exact Hr1|].
      rewrite set_property_fresh by (apply Hfresh; simpl; apply elem_of_cons; by left).
      replace (result ++ (k, x) :: fields) with ((result ++ [(k, x)]) ++ fields)
        by by rewrite <- app_assoc.
      apply Hr2. intros k' Hk'. rewrite fmap_app. simpl.
      intros Hin. apply elem_of_app in Hin as [Hin|Hin].
      * revert Hin. apply Hfresh. simpl. apply elem_of_cons. by right.
      * apply list_elem_of_singleton in Hin. by subst.
Qed.

Lemma roundtrips_items all_items serializers : ∀ items i,
  Forall (λ c, ∀ s, c = Some s → ∀ v, valid s v → roundtrips s v) serializers →
  valid_items serializers items →
  (∀ j x, items !! j = Some x → all_items !! (i + j)%nat = Some x) →
  ∃ bs, writes (serialize_items (VArray all_items) serializers i) bs ∧
        ∀ result, reads (deserialize_items serializers result) bs (result ++ items).
Proof.
  induction serializers as [|[c|] serializers IH]; intros [|x items] i HP Hv Hget; try done.
  - exists []. split; [apply writes_ret|]. intros result. rewrite app_nil_r. apply reads_ret.
  - simpl in Hv. destruct Hv as (Hx & Hv).
    apply Forall_cons in HP as [Hc HP].
    destruct (Hc c eq_refl x Hx) as (bs1 & Hw1 & Hr1).
    destruct (IH items (S i) HP Hv) as (bs2 & Hw2 & Hr2).
    { intros j x' Hj. replace (S i + j)%nat with (i + S j)%nat by lia. by apply Hget. }
    exists (bs1 ++ bs2). split.
    + cbn [serialize_items]. apply writes_bind; [|done].
      pose proof (Hget 0%nat x eq_refl) as E. rewrite Nat.add_0_r in E. by rewrite E.
    + intros result. cbn [deserialize_items].
      eapply reads_bind; [exact Hr1|].
      replace (result ++ x :: items) with ((result ++ [x]) ++ items)
        by by rewrite <- app_assoc.
      apply Hr2.
Qed.

Lemma distinct_keys_middle l1 y l2 :
  distinct_keys (l1 ++ y :: l2) →
  Forall (λ x, same_value_zero x y = false) l1 ∧ normalize_key y = y.
Proof.
  induction l1 as [|x l1 IH]; simpl.
  - intros (? & _ & _). by split.
  - intros (_ & Hx & Hd). destruct (IH Hd) as [H1 H2]. split; [|done].
    constructor; [|done]. apply Forall_app in Hx as [_ Hx]. by apply Forall_cons in Hx as [? _].
Qed.

Lemma Map_set_fresh key val entries :
  Forall (λ x, same_value_zero x key = false) entries.*1 → normalize_key key = key →
  Map_set key val entries = entries ++ [(key, val)].
Proof.
  intros H Hn. induction entries as [|[k v] entries IH]; simpl in *; [by rewrite Hn|].
  apply Forall_cons in H as [-> H]. by rewrite IH.
Qed.

Lemma Set_add_fresh item items :
  Forall (λ x, same_value_zero x item = false) items → normalize_key item = item →
  Set_add item items = items ++ [item].
Proof.
  intros H Hn. induction items as [|x items IH]; simpl in *; [by rewrite Hn|].
  apply Forall_cons in H as [-> H]. by rewrite IH.
Qed.

Lemma foldl_Map_set entries : ∀ acc,
  distinct_keys (acc ++ entries).*1 →
  foldl (λ acc kv, Map_set kv.1 kv.2 acc) acc entries = acc ++ entries.
Proof.
  induction entries as [|[k v] entries IH]; intros acc Hd; simpl; [by rewrite app_nil_r|].
  rewrite fmap_app in Hd. simpl in Hd.
  destruct (distinct_keys_middle _ _ _ Hd) as [H1 H2].
  rewrite Map_set_fresh by done. rewrite IH; [by rewrite <- app_assoc|].
  by rewrite <- app_assoc, fmap_app.
Qed.

Lemma foldl_Set_add items : ∀ acc,
  distinct_keys (acc ++ items) →
  foldl (λ acc x, Set_add x acc) acc items = acc ++ items.
Proof.
  induction items as [|x items IH]; intros acc Hd; simpl; [by rewrite app_nil_r|].
  destruct (distinct_keys_middle _ _ _ Hd) as [H1 H2].
  rewrite Set_add_fresh by done. rewrite IH; [by rewrite <- app_assoc|].
  by rewrite <- app_assoc.
Qed.

Lemma roundtrips_elements e items :
  (∀ v, valid e v → roundtrips e v) → Forall (valid e) items →
  ∃ bss, Forall2 (λ x bs, writes (serialize e x) bs ∧ reads (deserialize e) bs x) items bss.
Proof.
  intros IH Hv. apply Forall_exists_Forall2. eapply Forall_impl; [exact Hv|]. apply IH.
Qed.

Lemma roundtrips_Optional_defined e v :
  v ≠ VUndefined → v ≠ VNull → roundtrips e v → roundtrips (OptionalSerializer (Some e)) v.
Proof.
  intros H1 H2 (bs & Hw & Hr). exists ([1] ++ bs). split.
  - assert (E : serialize (OptionalSerializer (Some e)) v
                = (Boolean_serialize true;; serialize e v)) by by destruct v.
    rewrite E. apply writes_bind; [|done]. apply writes_byte. unfold is_byte. lia.
  - cbn [deserialize]. apply (reads_bind _ _ [1] bs true); [|exact Hr].
    apply (reads_bind_ret readByte (λ byte, negb (byte =? 0)) [1] 1), reads_readByte.
Qed.

Lemma roundtrips_Optional_undefined e : roundtrips (OptionalSerializer e) VUndefined.
Proof.
  exists [0]. split.
  - change (writes (Boolean_serialize false;; mret ()) ([0] ++ [])).
    apply writes_bind; [|apply writes_ret].
    apply writes_byte. unfold is_byte. lia.
  - cbn [deserialize]. apply (reads_bind _ _ [0] [] false); [|apply reads_ret].
    apply (reads_bind_ret readByte (λ byte, negb (byte =? 0)) [0] 0), reads_readByte.
Qed.

(** Every valid value is read back from the bytes it is written as. *)
Lemma valid_roundtrips s : ∀ v, valid s v → roundtrips s v.
Proof.
  induction s as [s Hp|e IH|schema IH|l IH|e IH|k e IHk IHe|e IH] using serializer_ind;
    intros v Hv.
  - by apply roundtrips_primitive.
  - destruct e as [e|]; [|done]. destruct v as [| | | | | | |items| | |]; try done.
    destruct Hv as [Hl Hv].
    destruct (roundtrips_elements e items (IH e eq_refl) Hv) as [bss Hbss].
    destruct (varuint_length_roundtrip (length items) Hl) as [Hw Hr].
    exists (varuint_bytes (Z.of_nat (length items)) ++ concat bss). split.
    + apply writes_bind; [done|]. apply writes_for_of.
      eapply Forall2_impl; [exact Hbss|]. by intros ?? [? _].
    + cbn [deserialize]. eapply reads_bind; [exact Hr|]. rewrite Nat2Z.id.
      apply reads_fmap.
      pose proof (λ HH, reads_for_loop
        (λ result, item ← deserialize e; mret (result ++ [item]))
        (λ acc x, acc ++ [x]) items bss HH []) as H.
      rewrite foldl_snoc in H. apply H.
      eapply Forall2_impl; [exact Hbss|]. intros x bs [_ Hx] acc.
      by apply (reads_bind_ret _ (λ item, acc ++ [item])).
  - destruct schema as [schema|]; [|done]. destruct v as [| | | | | | | |fields| |]; try done.
    destruct Hv as [Hnd Hv]. change (valid_fields schema fields) in Hv.
    destruct (roundtrips_fields fields schema fields) as (bs & Hw & Hr); try done.
    { eapply Forall_impl; [exact (IH schema eq_refl)|]. intros kc H s E. by apply (H s). }
    { intros k x Hin. apply get_property_NoDup; [|done].
      by rewrite (valid_fields_keys schema). }
    exists bs. split; [done|].
    rewrite deserialize_Object. apply reads_fmap. apply (Hr []).
    intros k _ Hin. by apply elem_of_nil in Hin.
  - destruct l as [l|]; [|done]. destruct v as [| | | | | | |items| | |]; try done.
    change (valid_items l items) in Hv.
    destruct (roundtrips_items items l items 0) as (bs & Hw & Hr); try done.
    { eapply Forall_impl; [exact (IH l eq_refl)|]. intros c H s E. by apply (H s). }
    exists bs. split; [done|].
    rewrite deserialize_Tuple. apply reads_fmap. apply (Hr []).
  - destruct e as [e|]; [|done].
    assert (v = VUndefined ∨ v ≠ VUndefined) as [->|Hu]
      by (destruct v; auto; by right);
      [apply roundtrips_Optional_undefined|].
    destruct Hv as [|Hv]; [done|].
    apply roundtrips_Optional_defined; [done| |by apply (IH e)].
    intros ->. by apply valid_not_null in Hv.
  - destruct k as [k|]; [|done]. destruct e as [e|]; [|done].
    destruct v as [| | | | | | | | |entries|]; try done.
    destruct Hv as (Hl & Hv & Hd).
    destruct (varuint_length_roundtrip (length entries) Hl) as [Hw Hr].
    assert (∃ bss, Forall2 (λ kv bs,
              writes (serialize k kv.1;; serialize e kv.2) bs ∧
              ∀ acc, reads (key ← deserialize k; val ← deserialize e;
                            mret (Map_set key val acc)) bs (Map_set kv.1 kv.2 acc))
              entries bss) as [bss Hbss].
    { apply Forall_exists_Forall2. eapply Forall_impl; [exact Hv|].
      intros [x y] [Hx Hy]. simpl in *.
      destruct (IHk k eq_refl x Hx) as (bs1 & Hw1 & Hr1).
      destruct (IHe e eq_refl y Hy) as (bs2 & Hw2 & Hr2).
      exists (bs1 ++ bs2). split; [by apply writes_bind|].
      intros acc. eapply reads_bind; [exact Hr1|].
      by apply (reads_bind_ret _ (λ val, Map_set x val acc)). }
    exists (varuint_bytes (Z.of_nat (length entries)) ++ concat bss). split.
    + apply writes_bind; [done|]. apply writes_for_of.
      eapply Forall2_impl; [exact Hbss|]. by intros ?? [? _].
    + cbn [deserialize]. eapply reads_bind; [exact Hr|]. rewrite Nat2Z.id.
      apply reads_fmap.
      pose proof (λ HH, reads_for_loop
        (λ result, key ← deserialize k; val ← deserialize e; mret (Map_set key val result))
        (λ acc kv, Map_set kv.1 kv.2 acc) entries bss HH []) as H.
      rewrite foldl_Map_set in H by done. apply H.
      eapply Forall2_impl; [exact Hbss|]. by intros ?? [_ ?].
  - destruct e as [e|]; [|done]. destruct v as [| | | | | | | | | |items]; try done.
    destruct Hv as (Hl & Hv & Hd).
    destruct (roundtrips_elements e items (IH e eq_refl) Hv) as [bss Hbss].
    destruct (varuint_length_roundtrip (length items) Hl) as [Hw Hr].
    exists (varuint_bytes (Z.of_nat (length items)) ++ concat bss). split.
    + apply writes_bind; [done|]. apply writes_for_of.
      eapply Forall2_impl; [exact Hbss|]. by intros ?? [? _].
    + cbn [deserialize]. eapply reads_bind; [exact Hr|]. rewrite Nat2Z.id.
      apply reads_fmap.
      pose proof (λ HH, reads_for_loop
        (λ result, item ← deserialize e; mret (Set_add item result))
        (λ acc x, Set_add x acc) items bss HH []) as H.
      rewrite foldl_Set_add in H by done. apply H.
      eapply Forall2_impl; [exact Hbss|]. intros x bs [_ Hx] acc.
      by apply (reads_bind_ret _ (λ item, Set_add item acc)).
Qed.

Lemma new_buffer_empty n : 0 ≤ n → toUint8Array (ByteBuffer.new n) = [].
Proof. intros. by rewrite toUint8Array_take. Qed.

(** C2, as the code has it -- for every serializer the framework provides
    (boolean, fixed-width integers, floats, variable-length integers,
    string, array, object, tuple, optional, map, set, nested at will) and
    every valid value [v] of its type, where the absent value of an
    optional is [undefined], serializing [v] into a new buffer completes
    and deserializing that buffer returns [v]. *)
Theorem serialize_deserialize_roundtrip (s : Serializer.t) (v : value) :
  valid s v →
  result (serialize s v) (ByteBuffer.new 256) = Normal () ∧
  result (deserialize s) (run (serialize s v) (ByteBuffer.new 256)) = Normal v.
Proof.
  intros Hv. destruct (valid_roundtrips s v Hv) as (bs & Hw & Hr).
  destruct (Hw (ByteBuffer.new 256) (wf_new _)) as (b' & E & Hb' & Hbs & Hpos).
  unfold result, run. rewrite E. split; [done|]. simpl.
  rewrite (Hr b' [] Hb'); [done|].
  rewrite Hpos, Hbs, new_buffer_empty by lia. simpl. by rewrite app_nil_r.
Qed.

(** The object [{name: "Steve", level: 10}] under a schema of two fields. *)
Lemma serialize_deserialize_roundtrip_witness :
  let schema := ObjectSerializer (Some [(str "name", Some StringSerializer);
                                        (str "level", Some VarUInt32Serializer)]) in
  let steve := VObject [(str "name", VString (str "Steve")); (str "level", VNumber 10)] in
  result (serialize schema steve) (ByteBuffer.new 256) = Normal () ∧
  result (deserialize schema) (run (serialize schema steve) (ByteBuffer.new 256)) = Normal steve.
Proof.
  apply (serialize_deserialize_roundtrip
           (ObjectSerializer (Some [(str "name", Some StringSerializer);
                                    (str "level", Some VarUInt32Serializer)]))
           (VObject [(str "name", VString (str "Steve")); (str "level", VNumber 10)])).
  simpl. split.
  - apply (bool_decide_unpack _). by vm_compute.
  - repeat split; try lia. repeat constructor; lia.
Defined.

(** C2, as stated, fails on [null] under an optional serializer, whose
    type has it: [null] is written as absent and read back as
    [undefined]. *)
Lemma optional_null_counterexample :
  result (deserialize (OptionalSerializer (Some Int8Serializer)))
         (run (serialize (OptionalSerializer (Some Int8Serializer)) VNull) (ByteBuffer.new 256))
  ≠ Normal VNull.
Proof. vm_compute. discriminate. Qed.

End SerializerFacts.

(** ** Deserializing from too few bytes *)

Section StrictFacts.
Import ByteBuffer Serializer.

Lemma length_unread b : wf b → Z.of_nat (length (unread b)) = available b.
Proof.
  intros Hb. pose proof (length_toUint8Array b Hb). destruct Hb as (?&?&?).
  unfold unread, available. rewrite length_drop. lia.
Qed.

Lemma unread_set_readPos b k :
  wf b → 0 ≤ k → unread (set_readPos (readPos b + k) b) = drop (Z.to_nat k) (unread b).
Proof.
  intros (?&?&?) Hk. unfold unread.
  change (toUint8Array (set_readPos _ b)) with (toUint8Array b). simpl.
  rewrite drop_drop. f_equal. lia.
Qed.

Lemma unread_take_slice b n :
  wf b → 0 ≤ n → n ≤ available b →
  slice (readPos b) (readPos b + n) (bytes b) = take (Z.to_nat n) (unread b).
Proof.
  intros (?&?&?) Hn Ha. unfold slice, unread, available in *.
  rewrite toUint8Array_take, !take_drop_commute, take_take.
  do 2 f_equal. lia.
Qed.

Lemma strict_ret {A} (a : A) : strict (mret a).
Proof.
  intros b a' b' Hb [= <- <-]. exists 0.
  split; [lia|]. split; [destruct Hb; lia|]. split; [by rewrite set_readPos_id|].
  intros b2 Hb2 _. split; [|lia]. intros _. simpl. by rewrite set_readPos_id.
Qed.

Lemma strict_throw {A} e : strict (throw e : M ByteBuffer.t A).
Proof. by intros b a b' Hb. Qed.

Lemma strict_bind {A B} (m : M ByteBuffer.t A) (f : A → M ByteBuffer.t B) :
  strict m → (∀ a, strict (f a)) → strict (m ≫= f).
Proof.
  intros Hm Hf b c b' Hb E.
  destruct (m b) as [[a|e] b1] eqn:Em; [|by rewrite (bind_throw _ _ _ _ _ Em) in E].
  rewrite (bind_normal _ _ _ _ _ Em) in E.
  destruct (Hm b a b1 Hb Em) as (k1 & Hk1 & Hk1' & -> & H1).
  assert (Hb1 : wf (set_readPos (readPos b + k1) b)) by by apply set_readPos_wf.
  destruct (Hf a _ c b' Hb1 E) as (k2 & Hk2 & Hk2' & -> & H2).
  simpl in Hk2'. exists (k1 + k2). split; [lia|]. split; [lia|]. split.
  { rewrite set_readPos_add. f_equal. lia. }
  intros b2 Hb2 [extra Hex]. destruct (H1 b2 Hb2 (ex_intro _ extra Hex)) as [H1a H1b].
  pose proof (length_unread b2 Hb2) as Hl2.
  destruct (Z.le_gt_cases k1 (Z.of_nat (length (unread b2)))) as [Hle|Hgt].
  - specialize (H1a Hle). rewrite (bind_normal _ _ _ _ _ H1a).
    assert (Hb2' : wf (set_readPos (readPos b2 + k1) b2)).
    { apply set_readPos_wf; [done|lia|]. unfold available in Hl2. lia. }
    destruct (H2 _ Hb2') as [H2a H2b].
    { exists extra. rewrite !unread_set_readPos, Hex, drop_app_le by (done || lia). done. }
    rewrite unread_set_readPos, length_drop in H2a, H2b by done.
    split.
    + intros Hle'. rewrite H2a by lia. rewrite set_readPos_add. do 2 f_equal. lia.
    + intros Hlt. apply H2b. lia.
  - split; [lia|]. intros _. destruct (H1b Hgt) as (e & b2' & He & Ee).
    exists e, b2'. split; [done|]. by apply bind_throw.
Qed.

Lemma strict_fmap {A B} (f : A → B) (m : M ByteBuffer.t A) : strict m → strict (f <$> m).
Proof. intros H. apply strict_bind; [done|]. intros a. apply strict_ret. Qed.

(** [advance] and a look at the bytes passed. *)
Lemma strict_advance {A} (n : Z) (k : Z → M ByteBuffer.t A) (f : list Z → A) :
  0 ≤ n →
  (∀ offset b, 0 ≤ offset → offset + n ≤ capacity b →
     k offset b = (Normal (f (slice offset (offset + n) (bytes b))), b)) →
  strict (advance n ≫= k).
Proof.
  intros Hn Hk b a b' Hb E.
  assert (Hadv : ∀ b, wf b → n ≤ available b →
            (advance n ≫= k) b
            = (Normal (f (take (Z.to_nat n) (unread b))), set_readPos (readPos b + n) b)).
  { intros b0 Hb0 Ha. erewrite bind_normal; last first.
    { rewrite advance_eq. destruct (Z.gtb_spec n (available b0)); [lia|done]. }
    rewrite Hk; simpl.
    - by rewrite unread_take_slice.
    - destruct Hb0; lia.
    - destruct Hb0 as (?&?&?). unfold capacity, available in *. simpl. lia. }
  destruct (Z.le_gt_cases n (available b)) as [Ha|Ha].
  - rewrite Hadv in E by done. injection E as <- <-.
    exists n. unfold available in Ha. split; [done|]. split; [lia|]. split; [done|].
    intros b2 Hb2 [extra Hex]. pose proof (length_unread b2 Hb2) as Hl2. split.
    + intros Hle. rewrite Hadv by (done || lia). do 2 f_equal.
      rewrite Hex, take_app_le by lia. done.
    + intros Hlt. exists (BufferUnderflow n (available b2)), b2.
      split; [left; eauto|]. apply bind_throw. rewrite advance_eq.
      destruct (Z.gtb_spec n (available b2)); [done|lia].
  - erewrite bind_throw in E; [done|]. rewrite advance_eq.
    destruct (Z.gtb_spec n (available b)); [done|lia].
Qed.

Lemma strict_readByte : strict readByte.
Proof.
  apply (strict_advance 1 load (λ l, default 0 (l !! 0%nat))); [lia|].
  intros offset b Ho Hc. unfold load, gets. do 2 f_equal.
  unfold slice. rewrite lookup_take_lt by lia. rewrite lookup_drop. do 2 f_equal. lia.
Qed.

Lemma readByte_underflow {A} (f : Z → M ByteBuffer.t A) b :
  available b ≤ 0 → (readByte ≫= f) b = (Throw (BufferUnderflow 1 (available b)), b).
Proof.
  intros Ha. apply bind_throw. unfold readByte. apply bind_throw. rewrite advance_eq.
  destruct (Z.gtb_spec 1 (available b)); [done|lia].
Qed.

(** The guard of the [VarUInt32] loop in front of its [readByte]. *)
Lemma strict_guard {A} (f : Z → M ByteBuffer.t A) e :
  underflow e → (∀ byte, strict (f byte)) →
  strict (avail ← gets available;
          if avail <=? 0 then throw e else byte ← readByte; f byte).
Proof.
  intros He Hf.
  assert (Hs : strict (readByte ≫= f)) by (apply strict_bind; [apply strict_readByte|done]).
  assert (Hg : ∀ b, (avail ← gets available;
                     if avail <=? 0 then throw e else byte ← readByte; f byte) b
                    = if available b <=? 0 then (Throw e, b) else (readByte ≫= f) b).
  { intros b. erewrite bind_normal by reflexivity. by destruct (available b <=? 0). }
  intros b a b' Hb E. rewrite Hg in E.
  destruct (Z.leb_spec (available b) 0) as [|Hpos]; [done|].
  destruct (Hs b a b' Hb E) as (k & Hk & Hk' & -> & H).
  exists k. do 3 (split; [done|]).
  intros b2 Hb2 Hex. destruct (H b2 Hb2 Hex) as [Ha Hb']. rewrite Hg.
  pose proof (length_unread b2 Hb2) as Hl2.
  destruct (Z.leb_spec (available b2) 0) as [Hle|]; [|done].
  split.
  - intros Hk2. specialize (Ha Hk2). by rewrite readByte_underflow in Ha.
  - intros _. by exists e, b2.
Qed.

Lemma strict_VarUInt32_for n : ∀ i value shift, strict (VarUInt32_for n i value shift).
Proof.
  induction n as [|n IH]; intros i value shift; cbn [VarUInt32_for]; [apply strict_ret|].
  apply strict_guard; [right; eauto|]. intros byte.
  destruct (_ =? 0); [apply strict_ret|apply IH].
Qed.

Lemma strict_VarUInt32_deserialize : strict VarUInt32_deserialize.
Proof.
  apply strict_bind; [apply strict_VarUInt32_for|]. intros. apply strict_ret.
Qed.

Lemma strict_VarUInt64_for n : ∀ value shift, strict (VarUInt64_for n value shift).
Proof.
  induction n as [|n IH]; intros value shift; cbn [VarUInt64_for]; [apply strict_ret|].
  apply strict_bind; [apply strict_readByte|]. intros byte.
  destruct (_ =? 0); [apply strict_ret|apply IH].
Qed.

Lemma strict_VarUInt64_deserialize : strict VarUInt64_deserialize.
Proof.
  apply strict_bind; [apply strict_VarUInt64_for|]. intros. apply strict_ret.
Qed.

Lemma strict_getUint {A} n (g : Z → A) :
  strict (advance (Z.of_nat n) ≫= λ offset, g <$> DataView.getUint n offset).
Proof.
  apply (strict_advance _ _ (λ l, g (DataView.be_value l))); [lia|].
  intros offset b H1 H2. apply fmap_normal.
  unfold DataView.getUint. by erewrite bind_normal by by apply check_ok.
Qed.

Lemma strict_UInt_deserialize n : strict (UInt_deserialize n).
Proof.
  apply (strict_advance _ _ DataView.be_value); [lia|].
  intros offset b H1 H2.
  unfold DataView.getUint. by erewrite bind_normal by by apply check_ok.
Qed.

Lemma strict_for_loop {A} (body : A → M ByteBuffer.t A) n :
  (∀ acc, strict (body acc)) → ∀ acc, strict (for_loop n body acc).
Proof.
  intros Hbody. induction n as [|n IH]; intros acc; simpl; [apply strict_ret|].
  by apply strict_bind.
Qed.

Lemma strict_primitive s : is_primitive s → strict (deserialize s).
Proof.
  intros Hp. destruct s; try done; cbn [deserialize]; apply strict_fmap.
  - apply strict_bind; [apply strict_readByte|]. intros. apply strict_ret.
  - apply (strict_getUint 1 (DataView.signed 1)).
  - apply (strict_getUint 2 (DataView.signed 2)).
  - apply (strict_getUint 4 (DataView.signed 4)).
  - apply strict_UInt_deserialize.
  - apply strict_UInt_deserialize.
  - apply strict_UInt_deserialize.
  - apply (strict_getUint 4 (λ bits, DataView.round_to 52 11 (DataView.of_bits 23 8 bits))).
  - apply (strict_getUint 8 (DataView.of_bits 52 11)).
  - apply strict_VarUInt32_deserialize.
  - apply strict_bind; [apply strict_VarUInt32_deserialize|]. intros. apply strict_ret.
  - apply strict_VarUInt64_deserialize.
  - apply strict_bind; [apply strict_VarUInt64_deserialize|]. intros. apply strict_ret.
  - apply strict_bind; [apply strict_VarUInt32_deserialize|]. intros len.
    apply strict_for_loop. intros acc.
    apply strict_bind; [apply strict_VarUInt32_deserialize|]. intros. apply strict_ret.
Qed.

Lemma strict_child {A} (c : option Serializer.t) (f : value → M ByteBuffer.t A) :
  (∀ s, c = Some s → strict (deserialize s)) → (∀ x, strict (f x)) →
  strict (x ← match c with
              | Some s => deserialize s
              | None => throw TypeError
              end; f x).
Proof.
  intros Hc Hf. apply strict_bind; [|done].
  destruct c as [s|]; [by apply Hc|apply strict_throw].
Qed.

Lemma strict_deserialize_fields schema :
  Forall (λ kc, ∀ s, kc.2 = Some s → strict (deserialize s)) schema →
  ∀ result, strict (deserialize_fields schema result).
Proof.
  induction 1 as [|[k [c|]] schema Hc _ IH]; intros result; cbn [deserialize_fields].
  - apply strict_ret.
  - apply strict_bind; [by apply (Hc c)|]. intros x. apply IH.
  - apply IH.
Qed.

Lemma strict_deserialize_items serializers :
  Forall (λ c, ∀ s, c = Some s → strict (deserialize s)) serializers →
  ∀ result, strict (deserialize_items serializers result).
Proof.
  induction 1 as [|[c|] serializers Hc _ IH]; intros result; cbn [deserialize_items].
  - apply strict_ret.
  - apply strict_bind; [by apply (Hc c)|]. intros x. apply IH.
  - apply IH.
Qed.

Lemma strict_deserialize s : strict (deserialize s).
Proof.
  induction s as [s Hp|e IH|schema IH|l IH|e IH|k e IHk IHe|e IH] using serializer_ind.
  - by apply strict_primitive.
  - cbn [deserialize]. apply strict_bind; [apply strict_VarUInt32_deserialize|]. intros len.
    destruct e as [e|]; [|apply strict_ret].
    apply strict_fmap, strict_for_loop. intros acc.
    apply strict_bind; [by apply (IH e)|]. intros. apply strict_ret.
  - destruct schema as [schema|]; [|apply strict_ret].
    rewrite deserialize_Object. apply strict_fmap, strict_deserialize_fields. by apply IH.
  - destruct l as [l|]; [|apply strict_ret].
    rewrite deserialize_Tuple. apply strict_fmap, strict_deserialize_items. by apply IH.
  - cbn [deserialize]. apply strict_bind.
    { apply strict_bind; [apply strict_readByte|]. intros. apply strict_ret. }
    intros [|]; [|apply strict_ret].
    destruct e as [e|]; [by apply (IH e)|apply strict_throw].
  - cbn [deserialize]. apply strict_bind; [apply strict_VarUInt32_deserialize|]. intros size.
    apply strict_fmap, strict_for_loop. intros acc.
    apply strict_child; [done|]. intros key.
    apply strict_child; [done|]. intros val. apply strict_ret.
  - cbn [deserialize]. apply strict_bind; [apply strict_VarUInt32_deserialize|]. intros size.
    apply strict_fmap, strict_for_loop. intros acc.
    apply strict_child; [done|]. intros item. apply strict_ret.
Qed.

(** *** A child serializer that is not there *)

Lemma bind_ext {S A B} (m : M S A) (f g : A → M S B) s :
  (∀ a s', f a s' = g a s') → (m ≫= f) s = (m ≫= g) s.
Proof. intros H. unfold mbind, M_bind. destruct (m s) as [[a|e] s']; [apply H|done]. Qed.

Lemma deserialize_fields_skip pre key post : ∀ result b,
  deserialize_fields (pre ++ (key, None) :: post) result b
  = deserialize_fields (pre ++ post) result b.
Proof.
  induction pre as [|[k [c|]] pre IH]; intros result b; simpl; [done| |apply IH].
  apply bind_ext. intros x b'. apply IH.
Qed.

Lemma deserialize_items_skip pre post : ∀ result b,
  deserialize_items (pre ++ None :: post) result b = deserialize_items (pre ++ post) result b.
Proof.
  induction pre as [|[c|] pre IH]; intros result b; simpl; [done| |apply IH].
  apply bind_ext. intros x b'. apply IH.
Qed.

(** C4, as the code has it -- too few bytes are an explicit error: a
    [deserialize] that returns has consumed bytes that were there, and on
    a buffer where fewer of them are left than it consumed it throws an
    underflow error instead of returning ([strict]). A child serializer
    that is missing is not an error (the code logs it on the console and
    goes on): an array without element serializer reads the length and
    returns the empty array, an object or a tuple without schema returns
    the empty object or array, and a field or position without serializer
    is skipped, the value being that of the schema without it. *)
Theorem deserialize_failures :
  (∀ s, strict (deserialize s)) ∧
  (∀ b, deserialize (ArraySerializer None) b
        = (len ← VarUInt32_deserialize; mret (VArray [])) b) ∧
  (∀ b, deserialize (ObjectSerializer None) b = (Normal (VObject []), b)) ∧
  (∀ b, deserialize (TupleSerializer None) b = (Normal (VArray []), b)) ∧
  (∀ pre key post b,
     deserialize (ObjectSerializer (Some (pre ++ (key, None) :: post))) b
     = deserialize (ObjectSerializer (Some (pre ++ post))) b) ∧
  (∀ pre post b,
     deserialize (TupleSerializer (Some (pre ++ None :: post))) b
     = deserialize (TupleSerializer (Some (pre ++ post))) b).
Proof.
  split; [apply strict_deserialize|]. do 3 (split; [done|]). split.
  - intros pre key post b. rewrite !deserialize_Object. unfold fmap, M_fmap.
    unfold mbind, M_bind. by rewrite deserialize_fields_skip.
  - intros pre post b. rewrite !deserialize_Tuple. unfold fmap, M_fmap.
    unfold mbind, M_bind. by rewrite deserialize_items_skip.
Qed.

(** A string of two characters cut after the first: the read of the
    second character throws the underflow error. *)
Lemma deserialize_failures_witness :
  ∃ e b', underflow e ∧
    deserialize StringSerializer (ByteBuffer.from [2; 65]) = (Throw e, b').
Proof.
  destruct deserialize_failures as [Hstrict _].
  destruct (Hstrict StringSerializer (ByteBuffer.from [2; 65; 66]) (VString [65; 66])
              (set_readPos 3 (ByteBuffer.from [2; 65; 66])))
    as (k & _ & _ & Hb' & Hshort).
  - unfold wf. vm_compute. repeat split; discriminate.
  - reflexivity.
  - apply (f_equal readPos) in Hb'. change (3 = 0 + k) in Hb'.
    destruct (Hshort (ByteBuffer.from [2; 65])) as [_ H].
    + unfold wf. vm_compute. repeat split; discriminate.
    + by exists [66].
    + apply H. change (2 < k). lia.
Defined.

(** C4, as stated, fails on a missing child serializer: the array
    serializer returns the empty array from a buffer that holds three
    elements, the object serializer an object without the field. *)
Lemma missing_child_counterexample :
  result (deserialize (ArraySerializer None)) (ByteBuffer.from [3; 1; 2; 3])
    = Normal (VArray []) ∧
  result (deserialize (ObjectSerializer (Some [(str "a", Some UInt8Serializer);
                                                (str "b", None);
                                                (str "c", Some UInt8Serializer)])))
         (ByteBuffer.from [1; 2; 3])
    = Normal (VObject [(str "a", VNumber 1); (str "c", VNumber 2)]).
Proof. by vm_compute. Qed.

End StrictFacts.

(** * Further properties *)

(** ** ByteBuffer: the invariant, growth, reuse *)

Section ByteBufferMore.
Import ByteBuffer.

Lemma run_bind_normal {S A B} (m : M S A) (k : A → M S B) s a s' :
  m s = (Normal a, s') → run (m ≫= k) s = run (k a) s'.
Proof. intros E. unfold run. by rewrite (bind_normal _ _ _ _ _ E). Qed.

Lemma result_bind_normal {S A B} (m : M S A) (k : A → M S B) s a s' :
  m s = (Normal a, s') → result (m ≫= k) s = result (k a) s'.
Proof. intros E. unfold result. by rewrite (bind_normal _ _ _ _ _ E). Qed.

Lemma wf_allocate size b : wf b → 0 ≤ size → wf (run (allocate size) b).
Proof.
  intros (Hr & Hrw & Hw) Hs. unfold run. rewrite allocate_eq. unfold wf, capacity in *. simpl.
  destruct (Z.gtb_spec (writePos b + size) (Z.of_nat (length (bytes b)))); simpl.
  - rewrite length_app, length_replicate. lia.
  - lia.
Qed.

Lemma wf_writes m bs b : writes m bs → wf b → wf (run m b).
Proof. intros Hm Hb. destruct (Hm b Hb) as (b' & E & Hb' & _). unfold run. by rewrite E. Qed.

Lemma writes_writeBytes data : writes (writeBytes data) data.
Proof. by apply writes_allocate_store. Qed.

Lemma wf_advance size b : wf b → 0 ≤ size → wf (run (advance size) b).
Proof.
  intros Hb Hs. unfold run. rewrite advance_eq.
  destruct (Z.gtb_spec size (available b)); simpl; [done|].
  apply set_readPos_wf; [done|lia|unfold available in *; lia].
Qed.

Lemma wf_advance_bind {A} size (k : Z → M t A) b :
  wf b → 0 ≤ size → (∀ offset b', k offset b' = (fst (k offset b'), b')) →
  wf (run (advance size ≫= k) b).
Proof.
  intros Hb Hs Hk. pose proof (wf_advance size b Hb Hs) as H.
  unfold run in *. unfold mbind, M_bind.
  destruct (advance size b) as [[offset|e] b']; simpl in *; [|done].
  by rewrite Hk.
Qed.

(** X1 -- The invariant of the class is kept by every method, whether it returns
    or throws; a size has to be non-negative for that, since [allocate]
    and [advance] add it to a cursor unchecked. *)
Theorem bytebuffer_invariant (b : t) :
  wf b →
  (∀ size, 0 ≤ size → wf (run (allocate size) b)) ∧
  (∀ value, wf (run (writeByte value) b)) ∧
  (∀ data, wf (run (writeBytes data) b)) ∧
  (∀ size, 0 ≤ size → wf (run (advance size) b)) ∧
  wf (run readByte b) ∧
  (∀ len, 0 ≤ len → wf (run (readBytes len) b)) ∧
  wf (run resetRead b) ∧
  wf (run clear b).
Proof.
  intros Hb. split_and!.
  - intros. by apply wf_allocate.
  - intros. by apply (wf_writes _ _ _ (writes_writeByte value)).
  - intros. by apply (wf_writes _ _ _ (writes_writeBytes data)).
  - intros. by apply wf_advance.
  - by apply wf_advance_bind.
  - intros. by apply wf_advance_bind.
  - destruct Hb as (? & ? & ?). unfold wf, capacity in *. simpl. lia.
  - destruct Hb as (? & ? & ?). unfold wf, capacity in *. simpl. lia.
Qed.

Lemma bytebuffer_invariant_witness :
  wf (run (writeBytes [1; 2; 3];; readBytes 2) (ByteBuffer.new 2)).
Proof.
  destruct (bytebuffer_invariant (ByteBuffer.new 2) (wf_new 2)) as (_ & _ & Hw & _).
  specialize (Hw [1; 2; 3]).
  destruct (bytebuffer_invariant (run (writeBytes [1; 2; 3]) (ByteBuffer.new 2)) Hw)
    as (_ & _ & _ & _ & _ & Hr & _).
  apply (Hr 2). lia.
Defined.

(** X2 -- [allocate] returns the write cursor it found and moves it by [size];
    when the room does not fit the backing array, the array grows to twice
    its length or to what is required, whichever is more, and otherwise
    stays; the bytes it held are kept and the new ones are 0. *)
Theorem allocate_grows (b : t) (size : Z) :
  wf b → 0 ≤ size →
  let b' := run (allocate size) b in
  result (allocate size) b = Normal (writePos b) ∧
  writePos b' = writePos b + size ∧
  readPos b' = readPos b ∧
  capacity b' = (if writePos b + size >? capacity b
                 then Z.max (2 * capacity b) (writePos b + size) else capacity b) ∧
  writePos b' ≤ capacity b' ∧
  ∃ zeros, bytes b' = bytes b ++ zeros ∧ Forall (λ x, x = 0) zeros.
Proof.
  intros (Hr & Hrw & Hw) Hs. unfold run, result. rewrite allocate_eq. simpl.
  split; [done|]. split; [done|]. split; [done|]. unfold capacity in *. simpl.
  destruct (Z.gtb_spec (writePos b + size) (Z.of_nat (length (bytes b)))); simpl.
  - rewrite length_app, length_replicate. split; [lia|]. split; [lia|].
    eexists. split; [done|]. apply Forall_forall. by intros x [-> _]%elem_of_replicate.
  - split; [done|]. split; [lia|]. exists []. by rewrite app_nil_r.
Qed.

Lemma allocate_grows_witness :
  capacity (run (allocate 5) (ByteBuffer.from [1; 2; 3])) = 8 ∧
  capacity (run (allocate 1) (ByteBuffer.from [1; 2; 3])) = 6 ∧
  capacity (run (allocate 1) (ByteBuffer.new 256)) = 256.
Proof.
  assert (Hb : wf (ByteBuffer.from [1; 2; 3])).
  { unfold wf. vm_compute. repeat split; discriminate. }
  destruct (allocate_grows (ByteBuffer.from [1; 2; 3]) 5 Hb) as (_ & _ & _ & E1 & _); [lia|].
  destruct (allocate_grows (ByteBuffer.from [1; 2; 3]) 1 Hb) as (_ & _ & _ & E2 & _); [lia|].
  destruct (allocate_grows (ByteBuffer.new 256) 1 (wf_new 256)) as (_ & _ & _ & E3 & _); [lia|].
  split; [exact E1|]. split; [exact E2|exact E3].
Defined.

Lemma reads_readBytes data : reads (readBytes (Z.of_nat (length data))) data data.
Proof.
  refine (reads_advance (Z.of_nat (length data))
            (λ offset, gets (λ b, slice offset (offset + Z.of_nat (length data)) (bytes b)))
            (λ l, l) data eq_refl _).
  done.
Qed.

Lemma from_eq data :
  ByteBuffer.from data
  = {| bytes := data; writePos := Z.of_nat (length data); readPos := 0 |}.
Proof.
  unfold ByteBuffer.from, run.
  assert (Hn : wf (ByteBuffer.new (Z.of_nat (length data)))) by apply wf_new.
  unfold writeBytes. unfold mbind at 1. unfold M_bind at 1.
  unfold mbind at 1. unfold M_bind at 1. rewrite allocate_eq.
  assert (Hc : capacity (ByteBuffer.new (Z.of_nat (length data))) = Z.of_nat (length data)).
  { unfold capacity, ByteBuffer.new. simpl. rewrite length_replicate. lia. }
  rewrite Hc. simpl writePos.
  replace (0 + Z.of_nat (length data) >? Z.of_nat (length data)) with false by lia.
  rewrite store_all_eq; [|done|unfold capacity; simpl; rewrite length_replicate; lia].
  simpl. rewrite (drop_ge (replicate _ _)) by (rewrite length_replicate; lia).
  by rewrite app_nil_r.
Qed.

Lemma wf_from data : wf (ByteBuffer.from data).
Proof. rewrite from_eq. unfold wf, capacity. simpl. lia. Qed.

Lemma toUint8Array_from data : toUint8Array (ByteBuffer.from data) = data.
Proof. rewrite from_eq, toUint8Array_take. simpl. by rewrite Nat2Z.id, firstn_all. Qed.

(** X3 -- [writeBytes] appends the bytes it is given, whatever the state of the
    buffer, and [readBytes] of as many bytes reads them back and moves the
    read cursor past them. [ByteBuffer.from(data)] holds exactly [data],
    in a backing array of that length, all of it to read: [readBytes] of
    the whole returns [data], and the next [readByte] is an underflow. *)
Theorem writeBytes_readBytes (data : list Z) :
  writes (writeBytes data) data ∧
  reads (readBytes (Z.of_nat (length data))) data data ∧
  toUint8Array (ByteBuffer.from data) = data ∧
  capacity (ByteBuffer.from data) = Z.of_nat (length data) ∧
  readPosition (ByteBuffer.from data) = 0 ∧
  result (readBytes (Z.of_nat (length data))) (ByteBuffer.from data) = Normal data ∧
  result (readBytes (Z.of_nat (length data));; readByte) (ByteBuffer.from data)
  = Throw (BufferUnderflow 1 0).
Proof.
  split; [apply writes_writeBytes|]. split; [apply reads_readBytes|].
  split; [apply toUint8Array_from|].
  split; [by rewrite from_eq|]. split; [by rewrite from_eq|].
  assert (E : readBytes (Z.of_nat (length data)) (ByteBuffer.from data)
              = (Normal data,
                 set_readPos (readPos (ByteBuffer.from data) + Z.of_nat (length data))
                   (ByteBuffer.from data))).
  { apply (reads_readBytes data _ []); [apply wf_from|].
    rewrite toUint8Array_from, from_eq. simpl. by rewrite app_nil_r. }
  split; [unfold result; by rewrite E|].
  rewrite (result_bind_normal _ _ _ _ _ E). unfold result, readByte.
  unfold mbind, M_bind. rewrite advance_eq, from_eq. unfold available. simpl.
  replace (Z.of_nat (length data) - (0 + Z.of_nat (length data))) with 0 by lia.
  done.
Qed.

Lemma writes_writeByte_mod value : writes (writeByte value) [value mod 256].
Proof. rewrite <- land_255. apply writes_writeByte. Qed.

(** X4 -- [writeByte] keeps the low 8 bits of the number it is given: the byte
    written, and read back by [readByte], is the number modulo 256. *)
Theorem writeByte_truncates (value : Z) :
  writes (writeByte value) [value mod 256] ∧
  reads readByte [value mod 256] (value mod 256) ∧
  ∀ b, wf b → readPos b = writePos b →
    result (writeByte value;; readByte) b = Normal (value mod 256).
Proof.
  pose proof (writes_writeByte_mod value) as Hw.
  split; [done|]. split; [apply reads_readByte|].
  intros b Hb Hall. destruct (Hw b Hb) as (b' & E & Hb' & Hbs & Hpos).
  rewrite (result_bind_normal _ _ _ _ _ E). unfold result.
  rewrite (reads_readByte (value mod 256) b' [] Hb'); [done|].
  rewrite Hbs, Hpos, Hall, <- (length_toUint8Array b Hb), Nat2Z.id.
  by rewrite drop_app_length.
Qed.

Lemma writeByte_truncates_witness :
  result (writeByte 511;; readByte) (ByteBuffer.new 256) = Normal 255 ∧
  result (writeByte (-1);; readByte) (ByteBuffer.new 256) = Normal 255.
Proof.
  destruct (writeByte_truncates 511) as (_ & _ & H1).
  destruct (writeByte_truncates (-1)) as (_ & _ & H2).
  split; [apply (H1 (ByteBuffer.new 256) (wf_new 256) eq_refl)
         |apply (H2 (ByteBuffer.new 256) (wf_new 256) eq_refl)].
Defined.

(** X5 -- A buffer is reused as a new one after [clear]: what a writer appends is
    then all the buffer holds, and the backing array is kept. After
    [resetRead] the bytes written so far are read again from the first. *)
Theorem clear_resetRead (b : t) :
  wf b →
  (∀ m bs, writes m bs → toUint8Array (run (clear;; m) b) = bs
                          ∧ readPosition (run (clear;; m) b) = 0) ∧
  capacity (run clear b) = capacity b ∧
  available (run clear b) = 0 ∧
  (∀ A (m : M t A) bs rest a, reads m bs a → toUint8Array b = bs ++ rest →
     result (resetRead;; m) b = Normal a
     ∧ readPosition (run (resetRead;; m) b) = Z.of_nat (length bs)) ∧
  toUint8Array (run resetRead b) = toUint8Array b.
Proof.
  intros Hb.
  assert (Hc : wf (run clear b)).
  { destruct Hb as (? & ? & ?). unfold wf, capacity in *. simpl. lia. }
  assert (Hr : wf (run resetRead b)).
  { destruct Hb as (? & ? & ?). unfold wf, capacity in *. simpl. lia. }
  split_and!; try done.
  - intros m bs Hm. destruct (Hm _ Hc) as (b' & E & _ & Hbs & Hpos).
    assert (E' : (clear;; m) b = (Normal (), b')) by exact E.
    unfold run at 1 2. rewrite E'. simpl. split; [|unfold readPosition; by rewrite Hpos].
    rewrite Hbs. by rewrite toUint8Array_take.
  - intros A m bs rest a Hm Hbs.
    pose proof (Hm (run resetRead b) rest Hr) as E. simpl in E.
    rewrite drop_0 in E. specialize (E Hbs).
    assert (E' : (resetRead;; m) b = (Normal a, set_readPos (0 + Z.of_nat (length bs)) (run resetRead b)))
      by exact E.
    unfold result, run at 1. by rewrite E'.
Qed.

Lemma clear_resetRead_witness :
  toUint8Array (run (clear;; writeByte 9) (ByteBuffer.from [1; 2; 3])) = [9] ∧
  result (resetRead;; readByte) (run (readBytes 2) (ByteBuffer.from [1; 2; 3])) = Normal 1.
Proof.
  destruct (clear_resetRead (ByteBuffer.from [1; 2; 3]) (wf_from _)) as (H1 & _).
  destruct (H1 (writeByte 9) [9 mod 256] (writes_writeByte_mod 9)) as [E1 _].
  split; [exact E1|].
  assert (Hb : wf (run (readBytes 2) (ByteBuffer.from [1; 2; 3]))).
  { unfold wf. vm_compute. repeat split; discriminate. }
  destruct (clear_resetRead _ Hb) as (_ & _ & _ & H2 & _).
  destruct (H2 Z readByte [1] [2; 3] 1 (reads_readByte 1) eq_refl) as [E2 _].
  exact E2.
Defined.

End ByteBufferMore.

(** ** PacketEncoder: any input of decode, the text of encode *)

Section PacketEncoderMore.
Import ByteBuffer PacketEncoder.

Lemma writes_unique m bs bs' : writes m bs → writes m bs' → bs = bs'.
Proof.
  intros H H'. destruct (H _ (wf_new 0)) as (b1 & E1 & _ & W1 & _).
  destruct (H' _ (wf_new 0)) as (b2 & E2 & _ & W2 & _).
  rewrite E1 in E2. simplify_eq. rewrite W1 in W2. by simplify_list_eq.
Qed.

Lemma writes_two_bytes x y :
  writes (writeByte x;; writeByte y) [x mod 256; y mod 256].
Proof. apply (writes_bind _ _ [_] [_]); apply writes_writeByte_mod. Qed.

Lemma is_byte_mod x : is_byte (x mod 256).
Proof. unfold is_byte. apply Z.mod_pos_bound. lia. Qed.

(** One fragment, whatever its text: every turn of the inner loop writes
    two bytes. *)
Lemma writes_decode_fragment n : ∀ fragment, (length fragment ≤ n)%nat →
  ∃ bs, writes (decode_fragment fragment) bs ∧ Nat.Even (length bs) ∧ Forall is_byte bs.
Proof.
  induction n as [|n IH]; intros fragment Hn.
  { destruct fragment; [|simpl in Hn; lia]. exists []. split; [apply writes_ret|].
    split; [by exists 0%nat|constructor]. }
  destruct fragment as [|c rest].
  { exists []. split; [apply writes_ret|]. split; [by exists 0%nat|constructor]. }
  simpl in Hn. cbn [decode_fragment].
  assert (Hpair : ∀ x y bs, Nat.Even (length bs) → Forall is_byte bs →
    Nat.Even (length ([x mod 256; y mod 256] ++ bs))
    ∧ Forall is_byte ([x mod 256; y mod 256] ++ bs)).
  { intros x y bs [k Hk] Hbs. split.
    - exists (S k). simpl. lia.
    - repeat constructor; try apply is_byte_mod. done. }
  destruct (c <=? 255).
  - destruct rest as [|c2 rest'].
    + eexists. split; [apply writes_two_bytes|]. apply (Hpair _ _ []); [by exists 0%nat|constructor].
    + destruct (IH rest') as (bs & Hw & He & Hb); [simpl in Hn; lia|].
      eexists. split; [apply writes_bind; [apply writes_two_bytes|exact Hw]|].
      by apply Hpair.
  - destruct (IH rest) as (bs & Hw & He & Hb); [lia|].
    eexists. split; [apply writes_bind; [apply writes_two_bytes|exact Hw]|].
    by apply Hpair.
Qed.

Lemma writes_decode_loop fragments :
  ∃ bs, writes (decode_loop fragments) bs ∧ Nat.Even (length bs) ∧ Forall is_byte bs.
Proof.
  induction fragments as [|fragment rest (bs & Hw & [k Hk] & Hb)].
  { exists []. split; [apply writes_ret|]. split; [by exists 0%nat|constructor]. }
  destruct (writes_decode_fragment (length fragment) fragment) as (bs1 & Hw1 & [k1 Hk1] & Hb1);
    [done|].
  cbn [decode_loop]. case_bool_decide as E.
  - exists bs. split; [apply (writes_bind _ _ [] bs); [apply writes_ret|done]|].
    split; [by exists k|done].
  - exists (bs1 ++ bs). split; [by apply writes_bind|]. split.
    + exists (k1 + k)%nat. rewrite length_app. lia.
    + by apply Forall_app.
Qed.

Lemma decode_writes fragments bs :
  writes (decode_loop fragments) bs →
  decode_loop fragments (ByteBuffer.new 256) = (Normal (), run (decode_loop fragments) (ByteBuffer.new 256)) ∧
  toUint8Array (decode fragments) = bs ∧ readPos (decode fragments) = 0 ∧ wf (decode fragments).
Proof.
  intros Hw. destruct (Hw _ (wf_new 256)) as (b' & E & Hb' & W & _).
  rewrite new_buffer_empty in W by lia. simpl in W.
  unfold run at 1. rewrite E. split; [done|].
  assert (Hd : decode fragments = set_readPos 0 b').
  { unfold decode. case_bool_decide as El.
    - destruct fragments; [|done]. cbv [decode_loop mret M_ret] in E. by simplify_eq.
    - unfold run. by rewrite (bind_normal _ _ _ _ _ E). }
  rewrite Hd. split; [by rewrite <- W|]. split; [done|].
  destruct Hb' as (? & ? & ?). unfold wf, capacity in *. simpl. lia.
Qed.

(** X6 -- [decode] takes any list of strings, well-formed or not, and never
    throws: the buffer it returns holds an even number of bytes, two for
    every turn of its inner loop, and is read from the first. *)
Theorem decode_any_input (fragments : list (list Z)) :
  result (decode_loop fragments) (ByteBuffer.new 256) = Normal () ∧
  Nat.Even (length (toUint8Array (decode fragments))) ∧
  Forall is_byte (toUint8Array (decode fragments)) ∧
  readPosition (decode fragments) = 0 ∧
  available (decode fragments) = Z.of_nat (length (toUint8Array (decode fragments))).
Proof.
  destruct (writes_decode_loop fragments) as (bs & Hw & He & Hb).
  destruct (decode_writes fragments bs Hw) as (E & <- & Hr & Hwf).
  unfold result. rewrite E. split; [done|]. split; [done|]. split; [done|].
  split; [done|]. unfold available. rewrite Hr, length_toUint8Array by done. lia.
Qed.

Lemma decode_loop_app fs1 fs2 bs1 bs2 :
  writes (decode_loop fs1) bs1 → writes (decode_loop fs2) bs2 →
  writes (decode_loop (fs1 ++ fs2)) (bs1 ++ bs2).
Proof.
  revert bs1. induction fs1 as [|f fs1 IH]; intros bs1 H1 H2.
  - rewrite (writes_unique _ _ _ H1 writes_ret). done.
  - destruct (writes_decode_fragment (length f) f) as (bf & Hf & _); [done|].
    destruct (writes_decode_loop fs1) as (br & Hr & _).
    assert (Hhead : writes (if bool_decide (f = []) then mret () else decode_fragment f)
                      (if bool_decide (f = []) then [] else bf)).
    { case_bool_decide; [apply writes_ret|done]. }
    pose proof (writes_bind _ _ _ _ Hhead Hr) as H1'.
    rewrite (writes_unique _ _ _ H1 H1'). rewrite <- app_assoc.
    cbn [app decode_loop]. apply writes_bind; [done|]. by apply IH.
Qed.

(** X7 -- [decode] goes through the fragments one after the other: the bytes of
    a list of fragments are those of its parts, in order, and an empty
    fragment adds nothing. *)
Theorem decode_concatenates (fs1 fs2 : list (list Z)) :
  toUint8Array (decode (fs1 ++ fs2)) = toUint8Array (decode fs1) ++ toUint8Array (decode fs2) ∧
  toUint8Array (decode (fs1 ++ [] :: fs2)) = toUint8Array (decode (fs1 ++ fs2)) ∧
  toUint8Array (decode []) = [].
Proof.
  destruct (writes_decode_loop fs1) as (bs1 & Hw1 & _).
  destruct (writes_decode_loop fs2) as (bs2 & Hw2 & _).
  destruct (decode_writes _ _ Hw1) as (_ & -> & _).
  destruct (decode_writes _ _ Hw2) as (_ & -> & _).
  destruct (decode_writes _ _ (decode_loop_app _ _ _ _ Hw1 Hw2)) as (_ & E & _).
  assert (Hw2' : writes (decode_loop ([] :: fs2)) bs2).
  { cbn [decode_loop]. rewrite bool_decide_true by done.
    apply (writes_bind _ _ [] bs2); [apply writes_ret|done]. }
  destruct (decode_writes _ _ (decode_loop_app _ _ _ _ Hw1 Hw2')) as (_ & E' & _).
  split; [done|]. split; [by rewrite E, E'|done].
Qed.

(** *** The text of [encode] *)

Lemma units_text_concat pss : concat (map units_text pss) = units_text (concat pss).
Proof.
  induction pss as [|ps pss IH]; [done|]. simpl. by rewrite units_text_app, IH.
Qed.

Lemma units_cost_nonneg ps : 0 ≤ units_cost ps.
Proof.
  induction ps as [|p ps IH]; simpl; [done|].
  assert (1 ≤ charSize_of (charCode_of p.1 p.2)); [|lia].
  unfold charSize_of. repeat case_match; lia.
Qed.

Lemma encode_units_fits maxSize l : ∀ ps,
  units_cost (ps ++ l) ≤ maxSize →
  foldl (encode_units_step maxSize) ([], ps) l = ([], ps ++ l).
Proof.
  induction l as [|p l IH]; intros ps H; simpl; [by rewrite app_nil_r|].
  unfold encode_units_step at 2. cbn [fst snd].
  rewrite units_cost_app in H. simpl in H.
  pose proof (units_cost_nonneg l). pose proof (units_cost_nonneg ps).
  destruct (Z.gtb_spec (units_cost ps + charSize_of (charCode_of p.1 p.2)) maxSize); [lia|].
  rewrite IH; [by rewrite <- app_assoc|].
  rewrite !units_cost_app. simpl. lia.
Qed.

(** X8 -- The budget only decides where [encode] cuts: joined, the fragments are
    the same text under every budget, and a buffer whose whole text costs
    no more than the budget is one fragment. *)
Theorem encode_cuts_one_text (buffer : ByteBuffer.t) (maxSize : Z) :
  Forall is_byte (toUint8Array buffer) →
  (∀ maxSize', concat (encode buffer maxSize) = concat (encode buffer maxSize')) ∧
  (fragment_cost (concat (encode buffer maxSize)) ≤ maxSize →
   encode buffer maxSize = [concat (encode buffer maxSize)]).
Proof.
  intros Hb.
  assert (Ht : ∀ m, concat (encode buffer m) = units_text (byte_pairs (toUint8Array buffer))).
  { intros m. destruct (encode_units buffer m Hb) as (pss & -> & Hc & _).
    by rewrite units_text_concat, Hc. }
  split; [intros; by rewrite !Ht|].
  rewrite Ht, fragment_cost_units by by apply byte_pairs_bytes.
  intros Hfit. unfold encode.
  change {| fragments := []; currentFragment := []; currentSize := 0 |}
    with (encode_state_of ([], [])).
  rewrite encode_loop_units, encode_units_fits by done. simpl.
  by rewrite orb_true_r.
Qed.

Lemma encode_cuts_one_text_witness :
  concat (encode (ByteBuffer.from [1; 0; 2; 0; 3; 3]) 4)
  = concat (encode (ByteBuffer.from [1; 0; 2; 0; 3; 3]) 2048) ∧
  encode (ByteBuffer.from [1; 0; 2; 0; 3; 3]) 2048 = [str "0102" ++ [771]].
Proof.
  destruct (encode_cuts_one_text (ByteBuffer.from [1; 0; 2; 0; 3; 3]) 4) as [H1 _].
  { rewrite toUint8Array_from. repeat constructor; unfold is_byte; lia. }
  destruct (encode_cuts_one_text (ByteBuffer.from [1; 0; 2; 0; 3; 3]) 2048) as [_ H2].
  { rewrite toUint8Array_from. repeat constructor; unfold is_byte; lia. }
  split; [apply H1|]. rewrite H2; [reflexivity|]. vm_compute. discriminate.
Defined.

Lemma encode_length_pos buffer maxSize : (1 ≤ length (encode buffer maxSize))%nat.
Proof.
  unfold encode. destruct (encode_loop _ _ _) as [fs cur size]. simpl.
  case_bool_decide as E1; simpl; [rewrite length_app; simpl; lia|].
  case_bool_decide as E2; simpl; [rewrite length_app; simpl; lia|lia].
Qed.

Lemma byte_pairs_nil (bs : list Z) : byte_pairs bs = [] → bs = [].
Proof. by destruct bs as [|? [|]]. Qed.

Lemma encode_all_nonempty buffer maxSize :
  Forall is_byte (toUint8Array buffer) → 3 ≤ maxSize → toUint8Array buffer ≠ [] →
  Forall (λ fragment, fragment ≠ []) (encode buffer maxSize).
Proof.
  intros Hb Hm Hne. destruct (encode_nonempty buffer maxSize Hb Hm) as [E|H]; [|done].
  destruct (encode_units buffer maxSize Hb) as (pss & E' & Hc & _).
  assert (Hp : Forall (Forall byte_pair) pss).
  { apply Forall_concat. rewrite Hc. by apply byte_pairs_bytes. }
  rewrite E in E'. destruct pss as [|ps [|]]; try done. simpl in E'.
  injection E' as E'. symmetry in E'. apply units_text_nil in E'; [|by inversion Hp].
  subst ps. simpl in Hc. symmetry in Hc. by apply byte_pairs_nil in Hc.
Qed.

(** What [decode] makes of the fragments of a buffer. *)
Lemma decode_encode_buffer buffer maxSize :
  Forall is_byte (toUint8Array buffer) →
  toUint8Array (decode (encode buffer maxSize))
  = toUint8Array buffer ++ (if Nat.odd (length (toUint8Array buffer)) then [0] else []) ∧
  readPos (decode (encode buffer maxSize)) = 0 ∧ wf (decode (encode buffer maxSize)).
Proof.
  intros Hb. destruct (encode_units buffer maxSize Hb) as (pss & -> & Hc & _).
  assert (Hp : Forall (Forall byte_pair) pss).
  { apply Forall_concat. rewrite Hc. by apply byte_pairs_bytes. }
  destruct (decode_writes _ _ (decode_loop_units pss Hp)) as (_ & -> & Hr & Hwf).
  by rewrite Hc, units_bytes_pairs.
Qed.

Lemma length_byte_pairs (bs : list Z) : length (byte_pairs bs) = Nat.div2 (S (length bs)).
Proof.
  induction bs as [|x|x y l IH] using list_pair_ind; [done..|].
  cbn [byte_pairs length]. by rewrite IH.
Qed.

Lemma encode_length_le buffer maxSize :
  Forall is_byte (toUint8Array buffer) → 3 ≤ maxSize →
  (length (encode buffer maxSize) ≤ Nat.max 1 (Nat.div2 (S (length (toUint8Array buffer)))))%nat.
Proof.
  intros Hb Hm. destruct (encode_units buffer maxSize Hb) as (pss & -> & Hc & Hk).
  destruct (Hk Hm) as [_ Hne].
  rewrite length_map, <- length_byte_pairs, <- Hc. destruct Hne as [->|Hne]; [simpl; lia|].
  apply Nat.max_le_iff. right.
  clear -Hne. induction Hne as [|ps pss Hps _ IH]; [done|].
  simpl. rewrite length_app. destruct ps; [done|]. simpl. lia.
Qed.

Lemma hex_byte_all c : is_byte c → hex_byte_ok c = true.
Proof. apply (byte_cases hex_byte_ok). by vm_compute. Qed.

Lemma unit_text_alphabet p :
  byte_pair p → Forall (λ c, is_hex_upper c ∨ 255 < c < 2 ^ 16) (unit_text p).
Proof.
  intros Hp. pose proof Hp as [Hl Hh]. unfold is_byte in *.
  unfold unit_text. rewrite charCode_of_bytes by done.
  destruct (Z.gtb_spec (p.1 + 256 * p.2) 255).
  - unfold String_fromCharCode. rewrite Z.mod_small by lia. constructor; [right; lia|constructor].
  - assert (p.2 = 0) as -> by lia. replace (p.1 + 256 * 0) with p.1 by lia.
    pose proof (hex_byte_all p.1 Hl) as Hok. unfold hex_byte_ok in Hok.
    destruct (toUpperCase _) as [|h1 [|h2 [|]]]; try done.
    apply andb_prop in Hok as [Hok _]. apply andb_prop in Hok as [H1 H2].
    unfold is_hex_upper. constructor; [left; lia|]. constructor; [left; lia|constructor].
Qed.

(** X9 -- Under a budget of 3 or more, [encode] returns no empty fragment but
    the single one of an empty buffer, and at most one fragment for every
    two bytes; a fragment holds upper-case hexadecimal digits and
    characters above 0xFF, nothing else. *)
Theorem encode_fragments_shape (buffer : ByteBuffer.t) (maxSize : Z) :
  Forall is_byte (toUint8Array buffer) →
  3 ≤ maxSize →
  (toUint8Array buffer ≠ [] → Forall (λ fragment, fragment ≠ []) (encode buffer maxSize)) ∧
  (1 ≤ length (encode buffer maxSize) ≤ Nat.max 1 (Nat.div2 (S (length (toUint8Array buffer)))))%nat ∧
  Forall (Forall (λ c, is_hex_upper c ∨ 255 < c < 2 ^ 16)) (encode buffer maxSize).
Proof.
  intros Hb Hm. pose proof (encode_length_pos buffer maxSize) as Hpos.
  destruct (encode_units buffer maxSize Hb) as (pss & E & Hc & Hk).
  rewrite E in *. clear E.
  destruct (Hk Hm) as [_ Hne]. clear Hk.
  assert (Hp : Forall (Forall byte_pair) pss).
  { apply Forall_concat. rewrite Hc. by apply byte_pairs_bytes. }
  assert (Hlen : ∀ bs : list Z, length (byte_pairs bs) = Nat.div2 (S (length bs))).
  { induction bs as [|x|x y l IH] using list_pair_ind; [done..|].
    cbn [byte_pairs length]. rewrite IH. done. }
  split_and!.
  - intros Hbytes. destruct Hne as [->|Hne].
    + simpl in Hc. destruct (toUint8Array buffer) as [|? [|]]; done.
    + apply Forall_map. rewrite Forall_forall in *. intros ps Hin E.
      apply units_text_nil in E; [|auto]. by apply (Hne ps).
  - done.
  - rewrite length_map, <- Hlen, <- Hc. destruct Hne as [->|Hne]; [simpl; lia|].
    apply Nat.max_le_iff. right.
    clear -Hne. induction Hne as [|ps pss Hps _ IH]; [done|].
    simpl. rewrite length_app. destruct ps; [done|]. simpl. lia.
  - apply Forall_map. eapply Forall_impl; [exact Hp|]. intros ps Hps. simpl.
    unfold units_text. apply Forall_concat, Forall_map.
    eapply Forall_impl; [exact Hps|]. intros p. apply unit_text_alphabet.
Qed.

Lemma encode_fragments_shape_witness :
  Z.of_nat (length (encode (ByteBuffer.from [1; 0; 2; 0; 3; 3]) 4)) ≤ 3.
Proof.
  destruct (encode_fragments_shape (ByteBuffer.from [1; 0; 2; 0; 3; 3]) 4) as (_ & [_ H] & _).
  - rewrite toUint8Array_from. repeat constructor; unfold is_byte; lia.
  - lia.
  - rewrite toUint8Array_from in H.
    change (Nat.max 1 (Nat.div2 (S (length [1; 0; 2; 0; 3; 3])))) with 3%nat in H. lia.
Defined.

End PacketEncoderMore.

(** ** HeaderCodec: the hexadecimal text of a buffer *)

Section HeaderCodecMore.
Import ByteBuffer HeaderCodec.

Lemma encode_loop_hex bytes : ∀ hex, encode_loop bytes hex = hex ++ bytes_hex bytes.
Proof.
  induction bytes as [|c bytes IH]; intros hex; simpl; [by rewrite app_nil_r|].
  rewrite IH. unfold bytes_hex. simpl. by rewrite <- app_assoc.
Qed.

Lemma encodeToHex_eq buffer :
  encodeToHex buffer = str "(0x" ++ bytes_hex (toUint8Array buffer) ++ str ")".
Proof. unfold encodeToHex. by rewrite encode_loop_hex, <- app_assoc. Qed.

Lemma byte_hex_cases c :
  is_byte c →
  ∃ h1 h2, byte_hex c = [h1; h2] ∧ is_hex_upper h1 ∧ is_hex_upper h2
         ∧ nan_as_zero (parseInt16 [h1; h2]) = c.
Proof.
  intros Hc. pose proof (hex_byte_all c Hc) as Hok. unfold hex_byte_ok in Hok.
  unfold byte_hex. destruct (toUpperCase _) as [|h1 [|h2 [|]]]; try done.
  apply andb_prop in Hok as [Hok H3]. apply andb_prop in Hok as [H1 H2].
  exists h1, h2. unfold is_hex_upper. split_and!; [done|lia..].
Qed.

Lemma length_bytes_hex bytes :
  Forall is_byte bytes → length (bytes_hex bytes) = (2 * length bytes)%nat.
Proof.
  induction 1 as [|c bytes Hc _ IH]; [done|].
  destruct (byte_hex_cases c Hc) as (h1 & h2 & E & _).
  unfold bytes_hex in *. simpl. rewrite E. simpl. lia.
Qed.

Lemma decode_loop_hex bytes :
  Forall is_byte bytes → writes (decode_loop (bytes_hex bytes)) bytes.
Proof.
  induction 1 as [|c bytes Hc _ IH]; [apply writes_ret|].
  destruct (byte_hex_cases c Hc) as (h1 & h2 & E & _ & _ & Hp).
  unfold bytes_hex in *. simpl. rewrite E. cbn [app decode_loop].
  assert (Hw : writes (writeByte (nan_as_zero (parseInt16 [h1; h2]))) [c]).
  { rewrite Hp. by apply writes_byte. }
  apply (writes_bind _ _ [c] bytes); done.
Qed.

Lemma endsWith_app s c : endsWith [c] (s ++ [c]) = true.
Proof. unfold endsWith. rewrite reverse_app. simpl. by rewrite Z.eqb_refl. Qed.

Lemma String_slice_wrapped content c :
  String_slice 3 (-1) (str "(0x" ++ content ++ [c]) = content.
Proof.
  unfold String_slice. rewrite !length_app.
  change (length (str "(0x")) with 3%nat. cbn [length].
  change (-1 <? 0) with true. change (3 <? 0) with false. cbv iota.
  set (n := length content).
  replace (Z.to_nat (_ - _)) with n by lia.
  replace (Z.to_nat _) with 3%nat by lia.
  subst n. simpl. by rewrite drop_0, take_app_length.
Qed.

Lemma decodeFromHex_wrapped content bs :
  writes (decode_loop content) bs →
  toUint8Array (decodeFromHex (str "(0x" ++ content ++ str ")")) = bs
  ∧ readPos (decodeFromHex (str "(0x" ++ content ++ str ")")) = 0
  ∧ wf (decodeFromHex (str "(0x" ++ content ++ str ")")).
Proof.
  intros Hw. unfold decodeFromHex.
  assert (Hs : startsWith (str "(0x") (str "(0x" ++ content ++ str ")") = true) by done.
  assert (He : endsWith (str ")") (str "(0x" ++ content ++ str ")") = true).
  { rewrite (app_assoc _ content). apply endsWith_app. }
  pose proof (String_slice_wrapped content 41) as Hsl. change [41] with (str ")") in Hsl.
  rewrite Hs, He, Hsl. simpl andb. cbv iota.
  destruct (Hw _ (wf_new 256)) as (b' & E & Hb' & W & _).
  rewrite new_buffer_empty in W by lia. simpl in W.
  unfold run. rewrite (bind_normal _ _ _ _ _ E). simpl.
  split; [by rewrite <- W|]. split; [done|].
  destruct Hb' as (? & ? & ?). unfold wf, capacity in *. simpl. lia.
Qed.

Lemma decodeFromHex_encodeToHex buffer :
  Forall is_byte (toUint8Array buffer) →
  toUint8Array (decodeFromHex (encodeToHex buffer)) = toUint8Array buffer
  ∧ readPos (decodeFromHex (encodeToHex buffer)) = 0
  ∧ wf (decodeFromHex (encodeToHex buffer)).
Proof.
  intros Hb. rewrite encodeToHex_eq. by apply decodeFromHex_wrapped, decode_loop_hex.
Qed.

(** X10 -- [decodeFromHex] gives back the bytes [encodeToHex] wrote, all of them
    and no more, ready to be read from the first; the text is ["(0x"],
    two upper-case hexadecimal digits for every byte, and [")"]. *)
Theorem hex_codec_roundtrip (buffer : ByteBuffer.t) :
  Forall is_byte (toUint8Array buffer) →
  toUint8Array (decodeFromHex (encodeToHex buffer)) = toUint8Array buffer ∧
  readPosition (decodeFromHex (encodeToHex buffer)) = 0 ∧
  (∃ digits, encodeToHex buffer = str "(0x" ++ digits ++ str ")"
           ∧ length digits = (2 * length (toUint8Array buffer))%nat
           ∧ Forall is_hex_upper digits).
Proof.
  intros Hb. destruct (decodeFromHex_encodeToHex buffer Hb) as (E & Hr & _).
  split; [done|]. split; [done|].
  exists (bytes_hex (toUint8Array buffer)). split; [apply encodeToHex_eq|].
  split; [by apply length_bytes_hex|].
  unfold bytes_hex. apply Forall_concat, Forall_map.
  eapply Forall_impl; [exact Hb|]. intros c Hc. simpl.
  destruct (byte_hex_cases c Hc) as (h1 & h2 & -> & H1 & H2 & _).
  constructor; [done|]. constructor; [done|constructor].
Qed.

Lemma hex_codec_roundtrip_witness :
  toUint8Array (decodeFromHex (encodeToHex (ByteBuffer.from [0; 10; 255]))) = [0; 10; 255] ∧
  encodeToHex (ByteBuffer.from [0; 10; 255]) = str "(0x000AFF)".
Proof.
  destruct (hex_codec_roundtrip (ByteBuffer.from [0; 10; 255])) as (E & _).
  - rewrite toUint8Array_from. repeat constructor; unfold is_byte; lia.
  - rewrite toUint8Array_from in E. split; [exact E|reflexivity].
Defined.

(** One byte for every two characters, whatever they are. *)
Lemma writes_decode_loop_any n : ∀ content, (length content ≤ n)%nat →
  ∃ bs, writes (decode_loop content) bs
      ∧ length bs = Nat.div2 (S (length content)) ∧ Forall is_byte bs.
Proof.
  induction n as [|n IH]; intros content Hn.
  { destruct content; [|simpl in Hn; lia]. exists []. split; [apply writes_ret|]. split; [done|constructor]. }
  destruct content as [|c1 [|c2 rest]].
  - exists []. split; [apply writes_ret|]. split; [done|constructor].
  - eexists. split; [apply writes_writeByte_mod|]. split; [done|].
    constructor; [apply is_byte_mod|constructor].
  - destruct (IH rest) as (bs & Hw & Hl & Hb); [simpl in Hn; lia|].
    eexists. split; [apply writes_bind; [apply writes_writeByte_mod|exact Hw]|].
    split; [simpl; by rewrite Hl|]. constructor; [apply is_byte_mod|done].
Qed.

(** X11 -- [decodeFromHex] never throws. A text without the ["(0x"] and [")"]
    around it decodes to an empty buffer, whatever it holds; inside them,
    every two characters, and a last single one, give one byte, digits or
    not. *)
Theorem decodeFromHex_any_text (hex : list Z) :
  (startsWith (str "(0x") hex = false ∨ endsWith (str ")") hex = false →
   toUint8Array (decodeFromHex hex) = [] ∧ readPosition (decodeFromHex hex) = 0) ∧
  (∀ content, hex = str "(0x" ++ content ++ str ")" →
     length (toUint8Array (decodeFromHex hex)) = Nat.div2 (S (length content)) ∧
     Forall is_byte (toUint8Array (decodeFromHex hex)) ∧
     readPosition (decodeFromHex hex) = 0).
Proof.
  split.
  - intros H. unfold decodeFromHex.
    replace (startsWith _ _ && endsWith _ _) with false; [done|].
    destruct H as [-> | ->]; [done|by rewrite andb_false_r].
  - intros content ->.
    destruct (writes_decode_loop_any (length content) content) as (bs & Hw & Hl & Hb); [done|].
    destruct (decodeFromHex_wrapped content bs Hw) as (-> & Hr & _). done.
Qed.

Lemma decodeFromHex_any_text_witness :
  toUint8Array (decodeFromHex (str "0x0102")) = [] ∧
  length (toUint8Array (decodeFromHex (str "(0x01zz7)"))) = 3%nat.
Proof.
  destruct (decodeFromHex_any_text (str "0x0102")) as (H1 & _).
  destruct (decodeFromHex_any_text (str "(0x01zz7)")) as (_ & H2).
  split; [apply H1; by left|]. by destruct (H2 (str "01zz7") eq_refl) as [-> _].
Defined.

End HeaderCodecMore.

(** ** Serializers store bytes *)

Section BytesOnly.
Import ByteBuffer Serializer.

Lemma keeps_ret {A} (a : A) : keeps_bytes (mret a).
Proof. by intros b Hb. Qed.

Lemma keeps_throw {A} e : keeps_bytes (throw e : M ByteBuffer.t A).
Proof. by intros b Hb. Qed.

Lemma keeps_bind {A B} (m : M ByteBuffer.t A) (k : A → M ByteBuffer.t B) :
  keeps_bytes m → (∀ a, keeps_bytes (k a)) → keeps_bytes (m ≫= k).
Proof.
  intros Hm Hk b Hb. specialize (Hm b Hb). unfold run, mbind, M_bind in *.
  destruct (m b) as [[a|e] b']; simpl in *; [by apply (Hk a)|done].
Qed.

Lemma keeps_fmap {A B} (f : A → B) (m : M ByteBuffer.t A) :
  keeps_bytes m → keeps_bytes (f <$> m).
Proof. intros Hm. apply keeps_bind; [done|]. intros. apply keeps_ret. Qed.

Lemma keeps_allocate size : keeps_bytes (allocate size).
Proof.
  intros b Hb. unfold run. rewrite allocate_eq. simpl.
  destruct (_ >? _); [|done]. apply Forall_app. split; [done|].
  apply Forall_forall. intros x [-> _]%elem_of_replicate. unfold is_byte. lia.
Qed.

Lemma keeps_store offset v : is_byte v → keeps_bytes (store offset v).
Proof. intros Hv b Hb. simpl. by apply Forall_insert. Qed.

Lemma keeps_store_all data : Forall is_byte data → ∀ offset, keeps_bytes (store_all offset data).
Proof.
  induction 1 as [|x data Hx _ IH]; intros offset; simpl; [apply keeps_ret|].
  apply keeps_bind; [by apply keeps_store|]. intros. apply IH.
Qed.

Lemma keeps_writeByte value : keeps_bytes (writeByte value).
Proof.
  apply keeps_bind; [apply keeps_allocate|]. intros offset.
  apply keeps_store. rewrite js_and_255, land_255. apply is_byte_mod.
Qed.

Lemma keeps_writeBytes data : Forall is_byte data → keeps_bytes (writeBytes data).
Proof.
  intros Hd. apply keeps_bind; [apply keeps_allocate|]. intros. by apply keeps_store_all.
Qed.

Lemma be_bytes_bytes n v : Forall is_byte (DataView.be_bytes n v).
Proof. induction n as [|n IH]; simpl; constructor; [apply is_byte_mod|done]. Qed.

Lemma keeps_setUint n offset v : keeps_bytes (DataView.setUint n offset v).
Proof.
  apply keeps_bind.
  - apply keeps_bind; [by intros b Hb|]. intros len.
    destruct (_ || _); [apply keeps_throw|apply keeps_ret].
  - intros. apply keeps_store_all, be_bytes_bytes.
Qed.

Lemma keeps_allocate_setUint n size v : keeps_bytes (allocate size ≫= λ offset, DataView.setUint n offset v).
Proof. apply keeps_bind; [apply keeps_allocate|]. intros. apply keeps_setUint. Qed.

Lemma keeps_VarUInt32_while fuel : ∀ v, keeps_bytes (VarUInt32_while fuel v).
Proof.
  induction fuel as [|fuel IH]; intros v; cbn [VarUInt32_while];
    destruct (v >=? 128); try apply keeps_writeByte; [apply keeps_ret|].
  apply keeps_bind; [apply keeps_writeByte|]. intros. apply IH.
Qed.

Lemma keeps_VarUInt64_while fuel : ∀ v, keeps_bytes (VarUInt64_while fuel v).
Proof.
  induction fuel as [|fuel IH]; intros v; cbn [VarUInt64_while];
    destruct (v >=? 128); try apply keeps_writeByte; [apply keeps_ret|].
  apply keeps_bind; [apply keeps_writeByte|]. intros. apply IH.
Qed.

Lemma keeps_for_of {A} (body : A → M ByteBuffer.t unit) l :
  (∀ x, keeps_bytes (body x)) → keeps_bytes (for_of body l).
Proof.
  intros Hbody. induction l as [|x l IH]; simpl; [apply keeps_ret|].
  apply keeps_bind; [done|]. by intros.
Qed.

Lemma keeps_String_serialize s : keeps_bytes (String_serialize s).
Proof.
  apply keeps_bind; [apply keeps_VarUInt32_while|]. intros.
  apply keeps_for_of. intros. apply keeps_VarUInt32_while.
Qed.

Lemma keeps_primitive s v : is_primitive s → keeps_bytes (serialize s v).
Proof.
  intros Hp. destruct s; try done; cbn [serialize]; [apply keeps_writeByte|..];
    (destruct v; try apply keeps_throw;
     first [ apply keeps_VarUInt32_while
           | apply keeps_VarUInt64_while
           | apply keeps_String_serialize
           | apply keeps_bind; [apply keeps_allocate|intros; apply keeps_setUint] ]).
Qed.

Lemma keeps_child (c : option Serializer.t) v :
  (∀ s, c = Some s → ∀ v, keeps_bytes (serialize s v)) →
  keeps_bytes match c with
              | Some s => serialize s v
              | None => throw TypeError
              end.
Proof. intros Hc. destruct c as [s|]; [by apply Hc|apply keeps_throw]. Qed.

Lemma keeps_serialize s : ∀ v, keeps_bytes (serialize s v).
Proof.
  induction s as [s Hp|e IH|schema IH|l IH|e IH|k e IHk IHe|e IH] using serializer_ind;
    intros v.
  - by apply keeps_primitive.
  - cbn [serialize]. destruct v; try apply keeps_throw.
    apply keeps_bind; [apply keeps_VarUInt32_while|]. intros.
    apply keeps_for_of. intros x. by apply keeps_child.
  - destruct schema as [schema|]; [|apply keeps_ret].
    rewrite serialize_Object. specialize (IH schema eq_refl).
    induction IH as [|[key c] schema Hc _ IH']; cbn [serialize_fields]; [apply keeps_ret|].
    apply keeps_bind; [|by intros].
    destruct c as [s|]; [|apply keeps_throw].
    destruct v; try apply keeps_throw. by apply (Hc s).
  - destruct l as [l|]; [|apply keeps_throw].
    rewrite serialize_Tuple. specialize (IH l eq_refl). generalize 0%nat.
    induction IH as [|c l Hc _ IH']; intros i; cbn [serialize_items]; [apply keeps_ret|].
    apply keeps_bind; [|by intros].
    destruct c as [s|]; [|apply keeps_throw].
    destruct v; try apply keeps_throw. by apply (Hc s).
  - cbn [serialize]. apply keeps_bind; [apply keeps_writeByte|]. intros.
    destruct v; try apply keeps_ret; by apply keeps_child.
  - cbn [serialize]. destruct v; try apply keeps_throw.
    apply keeps_bind; [apply keeps_VarUInt32_while|]. intros.
    apply keeps_for_of. intros kv.
    apply keeps_bind; [by apply keeps_child|]. intros. by apply keeps_child.
  - cbn [serialize]. destruct v; try apply keeps_throw.
    apply keeps_bind; [apply keeps_VarUInt32_while|]. intros.
    apply keeps_for_of. intros x. by apply keeps_child.
Qed.

Lemma new_bytes n : Forall is_byte (bytes (ByteBuffer.new n)).
Proof.
  simpl. apply Forall_forall. intros x [-> _]%elem_of_replicate. unfold is_byte. lia.
Qed.

Lemma keeps_toUint8Array {A} (m : M ByteBuffer.t A) n :
  keeps_bytes m → Forall is_byte (toUint8Array (run m (ByteBuffer.new n))).
Proof.
  intros Hm. rewrite toUint8Array_take. apply Forall_take, Hm, new_bytes.
Qed.

End BytesOnly.

(** ** Header: the identifier and the header on the wire *)

Section HeaderMore.
Import ByteBuffer Serializer Header HeaderCodec.

Lemma reads_result {A} (m : M ByteBuffer.t A) bs a b rest :
  reads m bs a → wf b → readPos b = 0 → toUint8Array b = bs ++ rest →
  result m b = Normal a.
Proof.
  intros Hm Hb Hr Hbs. unfold result. rewrite (Hm b rest Hb); [done|].
  by rewrite Hr, drop_0.
Qed.

Lemma bytes_hex_inj l l' :
  Forall is_byte l → Forall is_byte l' → bytes_hex l = bytes_hex l' → l = l'.
Proof.
  intros Hl Hl' E. pose proof (decode_loop_hex l Hl) as H.
  pose proof (decode_loop_hex l' Hl') as H'. rewrite <- E in H'.
  by apply (writes_unique _ _ _ H H').
Qed.

Lemma js_and_sar_byte r k :
  0 ≤ k ≤ 24 → js_and (js_sar r k) 0xFF = (r / 2 ^ k) mod 256.
Proof.
  intros Hk. rewrite js_and_255, land_255. unfold js_sar.
  replace (ToUint32 k mod 32) with k.
  2:{ unfold ToUint32. rewrite (Z.mod_small k (2 ^ 32)), (Z.mod_small k 32) by lia. done. }
  rewrite Z.shiftr_div_pow2 by lia.
  destruct (ToInt32_eq_mod r) as [q ->].
  replace (2 ^ 32 * q) with (q * 2 ^ (32 - k) * 2 ^ k).
  2:{ rewrite <- Z.mul_assoc, <- Z.pow_add_r by lia. replace (32 - k + k) with 32 by lia. lia. }
  rewrite Z.div_add by lia.
  replace (2 ^ (32 - k)) with (2 ^ (24 - k) * 256).
  2:{ change 256 with (2 ^ 8). rewrite <- Z.pow_add_r by lia. f_equal. lia. }
  rewrite Z.mul_assoc. by rewrite Z.mod_add by lia.
Qed.

Lemma generateId_eq random :
  generateId random
  = bytes_hex [random mod 256; (random / 2 ^ 8) mod 256;
               (random / 2 ^ 16) mod 256; (random / 2 ^ 24) mod 256].
Proof.
  unfold generateId, bytes_hex, byte_hex, toUpperCase. cbn [map concat].
  rewrite !map_app, app_nil_r.
  rewrite !js_and_sar_byte by lia. by rewrite js_and_255, land_255.
Qed.

Lemma four_bytes r :
  0 ≤ r < 2 ^ 32 →
  r = r mod 256 + 256 * ((r / 2 ^ 8) mod 256
      + 256 * ((r / 2 ^ 16) mod 256 + 256 * ((r / 2 ^ 24) mod 256))).
Proof.
  intros Hr. change (2 ^ 8) with 256. change (2 ^ 16) with (256 * 256).
  change (2 ^ 24) with (256 * 256 * 256). rewrite <- !Z.div_div by lia.
  pose proof (Z.div_mod r 256 ltac:(lia)).
  pose proof (Z.div_mod (r / 256) 256 ltac:(lia)).
  pose proof (Z.div_mod (r / 256 / 256) 256 ltac:(lia)).
  assert (0 ≤ r / 256 / 256 / 256 < 256).
  { split; [repeat apply Z.div_pos; lia|].
    do 3 (apply Z.div_lt_upper_bound; [lia|]). lia. }
  rewrite (Z.mod_small (r / 256 / 256 / 256)) by lia. lia.
Qed.

(** X12 -- The identifier of a message is 8 upper-case hexadecimal digits, the
    four bytes of the random number from the lowest; two numbers of 32
    bits that differ give two identifiers. *)
Theorem generateId_shape :
  (∀ random, length (generateId random) = 8%nat ∧ Forall is_hex_upper (generateId random)) ∧
  (∀ random random', 0 ≤ random < 2 ^ 32 → 0 ≤ random' < 2 ^ 32 →
     generateId random = generateId random' → random = random').
Proof.
  split.
  - intros random. rewrite generateId_eq.
    assert (Hb : Forall is_byte [random mod 256; (random / 2 ^ 8) mod 256;
                                 (random / 2 ^ 16) mod 256; (random / 2 ^ 24) mod 256])
      by (repeat constructor; apply is_byte_mod).
    split; [by rewrite length_bytes_hex|].
    unfold bytes_hex. apply Forall_concat, Forall_map.
    eapply Forall_impl; [exact Hb|]. intros c Hc. simpl.
    destruct (byte_hex_cases c Hc) as (h1 & h2 & -> & H1 & H2 & _).
    constructor; [done|]. constructor; [done|constructor].
  - intros r r' Hr Hr'. rewrite !generateId_eq. intros E.
    apply bytes_hex_inj in E; try (repeat constructor; apply is_byte_mod).
    injection E as E0 E1 E2 E3.
    rewrite (four_bytes r Hr), (four_bytes r' Hr'). by rewrite E0, E1, E2, E3.
Qed.

Lemma generateId_shape_witness :
  generateId 0x12AB34CD ≠ generateId 0x12AB34CE ∧ generateId 0x12AB34CD = str "CD34AB12".
Proof.
  split; [|reflexivity]. intros E.
  apply (proj2 generateId_shape 0x12AB34CD 0x12AB34CE) in E; lia.
Defined.

Lemma valid_header header :
  valid_string (guid header) → valid_string (version header) → 0 ≤ index header < 2 ^ 32 →
  valid HeaderSerializer (to_value header).
Proof.
  intros Hg Hv Hi. unfold HeaderSerializer, to_value. cbn [valid]. split.
  - apply (bool_decide_unpack _). by vm_compute.
  - done.
Qed.

Lemma of_value_to_value header : of_value (to_value header) = Some header.
Proof. by destruct header. Qed.

Lemma serialize_hex_deserialize s v :
  valid s v →
  ∃ buffer, serialize s v (ByteBuffer.new 256) = (Normal (), buffer) ∧
    Forall is_byte (toUint8Array buffer) ∧
    ∀ rest b, wf b → readPos b = 0 → toUint8Array b = toUint8Array buffer ++ rest →
      result (deserialize s) b = Normal v.
Proof.
  intros Hv. destruct (valid_roundtrips s v Hv) as (bs & Hw & Hr).
  destruct (Hw _ (wf_new 256)) as (buffer & E & _ & W & _).
  rewrite new_buffer_empty in W by lia. simpl in W.
  exists buffer. split; [done|]. split.
  - pose proof (keeps_toUint8Array _ 256 (keeps_serialize s v)) as H.
    unfold run in H. by rewrite E in H.
  - intros rest b Hb Hpos Hbs. rewrite W in Hbs. by apply (reads_result _ bs _ _ rest).
Qed.

(** X13 -- A header goes through [HeaderSerializer] and [HeaderCodec] and comes
    back: the text [emit] puts in the event identifier decodes to the
    header object it was made from, and the listener reads the same
    [guid], [index] and [isFinal] off it. *)
Theorem header_wire_roundtrip (header : HeaderData) :
  valid_string (guid header) → valid_string (version header) → 0 ≤ index header < 2 ^ 32 →
  let headerBuffer := run (serialize HeaderSerializer (to_value header)) (ByteBuffer.new 256) in
  result (serialize HeaderSerializer (to_value header)) (ByteBuffer.new 256) = Normal () ∧
  result (deserialize HeaderSerializer) (decodeFromHex (encodeToHex headerBuffer))
  = Normal (to_value header) ∧
  of_value (to_value header) = Some header.
Proof.
  intros Hg Hv Hi.
  destruct (serialize_hex_deserialize _ _ (valid_header header Hg Hv Hi))
    as (buffer & E & Hb & Hd).
  unfold run, result at 1. rewrite E. simpl. split; [done|].
  split; [|apply of_value_to_value].
  destruct (decodeFromHex_encodeToHex buffer Hb) as (Hbs & Hpos & Hwf).
  apply (Hd []); [done..|]. by rewrite app_nil_r.
Qed.

Lemma header_wire_roundtrip_witness :
  let header := create (str "CD34AB12") 3 true in
  result (deserialize HeaderSerializer)
    (decodeFromHex (encodeToHex (run (serialize HeaderSerializer (to_value header))
                                     (ByteBuffer.new 256))))
  = Normal (to_value header).
Proof.
  apply (header_wire_roundtrip (create (str "CD34AB12") 3 true)).
  - split; [simpl; lia|]. apply (bool_decide_unpack _). by vm_compute.
  - split; [simpl; lia|]. apply (bool_decide_unpack _). by vm_compute.
  - simpl. lia.
Defined.

End HeaderMore.

(** ** MessageListener: any order, duplicates, no final fragment *)

Section MessageListenerMore.
Import Header MessageListener.

Lemma entry_of_snoc events ev :
  entry_of (events ++ [ev]) = record_fragment ev.1 ev.2 (entry_of events).
Proof. unfold entry_of. by rewrite foldl_app. Qed.

Lemma received_entry_of events :
  received (entry_of events) = list_to_set ((λ ev, index ev.1) <$> events).
Proof.
  induction events as [|ev events IH] using rev_ind; [done|].
  rewrite entry_of_snoc, fmap_app, list_to_set_app_L. simpl. rewrite IH.
  rewrite (right_id_L ∅ (∪)). apply (comm_L (∪)).
Qed.

Lemma fragments_entry_of events ev :
  NoDup ((λ ev, index ev.1) <$> events) → ev ∈ events →
  fragments (entry_of events) !! index ev.1 = Some ev.2.
Proof.
  induction events as [|ev' events IH] using rev_ind; [by intros _ ?%elem_of_nil|].
  rewrite fmap_app. simpl. intros [Hnd [Hnew _]]%NoDup_app Hin.
  rewrite entry_of_snoc. simpl.
  apply elem_of_app in Hin as [Hin| ->%list_elem_of_singleton].
  - rewrite lookup_insert_ne; [by apply IH|].
    intros E. apply (Hnew (index ev.1)); [|rewrite E; by left].
    apply list_elem_of_fmap. by exists ev.
  - by rewrite lookup_insert_eq.
Qed.

Lemma size_entry_of guid fs events :
  Forall (of_message guid fs) events →
  (size (entry_of events) = -1 ∨ size (entry_of events) = Z.of_nat (length fs)) ∧
  (Exists (λ ev, isFinal ev.1 = true) events → size (entry_of events) = Z.of_nat (length fs)).
Proof.
  induction events as [|ev events IH] using rev_ind; intros H.
  { split; [by left|]. by intros ?%Exists_nil. }
  apply Forall_app in H as [H [Hev _]%Forall_cons].
  destruct (IH H) as [IH1 IH2]. rewrite entry_of_snoc. simpl.
  destruct Hev as (E & _ & _).
  destruct (isFinal ev.1) eqn:Hf.
  - assert (index ev.1 + 1 = Z.of_nat (length fs)) as ->.
    { rewrite E in Hf. simpl in Hf. lia. }
    split; [by right|done].
  - split; [done|]. intros [Hex|Hex]%Exists_app; [by apply IH2|].
    apply Exists_cons in Hex as [Hex|?%Exists_nil]; [congruence|done].
Qed.

Lemma emit_loop_events guid n rest : ∀ i,
  0 ≤ i →
  (λ ev, index ev.1) <$> MessageEmitter.emit_loop guid n i rest
  = seqZ i (Z.of_nat (length rest)) ∧
  Forall (λ ev, ev.1 = create guid (index ev.1) (index ev.1 =? n - 1) ∧ i ≤ index ev.1 ∧
                rest !! Z.to_nat (index ev.1 - i) = Some ev.2)
    (MessageEmitter.emit_loop guid n i rest).
Proof.
  induction rest as [|f rest IH]; intros i Hi; [done|].
  cbn [MessageEmitter.emit_loop length]. destruct (IH (i + 1)) as [IH1 IH2]; [lia|].
  split.
  - rewrite fmap_cons, IH1, (seqZ_cons i) by lia. simpl. do 2 f_equal; lia.
  - constructor.
    + simpl. split; [done|]. split; [lia|]. by rewrite Z.sub_diag.
    + eapply Forall_impl; [exact IH2|]. intros ev (E & Hle & Hl). split; [done|].
      split; [lia|]. replace (Z.to_nat (index ev.1 - i)) with (S (Z.to_nat (index ev.1 - (i + 1))))
        by lia. done.
Qed.

Lemma message_of_events guid fs :
  (λ ev, index ev.1) <$> message_of guid fs = seqZ 0 (Z.of_nat (length fs)) ∧
  Forall (of_message guid fs) (message_of guid fs) ∧
  length (message_of guid fs) = length fs.
Proof.
  destruct (emit_loop_events guid (Z.of_nat (length fs)) fs 0) as [H1 H2]; [done|].
  split; [done|]. split.
  - eapply Forall_impl; [exact H2|]. intros ev (E & Hle & Hl). split; [done|].
    split; [done|]. by rewrite Z.sub_0_r in Hl.
  - rewrite <- (length_fmap (λ ev, index ev.1)). unfold message_of. rewrite H1.
    rewrite length_seqZ. lia.
Qed.

(** The copy loop on an entry that holds every fragment. *)
Lemma copy_fragments_all entry (fs : list (list Z)) :
  (∀ k f, fs !! k = Some f → fragments entry !! Z.of_nat k = Some f ∧ f ≠ []) →
  ∀ n i acc, (i + n = length fs)%nat →
    copy_fragments n (Z.of_nat i) entry acc = Normal (acc ++ drop i fs).
Proof.
  intros Hall. induction n as [|n IH]; intros i acc Hn; simpl.
  - rewrite drop_ge by lia. by rewrite app_nil_r.
  - destruct (lookup_lt_is_Some_2 fs i) as [f Hf]; [lia|].
    destruct (Hall i f Hf) as [-> Hne]. destruct f as [|c f]; [done|].
    replace (Z.of_nat i + 1) with (Z.of_nat (S i)) by lia.
    rewrite IH by lia. rewrite <- app_assoc. simpl. by rewrite <- (drop_S _ _ _ Hf).
Qed.

(** While the entry is not complete, the listener only records. *)
Lemma deliver_pending des g events st :
  Forall (λ ev, guid ev.1 = g) events →
  fragmentBuffer st !! g = None →
  (∀ p ev q, events = p ++ ev :: q → complete (entry_of (p ++ [ev])) = false) →
  deliver des events st
  = {| fragmentBuffer := match events with
                         | [] => fragmentBuffer st
                         | _ => <[g := entry_of events]> (fragmentBuffer st)
                         end;
       calls := calls st |} ∧
  default new_entry (fragmentBuffer (deliver des events st) !! g) = entry_of events.
Proof.
  induction events as [|ev events IH] using rev_ind; intros Hg Hfb Hpend.
  { split; [by destruct st|]. simpl. by rewrite Hfb. }
  apply Forall_app in Hg as [Hg [Hev _]%Forall_cons].
  destruct IH as [IH1 IH2]; [done..| |].
  { intros p ev' q E. apply (Hpend p ev' (q ++ [ev])). rewrite E. by rewrite <- app_assoc. }
  unfold deliver in *. rewrite foldl_app. simpl.
  set (st' := foldl _ st events) in *.
  assert (Hrec : recorded st' ev.1 ev.2 = entry_of (events ++ [ev])).
  { unfold recorded. by rewrite Hev, IH2, entry_of_snoc. }
  assert (Hc : complete (recorded st' ev.1 ev.2) = false).
  { rewrite Hrec. by apply (Hpend events ev []). }
  unfold run. rewrite (listener_pending _ _ _ _ Hc), Hrec, Hev. simpl.
  split; [|by rewrite lookup_insert_eq].
  destruct (events ++ [ev]) eqn:E; [by destruct events|]. rewrite <- E.
  f_equal; [|by rewrite IH1]. rewrite IH1. simpl.
  destruct events; [done|]. by rewrite insert_insert_eq.
Qed.

Lemma permutation_prefix guid fs events p ev q :
  events ≡ₚ message_of guid fs → events = p ++ ev :: q →
  NoDup ((λ ev, index ev.1) <$> (p ++ [ev])) ∧
  Forall (of_message guid fs) (p ++ [ev]) ∧
  (length (p ++ [ev]) + length q = length fs)%nat.
Proof.
  intros Hperm ->. destruct (message_of_events guid fs) as (Hidx & Hall & Hlen).
  assert (Hnd : NoDup ((λ ev, index ev.1) <$> (p ++ ev :: q))).
  { rewrite Hperm, Hidx. apply NoDup_seqZ. }
  rewrite <- Hperm in Hall. rewrite <- Hlen, <- Hperm.
  rewrite (assoc_L _ p [ev] q : p ++ ev :: q = (p ++ [ev]) ++ q) in *.
  rewrite fmap_app in Hnd. apply NoDup_app in Hnd as [Hnd _].
  apply Forall_app in Hall as [Hall _]. split; [done|]. split; [done|].
  by rewrite (length_app (p ++ [ev])).
Qed.

Lemma prefix_pending guid fs events p ev q :
  events ≡ₚ message_of guid fs → events = p ++ ev :: q → q ≠ [] →
  complete (entry_of (p ++ [ev])) = false.
Proof.
  intros Hperm E Hq. destruct (permutation_prefix _ _ _ _ _ _ Hperm E) as (Hnd & Hall & Hlen).
  destruct (size_entry_of _ _ _ Hall) as [[Hs|Hs] _]; unfold complete; rewrite Hs; [done|].
  rewrite received_entry_of, size_list_to_set, length_fmap by done.
  destruct q; [done|]. simpl in Hlen. apply andb_false_intro2. lia.
Qed.

Lemma deliver_any_order (des : Serializer.t) (g : list Z) (fs : list (list Z))
    (events : list (HeaderData * list Z)) (v : Serializer.value) (st : state) :
  fs ≠ [] →
  Forall (λ f, f ≠ []) fs →
  events ≡ₚ message_of g fs →
  fragmentBuffer st !! g = None →
  result (Serializer.deserialize des) (PacketEncoder.decode fs) = Normal v →
  deliver des events st
  = {| fragmentBuffer := fragmentBuffer st; calls := calls st ++ [v] |} ∧
  ∀ p q, events = p ++ q → q ≠ [] → calls (deliver des p st) = calls st.
Proof.
  intros Hfs Hne Hperm Hfb Hv.
  destruct (message_of_events g fs) as (Hidx & Hall & Hlen).
  assert (Hguid : Forall (λ ev, guid ev.1 = g) events).
  { rewrite Hperm. eapply Forall_impl; [exact Hall|]. intros ev (-> & _). done. }
  assert (Hpre : ∀ p q, events = p ++ q → q ≠ [] →
    deliver des p st
    = {| fragmentBuffer := match p with
                           | [] => fragmentBuffer st
                           | _ => <[g := entry_of p]> (fragmentBuffer st)
                           end;
         calls := calls st |}
    ∧ default new_entry (fragmentBuffer (deliver des p st) !! g) = entry_of p).
  { intros p q E Hq. apply deliver_pending; [|done|].
    - rewrite E in Hguid. by apply Forall_app in Hguid as [? _].
    - intros p' ev q' E'. apply (prefix_pending g fs events p' ev (q' ++ q)); [done| |].
      + rewrite E, E'. by rewrite <- app_assoc.
      + by destruct q', q. }
  split; [|intros p q E Hq; by destruct (Hpre p q E Hq) as [-> _]].
  destruct events as [|ev0 events0] using rev_ind.
  { apply Permutation_nil_l in Hperm. apply (f_equal length) in Hperm.
    rewrite Hlen in Hperm. by destruct fs. }
  clear IHevents0. rename events0 into p. rename ev0 into ev.
  destruct (Hpre p [ev] eq_refl) as [Hp1 Hp2]; [done|].
  destruct (permutation_prefix g fs (p ++ [ev]) p ev [] Hperm eq_refl) as (Hnd & Hof & Hl).
  unfold deliver in *. rewrite foldl_app. simpl.
  set (st' := foldl _ st p) in *.
  apply Forall_app in Hguid as [_ [Hev _]%Forall_cons].
  assert (Hrec : recorded st' ev.1 ev.2 = entry_of (p ++ [ev])).
  { unfold recorded. by rewrite Hev, Hp2, entry_of_snoc. }
  assert (Hsize : size (entry_of (p ++ [ev])) = Z.of_nat (length fs)).
  { apply (size_entry_of g fs _ Hof).
    assert (Hlast : Z.of_nat (length fs) - 1 ∈ (λ ev, index ev.1) <$> (p ++ [ev])).
    { rewrite Hperm, Hidx. apply elem_of_seqZ. destruct fs; [done|]. simpl. lia. }
    apply list_elem_of_fmap in Hlast as (ev' & E' & Hin).
    apply Exists_exists. exists ev'. split; [done|].
    rewrite Forall_forall in Hof. destruct (Hof ev' Hin) as (-> & _). simpl. lia. }
  assert (Hc : complete (recorded st' ev.1 ev.2) = true).
  { rewrite Hrec. unfold complete. rewrite Hsize.
    rewrite received_entry_of, size_list_to_set, length_fmap by done.
    simpl in Hl. apply andb_true_intro. split; [|lia]. destruct fs; [done|]. simpl. lia. }
  assert (Hcopy : copy_fragments (Z.to_nat (size (recorded st' ev.1 ev.2))) 0
                    (recorded st' ev.1 ev.2) [] = Normal fs).
  { rewrite Hrec, Hsize, Nat2Z.id.
    apply (copy_fragments_all _ fs) with (i := 0%nat) (acc := []); [|done].
    intros k f Hk. split; [|by eapply (Forall_lookup_1 _ _ _ _ Hne)].
    assert (Hin : Z.of_nat k ∈ (λ ev, index ev.1) <$> (p ++ [ev])).
    { rewrite Hperm, Hidx. apply elem_of_seqZ. apply lookup_lt_Some in Hk. lia. }
    apply list_elem_of_fmap in Hin as (ev' & E' & Hin).
    rewrite E'. rewrite (fragments_entry_of _ ev' Hnd Hin). f_equal.
    rewrite Forall_forall in Hof. destruct (Hof ev' Hin) as (_ & _ & Hf).
    rewrite <- E', Nat2Z.id in Hf. congruence. }
  unfold run. rewrite (listener_dispatch _ _ _ _ fs v Hc Hcopy Hv), Hev, Hp1. simpl.
  f_equal. destruct p; [by apply delete_id|]. by rewrite delete_insert_eq, delete_id.
Qed.

(** X14 -- The fragments of a message, none of them empty, delivered in any
    order to a listener that has no entry for the message: the callback
    is not invoked before the last delivery, which invokes it once, with
    the value the fragments decode to in the order of their indices, and
    the entry of the message is deleted. *)
Theorem reassembly_any_order (des : Serializer.t) (g : list Z) (fs : list (list Z))
    (events : list (HeaderData * list Z)) (v : Serializer.value) (st : state) :
  fs ≠ [] →
  Forall (λ f, f ≠ []) fs →
  events ≡ₚ message_of g fs →
  fragmentBuffer st !! g = None →
  result (Serializer.deserialize des) (PacketEncoder.decode fs) = Normal v →
  fragmentBuffer (deliver des events st) = fragmentBuffer st ∧
  ∀ delivered pending, events = delivered ++ pending →
    calls (deliver des delivered st)
    = calls st ++ match pending with [] => [v] | _ => [] end.
Proof.
  intros Hfs Hne Hperm Hfb Hv.
  destruct (deliver_any_order des g fs events v st Hfs Hne Hperm Hfb Hv) as [E Hpre].
  split; [by rewrite E|]. intros delivered [|ev pending] Ep.
  - rewrite app_nil_r in Ep. subst delivered. by rewrite E.
  - rewrite (Hpre delivered (ev :: pending)); [by rewrite app_nil_r|done|done].
Qed.

Lemma reassembly_any_order_witness :
  calls (deliver Serializer.UInt8Serializer
           [(create [7] 1 false, str "0304"); (create [7] 3 true, str "07");
            (create [7] 0 false, str "0102"); (create [7] 2 false, str "0506")] initial)
  = [Serializer.VNumber 1].
Proof.
  destruct (reassembly_any_order Serializer.UInt8Serializer [7]
              [str "0102"; str "0304"; str "0506"; str "07"]
              [(create [7] 1 false, str "0304"); (create [7] 3 true, str "07");
               (create [7] 0 false, str "0102"); (create [7] 2 false, str "0506")]
              (Serializer.VNumber 1) initial) as [_ E].
  - done.
  - repeat constructor; done.
  - unfold message_of. simpl.
    change (create [7] 0 (0 =? 4 - 1)) with (create [7] 0 false).
    change (create [7] (0 + 1) (0 + 1 =? 4 - 1)) with (create [7] 1 false).
    change (create [7] (0 + 1 + 1) (0 + 1 + 1 =? 4 - 1)) with (create [7] 2 false).
    change (create [7] (0 + 1 + 1 + 1) (0 + 1 + 1 + 1 =? 4 - 1)) with (create [7] 3 true).
    set (e0 := (create [7] 0 false, str "0102")). set (e1 := (create [7] 1 false, str "0304")).
    set (e2 := (create [7] 2 false, str "0506")). set (e3 := (create [7] 3 true, str "07")).
    symmetry. apply (Permutation_cons_app [e1; e3] [e2] e0). apply perm_skip, perm_swap.
  - done.
  - reflexivity.
  - exact (E [(create [7] 1 false, str "0304"); (create [7] 3 true, str "07");
              (create [7] 0 false, str "0102"); (create [7] 2 false, str "0506")] []
             eq_refl).
Defined.

(** *** Fragments delivered more than once *)

Lemma fragments_of_message guid fs events :
  Forall (of_message guid fs) events →
  ∀ i, i ∈ (λ ev, index ev.1) <$> events →
    0 ≤ i ∧ fragments (entry_of events) !! i = fs !! Z.to_nat i ∧ is_Some (fs !! Z.to_nat i).
Proof.
  induction events as [|ev events IH] using rev_ind; intros H i Hi.
  { by apply elem_of_nil in Hi. }
  apply Forall_app in H as [H [Hev _]%Forall_cons]. destruct Hev as (_ & Hpos & Hf).
  rewrite entry_of_snoc. simpl. destruct (decide (i = index ev.1)) as [->|Hne].
  - rewrite lookup_insert_eq, Hf. done.
  - rewrite lookup_insert_ne by done. apply IH; [done|].
    rewrite fmap_app in Hi. apply elem_of_app in Hi as [?|Hi]; [done|].
    by apply list_elem_of_singleton in Hi.
Qed.

Lemma seen_subseteq guid fs events :
  Forall (of_message guid fs) events →
  list_to_set ((λ ev, index ev.1) <$> events)
  ⊆@{gset Z} list_to_set (seqZ 0 (Z.of_nat (length fs))).
Proof.
  intros H i Hi%elem_of_list_to_set. apply elem_of_list_to_set, elem_of_seqZ.
  destruct (fragments_of_message _ _ _ H i Hi) as (Hpos & _ & Hsome).
  apply lookup_lt_is_Some in Hsome. lia.
Qed.

Lemma size_all (n : nat) :
  stdpp.base.size (list_to_set (seqZ 0 (Z.of_nat n)) : gset Z) = n.
Proof. rewrite size_list_to_set by apply NoDup_seqZ. rewrite length_seqZ. lia. Qed.

Lemma complete_iff_all guid fs events :
  fs ≠ [] → Forall (of_message guid fs) events →
  complete (entry_of events) = true
  ↔ list_to_set ((λ ev, index ev.1) <$> events)
    = (list_to_set (seqZ 0 (Z.of_nat (length fs))) : gset Z).
Proof.
  intros Hfs H. pose proof (seen_subseteq _ _ _ H) as Hsub.
  destruct (size_entry_of _ _ _ H) as [Hsize Hfinal].
  unfold complete. rewrite received_entry_of. split.
  - intros [Hs He]%andb_prop. apply negb_true_iff in Hs.
    destruct Hsize as [Hsize|Hsize]; [lia|]. rewrite Hsize in He.
    apply set_subseteq_size_eq; [done|]. rewrite size_all. lia.
  - intros E. rewrite E, size_all in *.
    rewrite Hfinal.
    { apply andb_true_intro. split; [|by apply Z.eqb_eq].
      apply negb_true_iff, Z.eqb_neq. destruct fs; [done|]. simpl length. lia. }
    assert (Hlast : Z.of_nat (length fs) - 1 ∈ (λ ev, index ev.1) <$> events).
    { apply (elem_of_list_to_set (C := gset Z)). rewrite E.
      apply elem_of_list_to_set, elem_of_seqZ. destruct fs; [done|]. simpl. lia. }
    apply list_elem_of_fmap in Hlast as (ev' & E' & Hin).
    apply Exists_exists. exists ev'. split; [done|].
    rewrite Forall_forall in H. destruct (H ev' Hin) as (-> & _). simpl. lia.
Qed.

(** X15 -- The fragments of a message, none of them empty, delivered in any
    order and as often as one likes to a listener that has no entry for
    the message: nothing is counted twice. The callback is not invoked as
    long as a fragment is missing, and the delivery that brings the last
    missing one invokes it once, with the value the fragments decode to. *)
Theorem reassembly_with_duplicates (des : Serializer.t) (g : list Z) (fs : list (list Z))
    (events : list (HeaderData * list Z)) (st : state) :
  fs ≠ [] →
  Forall (λ f, f ≠ []) fs →
  Forall (of_message g fs) events →
  fragmentBuffer st !! g = None →
  let seen (events : list (HeaderData * list Z)) : gset Z :=
    list_to_set ((λ ev, index ev.1) <$> events) in
  let every : gset Z := list_to_set (seqZ 0 (Z.of_nat (length fs))) in
  seen events ≠ every →
  calls (deliver des events st) = calls st ∧
  ∀ ev v, of_message g fs ev → seen (events ++ [ev]) = every →
    result (Serializer.deserialize des) (PacketEncoder.decode fs) = Normal v →
    deliver des (events ++ [ev]) st
    = {| fragmentBuffer := fragmentBuffer st; calls := calls st ++ [v] |}.
Proof.
  intros Hfs Hne Hof Hfb seen every Hmiss.
  assert (Hguid : Forall (λ ev, guid ev.1 = g) events).
  { eapply Forall_impl; [exact Hof|]. intros ev (-> & _). done. }
  destruct (deliver_pending des g events st Hguid Hfb) as [Hp1 Hp2].
  { intros p ev q E. apply not_true_is_false. intros Hc.
    assert (Hof' : Forall (of_message g fs) (p ++ [ev])).
    { rewrite E in Hof. rewrite (assoc_L _ p [ev] q : p ++ ev :: q = (p ++ [ev]) ++ q) in Hof.
      by apply Forall_app in Hof as [? _]. }
    apply (complete_iff_all g fs _ Hfs Hof') in Hc. apply Hmiss.
    apply (anti_symm (⊆)); [by apply (seen_subseteq g)|].
    unfold every, seen. rewrite <- Hc, E.
    rewrite (assoc_L _ p [ev] q : p ++ ev :: q = (p ++ [ev]) ++ q).
    rewrite (fmap_app _ (p ++ [ev])), list_to_set_app_L. apply union_subseteq_l. }
  split; [by rewrite Hp1|].
  intros ev v Hev Hall Hv.
  assert (Hof' : Forall (of_message g fs) (events ++ [ev])).
  { apply Forall_app. split; [done|by constructor]. }
  unfold deliver in *. rewrite foldl_app. simpl.
  set (st' := foldl _ st events) in *.
  assert (Hgev : guid ev.1 = g) by (destruct Hev as (-> & _); done).
  assert (Hrec : recorded st' ev.1 ev.2 = entry_of (events ++ [ev])).
  { unfold recorded. by rewrite Hgev, Hp2, entry_of_snoc. }
  assert (Hc : complete (recorded st' ev.1 ev.2) = true).
  { rewrite Hrec. by apply (complete_iff_all g fs). }
  assert (Hsize : size (entry_of (events ++ [ev])) = Z.of_nat (length fs)).
  { rewrite <- Hrec. unfold complete in Hc. apply andb_prop in Hc as [Hs He].
    apply negb_true_iff in Hs. rewrite Hrec in *.
    destruct (size_entry_of _ _ _ Hof') as [[?|?] _]; [lia|done]. }
  assert (Hcopy : copy_fragments (Z.to_nat (size (recorded st' ev.1 ev.2))) 0
                    (recorded st' ev.1 ev.2) [] = Normal fs).
  { rewrite Hrec, Hsize, Nat2Z.id.
    apply (copy_fragments_all _ fs) with (i := 0%nat) (acc := []); [|done].
    intros k f Hk. split; [|by eapply (Forall_lookup_1 _ _ _ _ Hne)].
    assert (Hin : Z.of_nat k ∈ (λ ev, index ev.1) <$> (events ++ [ev])).
    { apply (elem_of_list_to_set (C := gset Z)). fold (seen (events ++ [ev])). rewrite Hall.
      apply elem_of_list_to_set, elem_of_seqZ. apply lookup_lt_Some in Hk. lia. }
    destruct (fragments_of_message _ _ _ Hof' _ Hin) as (_ & -> & _).
    by rewrite Nat2Z.id. }
  unfold run. rewrite (listener_dispatch _ _ _ _ fs v Hc Hcopy Hv), Hgev, Hp1. simpl.
  f_equal. destruct events; [by apply delete_id|]. by rewrite delete_insert_eq, delete_id.
Qed.

Lemma reassembly_with_duplicates_witness :
  calls (deliver Serializer.UInt8Serializer
           [(create [7] 1 true, str "0304"); (create [7] 1 true, str "0304");
            (create [7] 0 false, str "0102")] initial)
  = [Serializer.VNumber 1].
Proof.
  destruct (reassembly_with_duplicates Serializer.UInt8Serializer [7]
              [str "0102"; str "0304"]
              [(create [7] 1 true, str "0304"); (create [7] 1 true, str "0304")]
              initial) as [_ H].
  - done.
  - repeat constructor; done.
  - repeat constructor; done.
  - done.
  - by vm_compute.
  - pose proof (H (create [7] 0 false, str "0102") (Serializer.VNumber 1)) as E.
    simpl app in E. rewrite E; [done| |by vm_compute|done].
    repeat constructor; done.
Defined.

(** *** No final fragment, and messages side by side *)

Lemma listener_outcome des h f st :
  run (listener des h f) st
  = {| fragmentBuffer :=
         match (outcome des h f (fragmentBuffer st !! guid h)).1 with
         | Some entry => <[guid h := entry]> (fragmentBuffer st)
         | None => delete (guid h) (fragmentBuffer st)
         end;
       calls := calls st ++ (outcome des h f (fragmentBuffer st !! guid h)).2 |}.
Proof.
  unfold run, listener, outcome.
  destruct (complete _); simpl; [|by rewrite app_nil_r].
  destruct (copy_fragments _ _ _ _); simpl; [|by rewrite app_nil_r].
  destruct (Serializer.deserialize _ _) as [[v|e] b]; simpl;
    rewrite delete_insert_eq; [done|by rewrite app_nil_r].
Qed.

(** X16 -- As long as no final fragment arrives the listener invokes no
    callback and deletes nothing: every message it received a fragment of
    keeps its entry, whatever the number of fragments and of messages. *)
Theorem never_without_final (des : Serializer.t) (events : list (HeaderData * list Z))
    (st : state) :
  map_Forall (λ _ entry, size entry = -1) (fragmentBuffer st) →
  Forall (λ ev, isFinal ev.1 = false) events →
  calls (deliver des events st) = calls st ∧
  map_Forall (λ _ entry, size entry = -1) (fragmentBuffer (deliver des events st)) ∧
  (∀ g, is_Some (fragmentBuffer st !! g) → is_Some (fragmentBuffer (deliver des events st) !! g)) ∧
  Forall (λ ev, is_Some (fragmentBuffer (deliver des events st) !! guid ev.1)) events.
Proof.
  intros Hst. induction events as [|ev events IH] using rev_ind; intros Hev.
  { split; [done|]. split; [done|]. split; [done|constructor]. }
  apply Forall_app in Hev as [Hev [Hf _]%Forall_cons].
  destruct (IH Hev) as (IH1 & IH2 & IH3 & IH4). clear IH. unfold deliver in *. rewrite foldl_app. simpl.
  set (st' := foldl _ st events) in *.
  assert (Hc : complete (recorded st' ev.1 ev.2) = false).
  { unfold complete, recorded. simpl. rewrite Hf.
    destruct (fragmentBuffer st' !! guid ev.1) as [e|] eqn:E; simpl; [|done].
    by rewrite (IH2 _ _ E). }
  unfold run. rewrite (listener_pending _ _ _ _ Hc). simpl.
  split; [done|]. split.
  { apply map_Forall_insert_2; [|done]. unfold recorded. simpl. rewrite Hf.
    destruct (fragmentBuffer st' !! guid ev.1) as [e|] eqn:E; simpl; [|done].
    by rewrite (IH2 _ _ E). }
  assert (Hkeep : ∀ g, is_Some (fragmentBuffer st' !! g) →
    is_Some (<[guid ev.1 := recorded st' ev.1 ev.2]> (fragmentBuffer st') !! g)).
  { intros g Hg. destruct (decide (guid ev.1 = g)) as [->|];
      [by rewrite lookup_insert_eq|by rewrite lookup_insert_ne]. }
  split; [intros g Hg; by apply Hkeep, IH3|].
  apply Forall_app. split.
  - eapply Forall_impl; [exact IH4|]. intros ev' Hev'. by apply Hkeep.
  - constructor; [|constructor]. by rewrite lookup_insert_eq.
Qed.

Lemma never_without_final_witness :
  calls (deliver Serializer.UInt8Serializer
           [(create [7] 0 false, str "0102"); (create [8] 0 false, str "0102");
            (create [7] 1 false, str "0304")] initial) = [].
Proof.
  destruct (never_without_final Serializer.UInt8Serializer
              [(create [7] 0 false, str "0102"); (create [8] 0 false, str "0102");
               (create [7] 1 false, str "0304")] initial) as [E _].
  - apply map_Forall_empty.
  - repeat constructor.
  - exact E.
Defined.

(** X17 -- Two messages do not disturb each other: delivered one after the other
    in either order, two fragments of different messages leave the same
    entries, and the callback is invoked with the same values (in the
    order of the deliveries that complete a message). *)
Theorem messages_independent (des : Serializer.t) (h h' : HeaderData) (f f' : list Z)
    (st : state) :
  guid h ≠ guid h' →
  fragmentBuffer (deliver des [(h, f); (h', f')] st)
  = fragmentBuffer (deliver des [(h', f'); (h, f)] st) ∧
  calls (deliver des [(h, f); (h', f')] st) ≡ₚ calls (deliver des [(h', f'); (h, f)] st) ∧
  fragmentBuffer (run (listener des h f) st) !! guid h' = fragmentBuffer st !! guid h' ∧
  (calls (run (listener des h f) st) = calls st →
   calls (deliver des [(h, f); (h', f')] st) = calls (deliver des [(h', f'); (h, f)] st)).
Proof.
  intros Hne. unfold deliver. simpl.
  assert (Hl : ∀ h1 f1 h2 st, guid h1 ≠ guid h2 →
    fragmentBuffer (run (listener des h1 f1) st) !! guid h2 = fragmentBuffer st !! guid h2).
  { intros h1 f1 h2 st0 Hn. rewrite listener_outcome. simpl.
    destruct (outcome _ _ _ _).1; [by rewrite lookup_insert_ne|by rewrite lookup_delete_ne]. }
  rewrite !(listener_outcome des h' f' (run _ _)), !(listener_outcome des h f (run _ _)).
  rewrite (Hl h f h' st Hne), (Hl h' f' h st) by done.
  rewrite !(listener_outcome des h f st), !(listener_outcome des h' f' st). simpl.
  destruct (outcome des h f (fragmentBuffer st !! guid h)) as [[e|] out].
  all: destruct (outcome des h' f' (fragmentBuffer st !! guid h')) as [[e'|] out']; simpl.
  all: split; [first [ by apply insert_insert_ne | by apply delete_insert_ne
                     | by rewrite delete_insert_ne | by apply delete_delete ]|].
  all: split; [rewrite <- !app_assoc; apply Permutation_app_head, Permutation_app_comm|].
  all: split; [done|].
  all: intros E; apply (f_equal length) in E; rewrite length_app in E;
    destruct out; [by rewrite !app_nil_r|simpl in E; lia].
Qed.

Lemma messages_independent_witness :
  calls (deliver Serializer.UInt8Serializer
           [(create [7] 0 false, str "0102"); (create [8] 0 true, str "0900")] initial)
  = calls (deliver Serializer.UInt8Serializer
           [(create [8] 0 true, str "0900"); (create [7] 0 false, str "0102")] initial).
Proof.
  destruct (messages_independent Serializer.UInt8Serializer
              (create [7] 0 false) (create [8] 0 true) (str "0102") (str "0900") initial)
    as (_ & _ & _ & H); [done|].
  apply H. reflexivity.
Defined.

End MessageListenerMore.

(** ** From [emit] to the callback *)

Section EndToEnd.
Import ByteBuffer Serializer Header MessageListener.

Lemma emit_message g s v buffer :
  serialize s v (ByteBuffer.new 256) = (Normal (), buffer) →
  MessageEmitter.emit g s v
  = Normal (message_of g (PacketEncoder.encode buffer PacketEncoder.MAX_FRAGMENT_SIZE)).
Proof. intros E. unfold MessageEmitter.emit. by rewrite E. Qed.

(** What a valid value is cut into, and what the fragments decode to. *)
Lemma fragments_of_valid s v :
  valid s v →
  ∃ buffer, serialize s v (ByteBuffer.new 256) = (Normal (), buffer) ∧
    Forall is_byte (toUint8Array buffer) ∧
    result (deserialize s)
      (PacketEncoder.decode (PacketEncoder.encode buffer PacketEncoder.MAX_FRAGMENT_SIZE))
    = Normal v.
Proof.
  intros Hv. destruct (serialize_hex_deserialize s v Hv) as (buffer & E & Hb & Hd).
  exists buffer. split; [done|]. split; [done|].
  destruct (decode_encode_buffer buffer PacketEncoder.MAX_FRAGMENT_SIZE Hb) as (Hbs & Hr & Hwf).
  by apply (Hd _ _ Hwf Hr Hbs).
Qed.

(** X18 -- A valid value that is written as one byte or more reaches the
    subscriber: [emit] sends its fragments with their headers, and the
    listener of the same serializer, whatever the order the fragments
    arrive in, invokes the callback once, with the value that was sent,
    and keeps nothing of the message. *)
Theorem emit_deliver (g : list Z) (s : Serializer.t) (v : value) :
  valid s v →
  toUint8Array (run (serialize s v) (ByteBuffer.new 256)) ≠ [] →
  ∃ events,
    MessageEmitter.emit g s v = Normal events ∧
    events ≠ [] ∧
    ∀ arrival st, arrival ≡ₚ events → fragmentBuffer st !! g = None →
      deliver s arrival st
      = {| fragmentBuffer := fragmentBuffer st; calls := calls st ++ [v] |}.
Proof.
  intros Hv Hne. destruct (fragments_of_valid s v Hv) as (buffer & E & Hb & Hd).
  unfold run in Hne. rewrite E in Hne. simpl in Hne.
  set (fs := PacketEncoder.encode buffer PacketEncoder.MAX_FRAGMENT_SIZE) in *.
  assert (Hfs : fs ≠ []).
  { pose proof (encode_length_pos buffer PacketEncoder.MAX_FRAGMENT_SIZE) as H.
    fold fs in H. destruct fs; [simpl in H; lia|done]. }
  exists (message_of g fs). split; [by apply emit_message|]. split.
  { destruct (message_of_events g fs) as (_ & _ & Hl). destruct (message_of g fs); [|done].
    by destruct fs. }
  intros arrival st Hperm Hfb.
  apply (deliver_any_order s g fs arrival v st); try done.
  apply encode_all_nonempty; [done|unfold PacketEncoder.MAX_FRAGMENT_SIZE; lia|done].
Qed.

Lemma emit_deliver_witness :
  calls (deliver UInt16Serializer [(create [7] 0 true, [513])] initial) = [VNumber 258].
Proof.
  destruct (emit_deliver [7] UInt16Serializer (VNumber 258)) as (events & E & _ & H).
  - simpl. lia.
  - vm_compute. discriminate.
  - change (MessageEmitter.emit [7] UInt16Serializer (VNumber 258))
      with (Normal [(create [7] 0 true, [513])]) in E.
    injection E as <-. by rewrite (H _ initial).
Defined.

End EndToEnd.

(** ** EndpointManager *)

Section EndpointManagerMore.
Import EndpointManager.
Context {L : Type} `{!EqDecision L}.
Implicit Types m : EndpointManager.t L.

Lemma wf_new_manager : wf_manager (EndpointManager.new (L := L)).
Proof. split; [intros e r E|intros e e' r E]; simpl in E; by rewrite lookup_empty in E. Qed.

Lemma getListeners_Some m endpoint listeners :
  endpoints m !! endpoint = Some listeners →
  getListeners endpoint m = arrays m !! listeners.
Proof. intros E. unfold getListeners. by rewrite E. Qed.

Lemma getListeners_None m endpoint :
  endpoints m !! endpoint = None → getListeners endpoint m = None.
Proof. intros E. unfold getListeners. by rewrite E. Qed.

Lemma register_spec m endpoint l :
  wf_manager m →
  wf_manager (register endpoint l m).2 ∧
  getListeners endpoint (register endpoint l m).2
  = Some (default [] (getListeners endpoint m) ++ [l]) ∧
  (∀ endpoint', endpoint' ≠ endpoint →
     getListeners endpoint' (register endpoint l m).2 = getListeners endpoint' m) ∧
  (length (arrays m) ≤ length (arrays (register endpoint l m).2))%nat ∧
  EndpointManager.listener (register endpoint l m).1 = l ∧
  EndpointManager.endpoint (register endpoint l m).1 = endpoint ∧
  endpoints (register endpoint l m).2 !! endpoint = Some (listeners (register endpoint l m).1) ∧
  (endpoints m !! endpoint = None →
   listeners (register endpoint l m).1 = length (arrays m) ∧
   (register endpoint l m).2
   = {| endpoints := <[endpoint := length (arrays m)]> (endpoints m);
        arrays := arrays m ++ [[l]] |}).
Proof.
  intros [Hm1 Hm2]. unfold register.
  destruct (endpoints m !! endpoint) as [ref|] eqn:E; simpl.
  - destruct (Hm1 _ _ E) as (array & Ha & Hne).
    split; [split|split; [|split; [|split; [|done]]]]; simpl.
    + intros e' ref' E'. destruct (Hm1 _ _ E') as (array' & Ha' & Hne').
      destruct (decide (ref = ref')) as [<-|Hr].
      * rewrite list_lookup_alter_eq, Ha. simpl. eexists. split; [done|]. by destruct array.
      * rewrite list_lookup_alter_ne by done. by exists array'.
    + done.
    + unfold getListeners. simpl. rewrite E. simpl.
      by rewrite list_lookup_alter_eq, Ha.
    + intros e' Hne'. unfold getListeners. simpl.
      destruct (endpoints m !! e') as [ref'|] eqn:E'; simpl; [|done].
      rewrite list_lookup_alter_ne; [done|]. intros <-. by apply Hne', (Hm2 _ _ ref).
    + by rewrite length_alter.
  - assert (Hfresh : ∀ e' ref', endpoints m !! e' = Some ref' → ref' ≠ length (arrays m)).
    { intros e' ref' E' ->. destruct (Hm1 _ _ E') as (array & Ha%lookup_lt_Some & _). lia. }
    split; [split|split; [|split; [|split; [|split; [done|split; [done|split;
      [by rewrite lookup_insert_eq|done]]]]]]]; simpl.
    + intros e' ref' E'. destruct (decide (endpoint = e')) as [<-|Hn].
      * rewrite lookup_insert_eq in E'. injection E' as <-.
        exists [l]. split; [|done]. by rewrite lookup_app_r, Nat.sub_diag by lia.
      * rewrite lookup_insert_ne in E' by done.
        destruct (Hm1 _ _ E') as (array & Ha & Hne). exists array. split; [|done].
        by apply lookup_app_l_Some.
    + intros e1 e2 ref E1 E2.
      destruct (decide (endpoint = e1)) as [<-|H1], (decide (endpoint = e2)) as [<-|H2];
        try done.
      * rewrite lookup_insert_eq in E1. rewrite lookup_insert_ne in E2 by done.
        injection E1 as <-. by destruct (Hfresh _ _ E2).
      * rewrite lookup_insert_eq in E2. rewrite lookup_insert_ne in E1 by done.
        injection E2 as <-. by destruct (Hfresh _ _ E1).
      * rewrite lookup_insert_ne in E1, E2 by done. by apply (Hm2 _ _ ref).
    + unfold getListeners. simpl. rewrite lookup_insert_eq, E. simpl.
      by rewrite lookup_app_r, Nat.sub_diag by lia.
    + intros e' Hne'. unfold getListeners. simpl. rewrite lookup_insert_ne by done.
      destruct (endpoints m !! e') as [ref'|] eqn:E'; simpl; [|done].
      destruct (Hm1 _ _ E') as (array & Ha & _). rewrite Ha. by apply lookup_app_l_Some.
    + rewrite length_app. lia.
Qed.

(** X19 -- [register] adds the listener at the end of the listeners of its
    endpoint, which other endpoints do not see, and keeps the invariant;
    [clearAll] leaves no endpoint a listener. *)
Theorem register_getListeners (m : EndpointManager.t L) (endpoint : list Z) (l : L) :
  wf_manager m →
  let m' := (register endpoint l m).2 in
  wf_manager m' ∧
  getListeners endpoint m' = Some (default [] (getListeners endpoint m) ++ [l]) ∧
  hasListeners endpoint m' = true ∧
  (∀ endpoint', endpoint' ≠ endpoint → getListeners endpoint' m' = getListeners endpoint' m) ∧
  (∀ endpoint', getListeners endpoint' (clearAll m') = None
                ∧ hasListeners endpoint' (clearAll m') = false) ∧
  getListeners endpoint (EndpointManager.new (L := L)) = None.
Proof.
  intros Hm. destruct (register_spec m endpoint l Hm) as (Hwf & Hg & Ho & _).
  split; [done|]. split; [done|]. split.
  { unfold hasListeners. rewrite Hg, length_app. simpl. apply Nat.ltb_lt. lia. }
  split; [done|]. split; [|done].
  intros e'. unfold hasListeners, getListeners. simpl. by rewrite lookup_empty.
Qed.

Lemma indexOf_Some (l : L) (array : list L) :
  l ∈ array →
  ∃ pre post, array = pre ++ l :: post ∧ (l ∉ pre) ∧ indexOf l array = Some (length pre).
Proof.
  induction array as [|x array IH]; intros Hin; [by apply elem_of_nil in Hin|].
  unfold indexOf. cbn [list_find]. destruct (decide (x = l)) as [->|Hne].
  - exists [], array. split; [done|]. split; [apply not_elem_of_nil|done].
  - apply elem_of_cons in Hin as [->|Hin]; [done|].
    destruct (IH Hin) as (pre & post & -> & Hpre & Hidx).
    exists (x :: pre), post. split; [done|]. split.
    + intros [->|?]%elem_of_cons; done.
    + unfold indexOf in Hidx. rewrite fmap_Some in Hidx.
      destruct Hidx as ([k y] & Hf & Hk). simpl in Hk. subst k.
      by rewrite Hf.
Qed.

Lemma indexOf_None (l : L) (array : list L) : l ∉ array → indexOf l array = None.
Proof.
  intros Hn. unfold indexOf. destruct (list_find _ array) as [[k y]|] eqn:E; [|done].
  apply list_find_Some in E as (Hk & -> & _). destruct Hn. by eapply list_elem_of_lookup_2.
Qed.

Lemma indexOf_middle (l : L) (pre post : list L) :
  l ∉ pre → indexOf l (pre ++ l :: post) = Some (length pre).
Proof.
  induction pre as [|x pre IH]; intros Hn; unfold indexOf in *; cbn [list_find app].
  - by rewrite decide_True.
  - rewrite decide_False by (intros ->; apply Hn; by left).
    rewrite not_elem_of_cons in Hn. destruct Hn as [_ Hn]. specialize (IH Hn).
    rewrite fmap_Some in IH. destruct IH as ([k y] & -> & Hk). simpl in *. by subst k.
Qed.

Lemma unsubscribe_spec m (u : Unsubscribe L) (pre post : list L) :
  wf_manager m →
  endpoints m !! endpoint u = Some (listeners u) →
  arrays m !! listeners u = Some (pre ++ listener u :: post) →
  listener u ∉ pre →
  wf_manager (unsubscribe u m) ∧
  getListeners (endpoint u) (unsubscribe u m)
  = (if decide (pre ++ post = []) then None else Some (pre ++ post)) ∧
  (∀ endpoint', endpoint' ≠ endpoint u →
     getListeners endpoint' (unsubscribe u m) = getListeners endpoint' m).
Proof.
  intros [Hm1 Hm2] He Ha Hpre. unfold unsubscribe. rewrite Ha. simpl.
  rewrite (indexOf_middle _ _ _ Hpre), delete_middle.
  assert (Hlt : (listeners u < length (arrays m))%nat) by by apply lookup_lt_Some in Ha.
  assert (Hother : ∀ e' ref', e' ≠ endpoint u → endpoints m !! e' = Some ref' →
    <[listeners u := pre ++ post]> (arrays m) !! ref' = arrays m !! ref').
  { intros e' ref' Hne E'. apply list_lookup_insert_ne. intros <-.
    by apply Hne, (Hm2 _ _ (listeners u)). }
  case_bool_decide as Hlen.
  - apply nil_length_inv in Hlen. rewrite decide_True by done.
    split; [split|split]; simpl.
    + intros e' ref' [Hne E']%lookup_delete_Some. rewrite (Hother e' ref') by done.
      by apply (Hm1 e').
    + intros e1 e2 ref [_ E1]%lookup_delete_Some [_ E2]%lookup_delete_Some.
      by apply (Hm2 _ _ ref).
    + unfold getListeners. simpl. by rewrite lookup_delete_eq.
    + intros e' Hne. unfold getListeners. simpl. rewrite lookup_delete_ne by done.
      destruct (endpoints m !! e') as [ref'|] eqn:E'; simpl; [|done]. by apply (Hother e').
  - rewrite decide_False by (intros E; by rewrite E in Hlen).
    split; [split|split]; simpl.
    + intros e' ref' E'. destruct (decide (e' = endpoint u)) as [->|Hne].
      * rewrite He in E'. injection E' as <-. exists (pre ++ post).
        rewrite list_lookup_insert_eq by done. split; [done|]. intros E. by rewrite E in Hlen.
      * rewrite (Hother e' ref') by done. by apply (Hm1 e').
    + done.
    + unfold getListeners. simpl. rewrite He. simpl. by rewrite list_lookup_insert_eq.
    + intros e' Hne. unfold getListeners. simpl.
      destruct (endpoints m !! e') as [ref'|] eqn:E'; simpl; [|done]. by apply (Hother e').
Qed.

(** X20 -- The function [register] returned, called while the array it closes
    over is still that of the endpoint, takes the first occurrence of its
    listener out of the array and deletes the endpoint when no listener
    is left; the other endpoints keep theirs. Called right after
    [register] of a listener the endpoint did not have, it gives every
    endpoint the listeners it had before. *)
Theorem unsubscribe_registered (m : EndpointManager.t L) :
  wf_manager m →
  (∀ (u : Unsubscribe L) pre post,
     endpoints m !! endpoint u = Some (listeners u) →
     arrays m !! listeners u = Some (pre ++ listener u :: post) →
     listener u ∉ pre →
     wf_manager (unsubscribe u m) ∧
     getListeners (endpoint u) (unsubscribe u m)
     = (if decide (pre ++ post = []) then None else Some (pre ++ post)) ∧
     (∀ endpoint', endpoint' ≠ endpoint u →
        getListeners endpoint' (unsubscribe u m) = getListeners endpoint' m)) ∧
  (∀ e l, l ∉ default [] (getListeners e m) →
     ∀ e', getListeners e' (unsubscribe (register e l m).1 (register e l m).2)
           = getListeners e' m).
Proof.
  intros Hm. split; [intros; by apply unsubscribe_spec|].
  intros e l Hl e'.
  destruct (register_spec m e l Hm) as (Hwf & Hg & Ho & _ & Hul & Hue & Hu & _).
  set (u := (register e l m).1) in *. set (m1 := (register e l m).2) in *.
  assert (Ha : arrays m1 !! listeners u = Some (default [] (getListeners e m) ++ listener u :: [])).
  { rewrite Hul, <- Hg. unfold getListeners. by rewrite Hu. }
  destruct (unsubscribe_spec m1 u (default [] (getListeners e m)) [] Hwf) as (_ & Hg' & Ho');
    [by rewrite Hue|done|by rewrite Hul|].
  rewrite Hue in *. rewrite app_nil_r in Hg'.
  destruct (decide (e' = e)) as [->|Hne]; [|by rewrite Ho', Ho].
  rewrite Hg'. destruct (endpoints m !! e) as [ref|] eqn:E.
  - rewrite (getListeners_Some _ _ _ E). destruct Hm as [Hm1 _].
    destruct (Hm1 _ _ E) as (array & Harr & Hne). rewrite Harr. simpl.
    by rewrite decide_False.
  - rewrite (getListeners_None _ _ E). by simpl.
Qed.

(** X21 -- An unsubscribe function does not know that its array was given up:
    called once more after its endpoint was emptied and registered anew,
    it deletes the endpoint, and the listener of the new registration,
    which no one unsubscribed, receives nothing from then on. *)
Theorem stale_unsubscribe (m : EndpointManager.t L) (e : list Z) (a b : L) :
  wf_manager m →
  getListeners e m = None →
  let r1 := register e a m in
  let m2 := unsubscribe r1.1 r1.2 in
  let m3 := (register e b m2).2 in
  getListeners e m2 = None ∧
  getListeners e m3 = Some [b] ∧
  getListeners e (unsubscribe r1.1 m3) = None ∧
  hasListeners e (unsubscribe r1.1 m3) = false.
Proof.
  intros Hm Hg.
  assert (He : endpoints m !! e = None).
  { destruct (endpoints m !! e) as [ref|] eqn:E; [|done]. destruct Hm as [Hm1 _].
    destruct (Hm1 _ _ E) as (array & Ha & _). unfold getListeners in Hg. rewrite E in Hg.
    simpl in Hg. congruence. }
  destruct (register_spec m e a Hm) as (_ & _ & _ & _ & _ & _ & _ & H1).
  destruct (H1 He) as [Hl E1]. clear H1.
  intros r1 m2 m3. subst m3 m2 r1.
  assert (Hu : (register e a m).1
               = {| listeners := length (arrays m); listener := a; endpoint := e |}).
  { unfold register. by rewrite He. }
  rewrite Hu, E1.
  assert (E2 : unsubscribe {| listeners := length (arrays m); listener := a; endpoint := e |}
                 {| endpoints := <[e := length (arrays m)]> (endpoints m);
                    arrays := arrays m ++ [[a]] |}
               = {| endpoints := delete e (<[e := length (arrays m)]> (endpoints m));
                    arrays := arrays m ++ [[]] |}).
  { unfold unsubscribe. simpl.
    rewrite lookup_app_r, Nat.sub_diag by lia. simpl.
    unfold indexOf. simpl. rewrite decide_True by done. simpl.
    f_equal. rewrite insert_app_r_alt, Nat.sub_diag by lia. done. }
  rewrite E2. rewrite delete_insert_eq, (delete_id _ _ He).
  assert (E3 : register e b {| endpoints := endpoints m; arrays := arrays m ++ [[]] |}
               = ({| listeners := S (length (arrays m)); listener := b; endpoint := e |},
                  {| endpoints := <[e := S (length (arrays m))]> (endpoints m);
                     arrays := (arrays m ++ [[]]) ++ [[b]] |})).
  { unfold register. simpl. rewrite He, length_app. simpl. by rewrite Nat.add_1_r. }
  rewrite E3. simpl.
  split; [unfold getListeners; simpl; by rewrite He|]. split.
  { unfold getListeners. simpl. rewrite lookup_insert_eq. simpl.
    rewrite lookup_app_r; rewrite length_app; simpl; [|lia].
    by replace (S (length (arrays m)) - (length (arrays m) + 1))%nat with 0%nat by lia. }
  assert (E4 : getListeners e
                 (unsubscribe {| listeners := length (arrays m); listener := a; endpoint := e |}
                    {| endpoints := <[e := S (length (arrays m))]> (endpoints m);
                       arrays := (arrays m ++ [[]]) ++ [[b]] |}) = None).
  { unfold unsubscribe, getListeners. simpl.
    rewrite <- app_assoc, lookup_app_r, Nat.sub_diag by lia. simpl.
    by rewrite lookup_delete_eq. }
  split; [done|]. unfold hasListeners. by rewrite E4.
Qed.

End EndpointManagerMore.

Section EndpointManagerWitnesses.
Import EndpointManager.

Lemma register_getListeners_witness :
  getListeners (str "a") (register (str "a") 2%nat (register (str "a") 1%nat EndpointManager.new).2).2
  = Some [1%nat; 2%nat].
Proof.
  destruct (register_getListeners (register (str "a") 1%nat EndpointManager.new).2 (str "a") 2%nat)
    as (_ & E & _).
  - apply (register_spec (L := nat)), wf_new_manager.
  - rewrite E. reflexivity.
Defined.

Lemma unsubscribe_registered_witness :
  getListeners (str "a")
    (unsubscribe (register (str "a") 1%nat EndpointManager.new).1
                 (register (str "a") 1%nat EndpointManager.new).2) = None.
Proof.
  destruct (unsubscribe_registered (EndpointManager.new (L := nat)) wf_new_manager) as [_ H].
  rewrite (H (str "a") 1%nat); [done|]. simpl. apply not_elem_of_nil.
Defined.

Lemma stale_unsubscribe_witness :
  let r1 := register (str "a") 1%nat EndpointManager.new in
  let r3 := register (str "a") 2%nat (unsubscribe r1.1 r1.2) in
  getListeners (str "a") r3.2 = Some [2%nat] ∧
  getListeners (str "a") (unsubscribe r1.1 r3.2) = None.
Proof.
  destruct (stale_unsubscribe (EndpointManager.new (L := nat)) (str "a") 1%nat 2%nat
              wf_new_manager eq_refl) as (_ & E1 & E2 & _).
  split; [exact E1|exact E2].
Defined.

End EndpointManagerWitnesses.

(** ** From [emit] to the callback, through the script events *)

Section Wire.
Import ByteBuffer Serializer Header MessageListener.

Lemma split_no_sep sep s : Forall (λ c, c ≠ sep) s → split sep s = [s].
Proof.
  induction 1 as [|c s Hc _ IH]; [done|]. simpl. rewrite IH.
  by destruct (Z.eqb_spec c sep).
Qed.

Lemma split_two sep a b :
  Forall (λ c, c ≠ sep) a → Forall (λ c, c ≠ sep) b → split sep (a ++ sep :: b) = [a; b].
Proof.
  intros Ha Hb. induction Ha as [|c a Hc _ IH]; simpl.
  - by rewrite Z.eqb_refl, split_no_sep.
  - rewrite IH. by destruct (Z.eqb_spec c sep).
Qed.

Lemma encodeToHex_no_colon buffer :
  Forall is_byte (toUint8Array buffer) → Forall (λ c, c ≠ 58) (HeaderCodec.encodeToHex buffer).
Proof.
  intros Hb. rewrite encodeToHex_eq. apply Forall_app. split; [by repeat constructor|].
  apply Forall_app. split; [|by repeat constructor].
  unfold bytes_hex. apply Forall_concat, Forall_map.
  eapply Forall_impl; [exact Hb|]. intros c Hc. simpl.
  destruct (byte_hex_cases c Hc) as (h1 & h2 & -> & H1 & H2 & _).
  unfold is_hex_upper in *. constructor; [lia|]. constructor; [lia|constructor].
Qed.

Lemma on_new_buffer_normal {S} (write : M ByteBuffer.t unit) buffer (s : S) :
  write (ByteBuffer.new 256) = (Normal (), buffer) →
  MessageEmitter.on_new_buffer write s = (Normal buffer, s).
Proof. intros E. unfold MessageEmitter.on_new_buffer. by rewrite E. Qed.

Lemma serialize_header_normal header :
  valid_string (guid header) → valid_string (version header) → 0 ≤ index header < 2 ^ 32 →
  serialize HeaderSerializer (to_value header) (ByteBuffer.new 256)
  = (Normal (), run (serialize HeaderSerializer (to_value header)) (ByteBuffer.new 256)).
Proof.
  intros Hg Hv Hi.
  destruct (serialize_hex_deserialize _ _ (valid_header header Hg Hv Hi)) as (buffer & E & _).
  unfold run. by rewrite E.
Qed.

Lemma valid_version : valid_string PROTOCOL_VERSION.
Proof. split; [simpl; lia|]. apply (bool_decide_unpack _). by vm_compute. Qed.

Lemma send_loop_events g encodedEndpoint n rest : ∀ i log,
  valid_string g → 0 ≤ i → i + Z.of_nat (length rest) ≤ 2 ^ 32 →
  MessageEmitter.send_loop g encodedEndpoint n i rest log
  = (Normal (), log ++ (wire_event encodedEndpoint <$> MessageEmitter.emit_loop g n i rest)).
Proof.
  intros i log Hg. revert i log.
  induction rest as [|fragment rest IH]; intros i log Hi Hn;
    cbn [MessageEmitter.send_loop MessageEmitter.emit_loop].
  { by rewrite fmap_nil, app_nil_r. }
  cbn [length] in Hn.
  erewrite bind_normal; last first.
  { apply on_new_buffer_normal, (serialize_header_normal (create g i (i =? n - 1)));
      [done|apply valid_version|simpl; lia]. }
  erewrite bind_normal by reflexivity.
  rewrite IH by lia. by rewrite fmap_cons, <- app_assoc.
Qed.

Lemma fmap_result {A B} (f : A → B) (m : M ByteBuffer.t A) b x :
  (∀ y, f y = f x → y = x) → result (f <$> m) b = Normal (f x) → result m b = Normal x.
Proof.
  intros Hf. unfold result, fmap, M_fmap, mbind, M_bind, mret, M_ret.
  destruct (m b) as [[y|e] b']; simpl; [|done]. intros [= E]. by rewrite (Hf y E).
Qed.

(** The endpoint on the wire. *)
Lemma endpoint_wire endpoint :
  valid_string endpoint →
  ∃ buffer, String_serialize endpoint (ByteBuffer.new 256) = (Normal (), buffer) ∧
    Forall is_byte (toUint8Array buffer) ∧
    result String_deserialize (HeaderCodec.decodeFromHex (HeaderCodec.encodeToHex buffer))
    = Normal endpoint.
Proof.
  intros He.
  destruct (serialize_hex_deserialize StringSerializer (VString endpoint) He)
    as (buffer & E & Hb & Hd).
  exists buffer. split; [done|]. split; [done|].
  destruct (decodeFromHex_encodeToHex buffer Hb) as (Hbs & Hr & Hwf).
  apply (fmap_result VString); [by intros y [= ->]|].
  apply (Hd []); [done..|]. by rewrite app_nil_r.
Qed.

Lemma header_wire header :
  valid_string (guid header) → valid_string (version header) → 0 ≤ index header < 2 ^ 32 →
  let buffer := run (serialize HeaderSerializer (to_value header)) (ByteBuffer.new 256) in
  Forall is_byte (toUint8Array buffer) ∧
  result (deserialize HeaderSerializer)
    (HeaderCodec.decodeFromHex (HeaderCodec.encodeToHex buffer))
  = Normal (to_value header).
Proof.
  intros Hg Hv Hi.
  destruct (serialize_hex_deserialize _ _ (valid_header header Hg Hv Hi))
    as (buffer & E & Hb & Hd).
  unfold run. rewrite E. simpl. split; [done|].
  destruct (decodeFromHex_encodeToHex buffer Hb) as (Hbs & Hr & Hwf).
  apply (Hd []); [done..|]. by rewrite app_nil_r.
Qed.

(** *** The dispatch loop *)

Lemma ends_bind_normal {S A B} (m : M S A) (k : A → Job S B) s a s' :
  m s = (Normal a, s') → (ends m ≫= k) s = k a s'.
Proof. intros E. unfold mbind, Job_bind, ends. by rewrite E. Qed.

Lemma dispatch_eq fuel callbacks listeners i header fragment l :
  dispatch fuel callbacks listeners i header fragment l
  = match default [] (EndpointManager.arrays (endpointManager l) !! listeners) !! i with
    | None => Some (Normal (), l)
    | Some listener =>
      match fuel with
      | O => None
      | S fuel' =>
        dispatch fuel' callbacks listeners (S i) header fragment
          (run (try_catch (call callbacks listener header fragment)) l)
      end
    end.
Proof. by destruct fuel. Qed.



(** What a call of a listener function comes to: the fragment is
    recorded, and the callback is invoked when the listener has a value
    for it. What the call throws is caught. *)
Lemma call_eq callbacks j header h fragment c l :
  of_value header = Some h → closures l !! j = Some c →
  try_catch (call callbacks j header fragment) l
  = (Normal (),
     match result (listener (deserializer c) h fragment) (captured c),
           drop (length (calls (captured c)))
                (calls (run (listener (deserializer c) h fragment) (captured c))) with
     | Normal _, v :: _ => run (callbacks (callback c) v) (recorded_by j h fragment l)
     | _, _ => recorded_by j h fragment l
     end).
Proof.
  intros Hh Hc. unfold try_catch, call, recorded_by, run, result. rewrite Hc, Hh.
  destruct (listener (deserializer c) h fragment (captured c)) as [[[]|e] st]; simpl; [|done].
  destruct (drop _ _) as [|v vs]; [done|].
  by destruct (callbacks (callback c) v _) as [[[]|e] l'].
Qed.







(** A script event of [emit] for an endpoint that has listeners gets to
    the loop over them. *)
Lemma handleEvent_dispatch callbacks fuel endpoint encodedEndpoint ev ref j array l :
  valid_string endpoint →
  (∃ buffer, String_serialize endpoint (ByteBuffer.new 256) = (Normal (), buffer) ∧
     encodedEndpoint = HeaderCodec.encodeToHex buffer) →
  valid_string (guid ev.1) → valid_string (version ev.1) → 0 ≤ index ev.1 < 2 ^ 32 →
  EndpointManager.endpoints (endpointManager l) !! endpoint = Some ref →
  EndpointManager.arrays (endpointManager l) !! ref = Some (j :: array) →
  handleEvent callbacks fuel (received_event (wire_event encodedEndpoint ev)) l
  = dispatch fuel callbacks ref 0 (to_value ev.1) ev.2 l.
Proof.
  intros He (buffer & Eb & ->) Hg Hv Hi Hep Ha.
  destruct (endpoint_wire endpoint He) as (buffer' & Eb' & Hbytes & Hd).
  rewrite Eb in Eb'. injection Eb' as <-.
  destruct (header_wire ev.1 Hg Hv Hi) as [Hhb Hhd].
  unfold handleEvent, received_event, wire_event. cbn [sourceType id message fst snd].
  change (str ":" ++ ?x) with (58 :: x).
  rewrite split_two by by apply encodeToHex_no_colon. cbn [lookup list_lookup].
  unfold defined. erewrite ends_bind_normal by reflexivity.
  erewrite ends_bind_normal; last first.
  { unfold on_buffer. unfold result in Hd. by rewrite Hd. }
  erewrite ends_bind_normal by reflexivity. cbn beta. rewrite Hep.
  erewrite ends_bind_normal by reflexivity. cbn beta. rewrite Ha.
  cbn [default from_option Datatypes.id].
  erewrite ends_bind_normal by reflexivity.
  erewrite ends_bind_normal; last first.
  { unfold on_buffer. unfold result in Hhd. by rewrite Hhd. }
  done.
Qed.



Lemma listen_eq endpoint s k l :
  (listen endpoint s k l).2
  = {| endpointManager :=
         (EndpointManager.register endpoint (length (closures l)) (endpointManager l)).2;
       closures := closures l ++ [{| deserializer := s; callback := k; captured := initial |}] |}.
Proof. unfold listen. by destruct (EndpointManager.register _ _ _). Qed.

Lemma listen_unsubscribe endpoint s k l :
  (listen endpoint s k l).1
  = (EndpointManager.register endpoint (length (closures l)) (endpointManager l)).1.
Proof. unfold listen. by destruct (EndpointManager.register _ _ _). Qed.

Lemma fragments_bound payload :
  Forall is_byte (toUint8Array payload) →
  Z.of_nat (length (toUint8Array payload)) < 2 ^ 32 →
  Z.of_nat (length (PacketEncoder.encode payload PacketEncoder.MAX_FRAGMENT_SIZE)) ≤ 2 ^ 32.
Proof.
  intros Hb Hlen.
  assert (Hm : 3 ≤ PacketEncoder.MAX_FRAGMENT_SIZE) by (unfold PacketEncoder.MAX_FRAGMENT_SIZE; lia).
  pose proof (encode_length_le payload PacketEncoder.MAX_FRAGMENT_SIZE Hb Hm) as Hle.
  assert (Nat.div2 (S (length (toUint8Array payload))) ≤ length (toUint8Array payload))%nat
    by apply Nat.div2_decr, Nat.le_refl.
  lia.
Qed.

Lemma emit_events_message g endpoint s v payload :
  valid_string endpoint → valid_string g →
  serialize s v (ByteBuffer.new 256) = (Normal (), payload) →
  Forall is_byte (toUint8Array payload) →
  Z.of_nat (length (toUint8Array payload)) < 2 ^ 32 →
  ∃ buffer, String_serialize endpoint (ByteBuffer.new 256) = (Normal (), buffer) ∧
    MessageEmitter.emit_events g endpoint s v []
    = (Normal (),
       wire_event (HeaderCodec.encodeToHex buffer)
       <$> message_of g (PacketEncoder.encode payload PacketEncoder.MAX_FRAGMENT_SIZE)).
Proof.
  intros He Hg E Hb Hlen. destruct (endpoint_wire endpoint He) as (buffer & Eb & _).
  exists buffer. split; [done|]. unfold MessageEmitter.emit_events.
  erewrite bind_normal by by apply on_new_buffer_normal.
  erewrite bind_normal by by apply on_new_buffer_normal.
  rewrite send_loop_events; [done..|].
  pose proof (fragments_bound payload Hb Hlen). lia.
Qed.

Lemma wf_new_listener : wf_listener MessageListener.new.
Proof. split; [apply wf_new_manager|constructor]. Qed.

Lemma wf_listen endpoint s k l : wf_listener l → wf_listener (listen endpoint s k l).2.
Proof.
  intros [Hm Hids]. rewrite listen_eq.
  destruct (register_spec (endpointManager l) endpoint (length (closures l)) Hm) as (Hwf & _).
  split; [done|]. simpl. rewrite length_app. simpl.
  assert (Hids' : Forall (Forall (λ i, (i < length (closures l) + 1)%nat))
                    (EndpointManager.arrays (endpointManager l))).
  { eapply Forall_impl; [exact Hids|]. intros array Ha. eapply Forall_impl; [exact Ha|].
    simpl. lia. }
  unfold EndpointManager.register.
  destruct (EndpointManager.endpoints (endpointManager l) !! endpoint) as [ref|]; simpl.
  - apply Forall_alter; [done|]. intros array Ha Harr.
    apply Forall_app. split; [by apply (Forall_lookup_1 _ _ _ _ Hids' Ha)|].
    constructor; [lia|constructor].
  - apply Forall_app. split; [done|]. repeat constructor. lia.
Qed.





(** *** What [handleEvent] passes over *)

Lemma split_head sep a b :
  Forall (λ c, c ≠ sep) a → ∃ parts, split sep (a ++ b) = (a ++ default [] (head (split sep b))) :: parts.
Proof.
  intros Ha. induction Ha as [|c a Hc _ (parts & IH)]; simpl.
  - destruct b as [|c b]; simpl; [by exists []|].
    destruct (c =? sep); [by eexists|]. destruct (split sep b); by eexists.
  - rewrite IH. destruct (Z.eqb_spec c sep); [done|]. by eexists.
Qed.

(** X23 -- [handleEvent] passes over a script event that does not come from
    the server and over one for an endpoint without listener, whatever
    follows the endpoint in its identifier: it reads no header, throws
    nothing and changes nothing, whatever the callbacks are. After
    [close] that is every event of [emit]. [listen] keeps the invariant
    of the class. *)
Theorem handleEvent_passes_over (l : MessageListener.t) :
  (∀ callbacks fuel event,
     sourceType event ≠ Server → handleEvent callbacks fuel event l = Some (Normal (), l)) ∧
  (∀ callbacks fuel endpoint buffer rest fragment,
     valid_string endpoint →
     String_serialize endpoint (ByteBuffer.new 256) = (Normal (), buffer) →
     EndpointManager.getListeners endpoint (endpointManager l) = None →
     (rest = [] ∨ ∃ tail, rest = 58 :: tail) →
     handleEvent callbacks fuel
       {| sourceType := Server;
          id := HeaderCodec.encodeToHex buffer ++ rest;
          message := fragment |} l
     = Some (Normal (), l)) ∧
  (∀ endpoint, EndpointManager.getListeners endpoint (endpointManager (close l)) = None) ∧
  wf_listener MessageListener.new ∧
  (wf_listener l → ∀ endpoint s k, wf_listener (listen endpoint s k l).2).
Proof.
  split; [|split; [|split; [|split]]].
  - intros callbacks fuel [[] i fragment] Hs; done.
  - intros callbacks fuel endpoint buffer rest fragment He Eb Hl Hrest.
    destruct (endpoint_wire endpoint He) as (buffer' & Eb' & Hb & Hd).
    rewrite Eb in Eb'. injection Eb' as <-.
    pose proof (encodeToHex_no_colon buffer Hb) as Hc.
    unfold handleEvent. cbn [sourceType id message].
    assert (Hparts : split 58 (HeaderCodec.encodeToHex buffer ++ rest) !! 0%nat
                     = Some (HeaderCodec.encodeToHex buffer)).
    { destruct Hrest as [->|[tail ->]].
      - by rewrite app_nil_r, split_no_sep.
      - destruct (split_head 58 _ (58 :: tail) Hc) as (parts & ->).
        change (split 58 (58 :: tail)) with ([] :: split 58 tail).
        cbn [head default lookup list_lookup]. by rewrite app_nil_r. }
    rewrite Hparts. unfold defined. erewrite ends_bind_normal by reflexivity.
    erewrite ends_bind_normal; last first.
    { unfold on_buffer. unfold result in Hd. by rewrite Hd. }
    erewrite ends_bind_normal by reflexivity. cbn beta.
    unfold EndpointManager.getListeners in Hl.
    destruct (EndpointManager.endpoints (endpointManager l) !! endpoint) as [ref|]; [|done].
    simpl in Hl. erewrite ends_bind_normal by reflexivity. cbn beta. by rewrite Hl.
  - intros endpoint. unfold EndpointManager.getListeners. simpl. by rewrite lookup_empty.
  - apply wf_new_listener.
  - intros Hl endpoint s k. by apply wf_listen.
Qed.

Lemma handleEvent_passes_over_witness :
  handleEvent (λ _ _, mret ()) 0
    {| sourceType := Server;
       id := HeaderCodec.encodeToHex (run (String_serialize (str "b")) (ByteBuffer.new 256));
       message := str "0102" |}
    (listen (str "a") UInt16Serializer 0 MessageListener.new).2
  = Some (Normal (), (listen (str "a") UInt16Serializer 0 MessageListener.new).2).
Proof.
  destruct (handleEvent_passes_over (listen (str "a") UInt16Serializer 0 MessageListener.new).2)
    as (_ & H & _).
  rewrite <- (app_nil_r (HeaderCodec.encodeToHex _)).
  apply (H (λ _ _, mret ()) 0%nat (str "b")).
  - split; [simpl; lia|]. apply (bool_decide_unpack _). by vm_compute.
  - reflexivity.
  - reflexivity.
  - by left.
Defined.

(** *** A callback that unsubscribes its listener *)

Lemma listener_invoked des h f st v :
  calls (run (listener des h f) st) = calls st ++ [v] →
  result (listener des h f) st = Normal ().
Proof.
  assert (Hno : calls st ≠ calls st ++ [v]).
  { intros E. apply (f_equal length) in E. rewrite length_app in E. simpl in E. lia. }
  unfold run, result, listener. destruct (complete _); [|done].
  destruct (copy_fragments _ _ _ _); [|done].
  by destruct (Serializer.deserialize _ _) as [[x|e] b].
Qed.

Lemma call_pending callbacks j header h fragment c l :
  of_value header = Some h → closures l !! j = Some c →
  calls (run (listener (deserializer c) h fragment) (captured c)) = calls (captured c) →
  try_catch (call callbacks j header fragment) l = (Normal (), recorded_by j h fragment l).
Proof.
  intros Hh Hc E. rewrite (call_eq callbacks j header h fragment c l Hh Hc), E, drop_all.
  by destruct (result _ _) as [[]|].
Qed.

Lemma call_invoked callbacks j header h fragment c l v :
  of_value header = Some h → closures l !! j = Some c →
  calls (run (listener (deserializer c) h fragment) (captured c)) = calls (captured c) ++ [v] →
  try_catch (call callbacks j header fragment) l
  = (Normal (), run (callbacks (callback c) v) (recorded_by j h fragment l)).
Proof.
  intros Hh Hc E. rewrite (call_eq callbacks j header h fragment c l Hh Hc).
  by rewrite (listener_invoked _ _ _ _ v E), E, drop_app_length.
Qed.

Lemma recorded_by_lookup j h fragment c l :
  closures l !! j = Some c →
  endpointManager (recorded_by j h fragment l) = endpointManager l ∧
  closures (recorded_by j h fragment l) !! j
  = Some {| deserializer := deserializer c; callback := callback c;
            captured := run (listener (deserializer c) h fragment) (captured c) |} ∧
  ∀ j', j' ≠ j → closures (recorded_by j h fragment l) !! j' = closures l !! j'.
Proof.
  intros Hc. unfold recorded_by. rewrite Hc. simpl. split; [done|]. split.
  - apply list_lookup_insert_eq. by apply lookup_lt_Some in Hc.
  - intros j' Hj. by apply list_lookup_insert_ne.
Qed.

Lemma deliver_snoc s p ev st :
  deliver s (p ++ [ev]) st = run (listener s ev.1 ev.2) (deliver s p st).
Proof. unfold deliver. by rewrite foldl_app. Qed.

Lemma handleEvents_app callbacks fuel xs ys : ∀ l l1,
  handleEvents callbacks fuel xs l = Some l1 →
  handleEvents callbacks fuel (xs ++ ys) l = handleEvents callbacks fuel ys l1.
Proof.
  induction xs as [|x xs IH]; intros l l1 E; simpl in *; [by injection E as ->|].
  destruct (handleEvent callbacks fuel x l) as [[r l']|]; [|done]. by apply IH.
Qed.

Lemma register_existing endpoint ref (x : nat) m :
  EndpointManager.endpoints m !! endpoint = Some ref →
  EndpointManager.register endpoint x m
  = ({| EndpointManager.listeners := ref; EndpointManager.listener := x;
        EndpointManager.endpoint := endpoint |},
     {| EndpointManager.endpoints := EndpointManager.endpoints m;
        EndpointManager.arrays := alter (λ array, array ++ [x]) ref (EndpointManager.arrays m) |}).
Proof. intros E. unfold EndpointManager.register. by rewrite E. Qed.

(** Two listeners [a] and [b] of an endpoint, in that order, whose
    states are those of the deliveries [p]; an event that completes no
    message is recorded by both. *)
Lemma both_pending callbacks fuel endpoint encodedEndpoint ref a b s ka kb m p ev l :
  a ≠ b → (2 ≤ fuel)%nat →
  valid_string endpoint →
  (∃ buffer, String_serialize endpoint (ByteBuffer.new 256) = (Normal (), buffer) ∧
     encodedEndpoint = HeaderCodec.encodeToHex buffer) →
  valid_string (guid ev.1) → valid_string (version ev.1) → 0 ≤ index ev.1 < 2 ^ 32 →
  EndpointManager.endpoints m !! endpoint = Some ref →
  EndpointManager.arrays m !! ref = Some [a; b] →
  endpointManager l = m →
  closures l !! a = Some {| deserializer := s; callback := ka; captured := deliver s p initial |} →
  closures l !! b = Some {| deserializer := s; callback := kb; captured := deliver s p initial |} →
  calls (deliver s p initial) = [] →
  calls (deliver s (p ++ [ev]) initial) = [] →
  ∃ l', handleEvent callbacks fuel (received_event (wire_event encodedEndpoint ev)) l
        = Some (Normal (), l') ∧
    endpointManager l' = m ∧
    closures l' !! a
    = Some {| deserializer := s; callback := ka; captured := deliver s (p ++ [ev]) initial |} ∧
    closures l' !! b
    = Some {| deserializer := s; callback := kb; captured := deliver s (p ++ [ev]) initial |}.
Proof.
  intros Hab Hfuel He Hb Hg Hv Hi Hep Ha <- Hca Hcb Hp Hpev.
  rewrite (handleEvent_dispatch callbacks fuel endpoint encodedEndpoint ev ref a [b] l)
    by done.
  destruct fuel as [|[|fuel]]; [lia..|].
  rewrite deliver_snoc in Hpev.
  destruct (recorded_by_lookup a ev.1 ev.2 _ l Hca) as (Hm1 & Ha1 & Ho1).
  cbn [deserializer callback captured] in Ha1.
  rewrite dispatch_eq, Ha. cbn [default from_option Datatypes.id lookup list_lookup].
  unfold run at 1.
  rewrite (call_pending callbacks a _ ev.1 ev.2 _ l (of_value_to_value _) Hca)
    by (cbn [deserializer captured]; congruence).
  cbn [snd].
  set (l1 := recorded_by a ev.1 ev.2 l) in *.
  assert (Hcb1 : closures l1 !! b
                 = Some {| deserializer := s; callback := kb; captured := deliver s p initial |}).
  { rewrite Ho1 by done. exact Hcb. }
  destruct (recorded_by_lookup b ev.1 ev.2 _ l1 Hcb1) as (Hm2 & Hb2 & Ho2).
  cbn [deserializer callback captured] in Hb2.
  rewrite dispatch_eq, Hm1, Ha. cbn [default from_option Datatypes.id lookup list_lookup].
  unfold run at 1.
  rewrite (call_pending callbacks b _ ev.1 ev.2 _ l1 (of_value_to_value _) Hcb1)
    by (cbn [deserializer captured]; congruence).
  cbn [snd].
  set (l2 := recorded_by b ev.1 ev.2 l1) in *.
  rewrite dispatch_eq, Hm2, Hm1, Ha. cbn [default from_option Datatypes.id lookup list_lookup].
  exists l2. split; [done|]. split; [congruence|]. rewrite deliver_snoc. split; [|done].
  rewrite Ho2 by done. exact Ha1.
Qed.

Lemma all_pending callbacks fuel endpoint encodedEndpoint ref a b s ka kb m :
  a ≠ b → (2 ≤ fuel)%nat →
  valid_string endpoint →
  (∃ buffer, String_serialize endpoint (ByteBuffer.new 256) = (Normal (), buffer) ∧
     encodedEndpoint = HeaderCodec.encodeToHex buffer) →
  EndpointManager.endpoints m !! endpoint = Some ref →
  EndpointManager.arrays m !! ref = Some [a; b] →
  ∀ q p l,
    Forall (λ ev, valid_string (guid ev.1) ∧ valid_string (version ev.1)
                  ∧ 0 ≤ index ev.1 < 2 ^ 32) q →
    (∀ p1 p2, p ++ q = p1 ++ p2 → calls (deliver s p1 initial) = []) →
    endpointManager l = m →
    closures l !! a
    = Some {| deserializer := s; callback := ka; captured := deliver s p initial |} →
    closures l !! b
    = Some {| deserializer := s; callback := kb; captured := deliver s p initial |} →
    ∃ l', handleEvents callbacks fuel (received_event <$> (wire_event encodedEndpoint <$> q)) l
          = Some l' ∧
      endpointManager l' = m ∧
      closures l' !! a
      = Some {| deserializer := s; callback := ka; captured := deliver s (p ++ q) initial |} ∧
      closures l' !! b
      = Some {| deserializer := s; callback := kb; captured := deliver s (p ++ q) initial |}.
Proof.
  intros Hab Hfuel He Hb Hep Ha. induction q as [|ev q IH]; intros p l Hq Hpend Hm Hca Hcb.
  { exists l. by rewrite app_nil_r. }
  apply Forall_cons in Hq as [(Hg & Hv & Hi) Hq].
  destruct (both_pending callbacks fuel endpoint encodedEndpoint ref a b s ka kb m p ev l)
    as (l1 & E1 & Hm1 & Hca1 & Hcb1); try done.
  { by apply (Hpend p (ev :: q)). }
  { apply (Hpend (p ++ [ev]) q). by rewrite <- app_assoc. }
  destruct (IH (p ++ [ev]) l1) as (l' & E' & Hl'); try done.
  { intros p1 p2 E. apply (Hpend p1 p2). by rewrite <- E, <- app_assoc. }
  exists l'. rewrite !fmap_cons. cbn [handleEvents]. rewrite E1.
  split; [done|]. by rewrite <- app_assoc in Hl'.
Qed.

(** X28 -- The loop of [handleEvent] goes through the array of listeners
    as it is at each turn. Two listeners are registered on an endpoint
    that had none, and the callback of the first calls the unsubscribe
    function of its listener, as the callbacks of [IPCClient.once] and
    [IPCClient.invoke] do. Of a message sent to the endpoint, in whatever
    order its script events arrive, the first callback is invoked with
    the value; the event that completes the message is never handed to
    the second listener, whose callback is not invoked, and the second
    listener is left as the only listener of the endpoint. *)
Theorem handleEvent_skips_next (callbacks : Callbacks) (fuel : nat) (l : MessageListener.t)
    (endpoint g : list Z) (s : Serializer.t) (ka kb : nat) (v : value) :
  wf_listener l → valid_string endpoint → valid_string g → valid s v →
  toUint8Array (run (serialize s v) (ByteBuffer.new 256)) ≠ [] →
  Z.of_nat (length (toUint8Array (run (serialize s v) (ByteBuffer.new 256)))) < 2 ^ 32 →
  EndpointManager.getListeners endpoint (endpointManager l) = None →
  (∀ x l', callbacks ka x l'
           = (Normal (), MessageListener.unsubscribe (listen endpoint s ka l).1 l')) →
  (2 ≤ fuel)%nat →
  ∃ sent,
    MessageEmitter.emit_events g endpoint s v [] = (Normal (), sent) ∧
    ∀ arrival, arrival ≡ₚ sent →
      ∃ l', handleEvents callbacks fuel (received_event <$> arrival)
              (listen endpoint s kb (listen endpoint s ka l).2).2 = Some l' ∧
        captured <$> closures l' !! length (closures l)
        = Some {| fragmentBuffer := ∅; calls := [v] |} ∧
        calls ∘ captured <$> closures l' !! S (length (closures l)) = Some [] ∧
        EndpointManager.getListeners endpoint (endpointManager l')
        = Some [S (length (closures l))].
Proof.
  intros Hwf He Hg Hv Hne Hlen Hnone Hka Hfuel.
  destruct (fragments_of_valid s v Hv) as (payload & E & Hb & Hd).
  unfold run in Hne, Hlen. rewrite E in Hne, Hlen. simpl in Hne, Hlen.
  destruct (emit_events_message g endpoint s v payload He Hg E Hb Hlen) as (buffer & Eb & Es).
  set (fs := PacketEncoder.encode payload PacketEncoder.MAX_FRAGMENT_SIZE) in *.
  assert (Hfs : fs ≠ []).
  { pose proof (encode_length_pos payload PacketEncoder.MAX_FRAGMENT_SIZE) as H.
    fold fs in H. destruct fs; [simpl in H; lia|done]. }
  destruct (message_of_events g fs) as (_ & Hof & Hl).
  eexists. split; [exact Es|].
  intros arrival Hperm.
  apply Permutation_map_inv in Hperm as (harrival & -> & Hperm).
  symmetry in Hperm.
  assert (Hvalid : Forall (λ ev, valid_string (guid ev.1) ∧ valid_string (version ev.1)
                                 ∧ 0 ≤ index ev.1 < 2 ^ 32) harrival).
  { rewrite Hperm. eapply Forall_impl; [exact Hof|]. intros ev (Ehd & Hpos & Hf).
    rewrite Ehd. simpl. split; [done|]. split; [apply valid_version|].
    split; [done|]. apply lookup_lt_Some in Hf.
    pose proof (fragments_bound payload Hb Hlen) as Hle. fold fs in Hle. lia. }
  destruct (deliver_any_order s g fs harrival v initial) as [Hall Hpre]; try done.
  { apply encode_all_nonempty; [done|unfold PacketEncoder.MAX_FRAGMENT_SIZE; lia|done]. }
  (* the two registrations *)
  pose proof Hwf as [Hm Hids].
  set (a := length (closures l)) in *.
  assert (Hfresh : EndpointManager.endpoints (endpointManager l) !! endpoint = None).
  { unfold EndpointManager.getListeners in Hnone.
    destruct (EndpointManager.endpoints (endpointManager l) !! endpoint) as [r|] eqn:Er;
      [|done].
    destruct Hm as [Hm1 _]. destruct (Hm1 _ _ Er) as (array & Harr & _).
    simpl in Hnone. congruence. }
  destruct (register_spec (endpointManager l) endpoint a Hm)
    as (_ & _ & _ & _ & _ & _ & _ & Hreg).
  destruct (Hreg Hfresh) as [Hra Hma]. clear Hreg.
  set (ref := length (EndpointManager.arrays (endpointManager l))) in *.
  assert (Hua : (listen endpoint s ka l).1
                = {| EndpointManager.listeners := ref; EndpointManager.listener := a;
                     EndpointManager.endpoint := endpoint |}).
  { rewrite listen_unsubscribe. unfold EndpointManager.register. by rewrite Hfresh. }
  rewrite Hua in Hka.
  set (la := (listen endpoint s ka l).2).
  assert (Hla : la = {| endpointManager :=
                          {| EndpointManager.endpoints :=
                               <[endpoint := ref]> (EndpointManager.endpoints (endpointManager l));
                             EndpointManager.arrays :=
                               EndpointManager.arrays (endpointManager l) ++ [[a]] |};
                        closures := closures l ++ [{| deserializer := s; callback := ka;
                                                      captured := initial |}] |}).
  { subst la. rewrite listen_eq. fold a. by rewrite Hma. }
  assert (Hlen_a : length (closures la) = S a).
  { rewrite Hla. simpl. rewrite length_app. simpl. lia. }
  set (m := {| EndpointManager.endpoints :=
                 <[endpoint := ref]> (EndpointManager.endpoints (endpointManager l));
               EndpointManager.arrays :=
                 alter (λ array, array ++ [S a]) ref
                   (EndpointManager.arrays (endpointManager l) ++ [[a]]) |}).
  assert (Hlb : (listen endpoint s kb la).2
                = {| endpointManager := m;
                     closures := (closures l ++ [{| deserializer := s; callback := ka;
                                                    captured := initial |}])
                                 ++ [{| deserializer := s; callback := kb;
                                        captured := initial |}] |}).
  { rewrite listen_eq, Hlen_a. rewrite Hla. cbn [endpointManager closures].
    rewrite (register_existing endpoint ref); [done|]. simpl. apply lookup_insert_eq. }
  rewrite Hlb. clear Hlb.
  assert (Hep : EndpointManager.endpoints m !! endpoint = Some ref)
    by apply lookup_insert_eq.
  assert (Harr : EndpointManager.arrays m !! ref = Some [a; S a]).
  { subst m. simpl. rewrite list_lookup_alter_eq.
    by rewrite lookup_app_r, Nat.sub_diag by (unfold ref; lia). }
  (* the deliveries *)
  destruct harrival as [|last pend _] using rev_ind.
  { apply Permutation_nil_l in Hperm. apply (f_equal length) in Hperm.
    rewrite Hl in Hperm. by destruct fs. }
  destruct (all_pending callbacks fuel endpoint (HeaderCodec.encodeToHex buffer) ref a (S a)
              s ka kb m (n_Sn a) Hfuel He (ex_intro _ buffer (conj Eb eq_refl)) Hep Harr
              pend []
              {| endpointManager := m;
                 closures := (closures l ++ [{| deserializer := s; callback := ka;
                                                captured := initial |}])
                             ++ [{| deserializer := s; callback := kb;
                                    captured := initial |}] |})
    as (l1 & E1 & Hm1 & Hca1 & Hcb1).
  - by apply Forall_app in Hvalid as [? _].
  - intros p1 p2 Ep. simpl in Ep.
    apply (Hpre p1 (p2 ++ [last])); [by rewrite Ep, <- app_assoc|by destruct p2].
  - done.
  - cbn [closures]. rewrite lookup_app_l by (rewrite length_app; simpl; unfold a; lia).
    by rewrite lookup_app_r, Nat.sub_diag by (unfold a; lia).
  - cbn [closures]. rewrite lookup_app_r by (rewrite length_app; simpl; unfold a; lia).
    rewrite length_app. simpl. fold a. by replace (S a - (a + 1))%nat with 0%nat by lia.
  - simpl in Hca1, Hcb1.
    apply Forall_app in Hvalid as [_ [(Hg' & Hv' & Hi') _]%Forall_cons].
    assert (Hpend : calls (deliver s pend initial) = []) by by apply (Hpre pend [last]).
    rewrite deliver_snoc in Hall.
    rewrite !fmap_app. rewrite (handleEvents_app _ _ _ _ _ _ E1).
    cbn [fmap list_fmap handleEvents].
    rewrite (handleEvent_dispatch callbacks fuel endpoint (HeaderCodec.encodeToHex buffer)
               last ref a [S a] l1); try done; [|by exists buffer|congruence..].
    destruct fuel as [|fuel]; [lia|].
    destruct (recorded_by_lookup a last.1 last.2 _ l1 Hca1) as (Hm2 & Ha2 & Ho2).
    cbn [deserializer callback captured] in Ha2. rewrite Hall in Ha2.
    rewrite dispatch_eq, Hm1, Harr. cbn [default from_option Datatypes.id lookup list_lookup].
    unfold run at 1.
    rewrite (call_invoked callbacks a _ last.1 last.2 _ l1 v (of_value_to_value _) Hca1)
      by (cbn [deserializer captured]; by rewrite Hall, Hpend).
    cbn [snd callback]. unfold run at 1. rewrite Hka. cbn [snd].
    set (l2 := recorded_by a last.1 last.2 l1) in *.
    assert (Hm3 : endpointManager (MessageListener.unsubscribe
                     {| EndpointManager.listeners := ref; EndpointManager.listener := a;
                        EndpointManager.endpoint := endpoint |} l2)
                  = {| EndpointManager.endpoints := EndpointManager.endpoints m;
                       EndpointManager.arrays := <[ref := [S a]]> (EndpointManager.arrays m) |}).
    { unfold MessageListener.unsubscribe, EndpointManager.unsubscribe.
      cbn [endpointManager EndpointManager.listeners EndpointManager.listener
             EndpointManager.endpoint].
      rewrite Hm2, Hm1, Harr. cbn [default from_option Datatypes.id].
      unfold EndpointManager.indexOf. cbn [list_find]. rewrite decide_True by done.
      done. }
    assert (Harr3 : <[ref := [S a]]> (EndpointManager.arrays m) !! ref = Some [S a]).
    { apply list_lookup_insert_eq. by apply lookup_lt_Some in Harr. }
    rewrite dispatch_eq, Hm3. cbn [EndpointManager.arrays]. rewrite Harr3.
    cbn [default from_option Datatypes.id lookup list_lookup].
    eexists. split; [done|].
    unfold MessageListener.unsubscribe at 1 2. cbn [closures].
    rewrite Ha2, Ho2, Hcb1 by lia. cbn [fmap option_fmap option_map captured compose].
    split; [done|]. split; [by rewrite Hpend|].
    rewrite Hm3. unfold EndpointManager.getListeners. cbn [EndpointManager.endpoints].
    rewrite Hep. cbn [mbind option_bind EndpointManager.arrays]. exact Harr3.
Qed.

Lemma handleEvent_skips_next_witness :
  ∃ l',
    handleEvents
      (λ k _, if (k =? 0)%nat
              then modify (MessageListener.unsubscribe
                             (listen (str "ipc:a:send") UInt16Serializer 0 MessageListener.new).1)
              else mret ()) 2
      (received_event
       <$> (MessageEmitter.emit_events (str "CD34AB12") (str "ipc:a:send") UInt16Serializer
              (VNumber 258) []).2)
      (listen (str "ipc:a:send") UInt16Serializer 1
         (listen (str "ipc:a:send") UInt16Serializer 0 MessageListener.new).2).2 = Some l' ∧
    captured <$> closures l' !! 0%nat = Some {| fragmentBuffer := ∅; calls := [VNumber 258] |} ∧
    calls ∘ captured <$> closures l' !! 1%nat = Some [] ∧
    EndpointManager.getListeners (str "ipc:a:send") (endpointManager l') = Some [1%nat].
Proof.
  destruct (handleEvent_skips_next
              (λ k _, if (k =? 0)%nat
                      then modify (MessageListener.unsubscribe
                                     (listen (str "ipc:a:send") UInt16Serializer 0
                                        MessageListener.new).1)
                      else mret ()) 2
              MessageListener.new
              (str "ipc:a:send") (str "CD34AB12")
              UInt16Serializer 0 1 (VNumber 258)) as (sent & E & H).
  - apply wf_new_listener.
  - split; [simpl; lia|]. apply (bool_decide_unpack _). by vm_compute.
  - split; [simpl; lia|]. apply (bool_decide_unpack _). by vm_compute.
  - simpl. lia.
  - vm_compute. discriminate.
  - vm_compute. reflexivity.
  - reflexivity.
  - reflexivity.
  - lia.
  - rewrite E. by apply H.
Defined.

End Wire.

(** ** Serializers: framing, sizes, numbers out of range *)

Section SerializersMore.
Import ByteBuffer DataView Serializer.

(** A writer followed by the reader of what it wrote, on a buffer that
    has nothing left to read. *)
Lemma write_then_read {A} (w : M ByteBuffer.t unit) (r : M ByteBuffer.t A) bs a b :
  writes w bs → reads r bs a → wf b → readPos b = writePos b →
  ∃ b', (w;; r) b = (Normal a, b') ∧ wf b' ∧ readPos b' = writePos b' ∧
        toUint8Array b' = toUint8Array b ++ bs.
Proof.
  intros Hw Hr Hb Hall. destruct (Hw b Hb) as (b1 & E1 & Hb1 & W1 & R1).
  assert (Hd : drop (Z.to_nat (readPos b1)) (toUint8Array b1) = bs ++ []).
  { rewrite W1, R1, Hall, <- (length_toUint8Array b Hb), Nat2Z.id, app_nil_r.
    by rewrite drop_app_length. }
  eexists. split; [|split; [|split]].
  - rewrite (bind_normal _ _ _ _ _ E1). by apply (Hr b1 []).
  - apply set_readPos_wf; [done|lia|]. by apply (unread_length b1 bs []).
  - simpl. rewrite <- (length_toUint8Array b1 Hb1), W1, length_app, R1, Hall.
    rewrite <- (length_toUint8Array b Hb). lia.
  - done.
Qed.

(** X24 -- Values are framed by their own encoding: two valid values written one
    after the other are read back one after the other, each by its
    serializer, and nothing is left to read; the encoding of a valid
    value is never the beginning of the encoding of another one, so two
    valid values with the same bytes are the same value. *)
Theorem serialize_framed (s1 s2 : Serializer.t) (v1 v2 : value) :
  valid s1 v1 → valid s2 v2 →
  (∀ b, wf b → readPos b = writePos b →
     result (serialize s1 v1;; serialize s2 v2;;
             x ← deserialize s1; y ← deserialize s2; mret (x, y)) b = Normal (v1, v2) ∧
     available (run (serialize s1 v1;; serialize s2 v2;;
                     x ← deserialize s1; y ← deserialize s2; mret (x, y)) b) = 0) ∧
  (s1 = s2 →
   (∃ rest, toUint8Array (run (serialize s2 v2) (ByteBuffer.new 256))
            = toUint8Array (run (serialize s1 v1) (ByteBuffer.new 256)) ++ rest) →
   v1 = v2).
Proof.
  intros Hv1 Hv2.
  destruct (valid_roundtrips s1 v1 Hv1) as (bs1 & Hw1 & Hr1).
  destruct (valid_roundtrips s2 v2 Hv2) as (bs2 & Hw2 & Hr2).
  split.
  - intros b Hb Hall.
    assert (Hw : writes (serialize s1 v1;; serialize s2 v2) (bs1 ++ bs2))
      by by apply writes_bind.
    assert (Hr : reads (x ← deserialize s1; y ← deserialize s2; mret (x, y)) (bs1 ++ bs2)
                   (v1, v2)).
    { eapply reads_bind; [exact Hr1|]. rewrite <- (app_nil_r bs2).
      eapply reads_bind; [exact Hr2|]. apply reads_ret. }
    destruct (write_then_read _ _ _ _ b Hw Hr Hb Hall) as (b' & E & Hb' & Hall' & _).
    assert (E' : (serialize s1 v1;; serialize s2 v2;;
                  x ← deserialize s1; y ← deserialize s2; mret (x, y)) b = (Normal (v1, v2), b')).
    { unfold mbind, M_bind in *. destruct (serialize s1 v1 b) as [[[]|e] b1]; [|done].
      by destruct (serialize s2 v2 b1) as [[[]|e] b2]. }
    unfold result, run, available. rewrite E'. simpl. split; [done|lia].
  - intros <- [rest Hrest].
    destruct (serialize_hex_deserialize s1 v1 Hv1) as (b1 & E1 & _ & Hd1).
    destruct (serialize_hex_deserialize s1 v2 Hv2) as (b2 & E2 & _ & Hd2).
    unfold run in Hrest. rewrite E1, E2 in Hrest. simpl in Hrest.
    destruct (Hw2 _ (wf_new 256)) as (b2' & E2' & Hwf2 & _ & Hpos2).
    rewrite E2 in E2'. injection E2' as <-.
    pose proof (Hd1 rest b2 Hwf2 Hpos2 Hrest) as H1.
    pose proof (Hd2 [] b2 Hwf2 Hpos2) as H2. rewrite app_nil_r in H2.
    specialize (H2 eq_refl). rewrite H1 in H2. by injection H2.
Qed.

Lemma serialize_framed_witness :
  result (serialize StringSerializer (VString (str "ab"));; serialize Int8Serializer (VNumber (-3));;
          x ← deserialize StringSerializer; y ← deserialize Int8Serializer; mret (x, y))
    (ByteBuffer.new 256)
  = Normal (VString (str "ab"), VNumber (-3)).
Proof.
  destruct (serialize_framed StringSerializer Int8Serializer (VString (str "ab")) (VNumber (-3)))
    as [H _].
  - split; [simpl; lia|]. repeat constructor; lia.
  - simpl. lia.
  - by destruct (H (ByteBuffer.new 256) (wf_new 256) eq_refl).
Defined.

(** *** The size of a variable-length integer *)

Lemma length_leb128_pos : ∀ fuel v,
  0 ≤ v → Z.log2 v ≤ Z.of_nat fuel → (0 < length (leb128 fuel v))%nat.
Proof.
  intros fuel v Hv Hfuel. rewrite leb128_eq. destruct (Z.ltb_spec v 128); [simpl; lia|].
  destruct fuel; [|simpl; lia]. pose proof (log2_ge_128 v). lia.
Qed.

Lemma length_leb128 k : ∀ fuel v,
  (0 < k)%nat → 0 ≤ v → Z.log2 v ≤ Z.of_nat fuel →
  (v < 128 ^ Z.of_nat k → (length (leb128 fuel v) ≤ k)%nat) ∧
  (128 ^ Z.of_nat k ≤ v → (k < length (leb128 fuel v))%nat).
Proof.
  induction k as [|k IH]; intros fuel v Hk Hv Hfuel; [lia|].
  rewrite leb128_eq. destruct (Z.ltb_spec v 128).
  { simpl length. split; [lia|]. intros Hge.
    assert (128 ^ 1 ≤ 128 ^ Z.of_nat (S k)) by (apply Z.pow_le_mono_r; lia). lia. }
  destruct fuel as [|fuel].
  { pose proof (log2_ge_128 v). lia. }
  simpl length. rewrite Nat2Z.inj_succ, Z.pow_succ_r by lia.
  assert (Hdiv : 0 ≤ v / 128) by (apply Z.div_pos; lia).
  assert (Hlog : Z.log2 (v / 128) ≤ Z.of_nat fuel) by (rewrite log2_div_128 by lia; lia).
  destruct k as [|k].
  { pose proof (length_leb128_pos fuel (v / 128) Hdiv Hlog).
    change (128 ^ Z.of_nat 0) with 1. split; lia. }
  destruct (IH fuel (v / 128)) as (H1 & H2); [lia|done|done|].
  split.
  - intros Hlt. apply le_n_S, H1. apply Z.div_lt_upper_bound; lia.
  - intros Hge. apply -> Nat.succ_lt_mono. apply H2. apply Z.div_le_lower_bound; lia.
Qed.

(** X25 -- [VarUInt32] writes a number below 2^(7k) in at most [k] bytes and a
    number from 2^(7k) on in more than [k]: one byte below 128, at most 5
    bytes for 32 bits; [VarUInt64] writes at most 10 bytes. *)
Theorem varuint_size (v : Z) (k : nat) :
  (0 < k)%nat →
  let size32 := length (toUint8Array (run (serialize VarUInt32Serializer (VNumber v))
                                          (ByteBuffer.new 256))) in
  let size64 := length (toUint8Array (run (serialize VarUInt64Serializer (VBigInt v))
                                          (ByteBuffer.new 256))) in
  (0 ≤ v < 2 ^ 32 →
     (v < 128 ^ Z.of_nat k → (size32 ≤ k)%nat) ∧ (128 ^ Z.of_nat k ≤ v → (k < size32)%nat) ∧
     (1 ≤ size32 ≤ 5)%nat) ∧
  (0 ≤ v < 2 ^ 64 →
     (v < 128 ^ Z.of_nat k → (size64 ≤ k)%nat) ∧ (128 ^ Z.of_nat k ≤ v → (k < size64)%nat) ∧
     (1 ≤ size64 ≤ 10)%nat).
Proof.
  intros Hk size32 size64.
  assert (Hrun : ∀ m bs, writes m bs → toUint8Array (run m (ByteBuffer.new 256)) = bs).
  { intros m bs Hw. destruct (Hw _ (wf_new 256)) as (b' & E & _ & W & _).
    unfold run. rewrite E. simpl. by rewrite W, new_buffer_empty by lia. }
  split; intros Hv.
  - subst size32. cbn [serialize]. rewrite (Hrun _ _ (writes_VarUInt32_serialize v Hv)).
    unfold varuint_bytes.
    pose proof (Z.log2_nonneg v) as Hlog.
    destruct (length_leb128 k (Z.to_nat (Z.log2 v)) v Hk) as (H1 & H2); [lia|lia|].
    destruct (length_leb128 5 (Z.to_nat (Z.log2 v)) v) as (H5 & _); [lia|lia|lia|].
    pose proof (length_leb128_pos (Z.to_nat (Z.log2 v)) v) as H3.
    split; [done|]. split; [done|]. split; [lia|]. apply H5. lia.
  - subst size64. cbn [serialize]. rewrite (Hrun _ _ (writes_VarUInt64_serialize v Hv)).
    unfold varuint_bytes.
    pose proof (Z.log2_nonneg v) as Hlog.
    destruct (length_leb128 k (Z.to_nat (Z.log2 v)) v Hk) as (H1 & H2); [lia|lia|].
    destruct (length_leb128 10 (Z.to_nat (Z.log2 v)) v) as (H10 & _); [lia|lia|lia|].
    pose proof (length_leb128_pos (Z.to_nat (Z.log2 v)) v) as H3.
    split; [done|]. split; [done|]. split; [lia|]. apply H10. lia.
Qed.

Lemma varuint_size_witness :
  (length (toUint8Array (run (serialize VarUInt32Serializer (VNumber 16383))
                             (ByteBuffer.new 256))) ≤ 2)%nat ∧
  (2 < length (toUint8Array (run (serialize VarUInt32Serializer (VNumber 16384))
                                 (ByteBuffer.new 256))))%nat.
Proof.
  destruct (varuint_size 16383 2) as [[H1 _] _]; [lia|lia|].
  destruct (varuint_size 16384 2) as [(_ & H2 & _) _]; [lia|lia|].
  split; [apply H1|apply H2]; lia.
Defined.

(** *** Integers out of the range of their serializer *)

Lemma reads_back_of s v r bs :
  writes (serialize s v) bs → reads (deserialize s) bs r → reads_back s v r.
Proof.
  intros Hw Hr b Hb Hall.
  destruct (write_then_read _ _ _ _ b Hw Hr Hb Hall) as (b' & E & _).
  unfold result. by rewrite E.
Qed.

Lemma signed_wrap n v :
  (0 < n)%nat → signed n (v mod 2 ^ (8 * Z.of_nat n)) = wrap_signed (8 * Z.of_nat n) v.
Proof.
  intros Hn. unfold wrap_signed.
  assert (E : 2 ^ (8 * Z.of_nat n) = 2 * 2 ^ (8 * Z.of_nat n - 1)).
  { rewrite <- Z.pow_succ_r by lia. f_equal. lia. }
  assert (0 < 2 ^ (8 * Z.of_nat n - 1)) by (apply Z.pow_pos_nonneg; lia).
  set (w := (v + 2 ^ (8 * Z.of_nat n - 1)) mod 2 ^ (8 * Z.of_nat n) - 2 ^ (8 * Z.of_nat n - 1)).
  assert (Hw : v mod 2 ^ (8 * Z.of_nat n) = w mod 2 ^ (8 * Z.of_nat n)).
  { subst w. rewrite Zminus_mod_idemp_l. f_equal. lia. }
  rewrite Hw. apply signed_mod; [done|]. subst w.
  pose proof (Z.mod_pos_bound (v + 2 ^ (8 * Z.of_nat n - 1)) (2 ^ (8 * Z.of_nat n))). lia.
Qed.

Lemma reads_back_UInt s n v :
  (∀ x, serialize s (VNumber x) = UInt_serialize n x) →
  deserialize s = VNumber <$> UInt_deserialize n →
  reads_back s (VNumber v) (VNumber (wrap_unsigned (8 * Z.of_nat n) v)).
Proof.
  intros Es Ed. apply (reads_back_of _ _ _ (be_bytes n v)).
  - rewrite Es. apply writes_UInt_serialize.
  - rewrite Ed. unfold wrap_unsigned. rewrite <- be_value_be_bytes.
    apply reads_fmap, reads_UInt_deserialize, length_be_bytes.
Qed.

Lemma reads_back_Int s n v :
  (0 < n)%nat →
  (∀ x, serialize s (VNumber x) = Int_serialize n x) →
  deserialize s = VNumber <$> Int_deserialize n →
  reads_back s (VNumber v) (VNumber (wrap_signed (8 * Z.of_nat n) v)).
Proof.
  intros Hn Es Ed. apply (reads_back_of _ _ _ (be_bytes n v)).
  - rewrite Es. apply writes_Int_serialize.
  - rewrite Ed, <- signed_wrap, <- be_value_be_bytes by done.
    apply reads_fmap, reads_Int_deserialize, length_be_bytes.
Qed.

Lemma VarUInt32_serialize_wrap v :
  VarUInt32_serialize v = VarUInt32_serialize (v mod 2 ^ 32).
Proof. unfold VarUInt32_serialize. by rewrite !js_shr_0, Z.mod_mod. Qed.

Lemma VarInt32_serialize_wrap v :
  VarInt32_serialize v = VarInt32_serialize (ToInt32 v).
Proof. unfold VarInt32_serialize, js_shl, js_sar. by rewrite ToInt32_idem. Qed.

Lemma VarUInt64_serialize_wrap v :
  VarUInt64_serialize v = VarUInt64_serialize (v mod 2 ^ 64).
Proof. unfold VarUInt64_serialize. by rewrite Z.mod_mod. Qed.

(** X26 -- No integer serializer rejects a number out of its range: the number
    is written with its low bits only, and read back as the integer of
    the serializer's width that has those bits. [UInt8] reads 256 back as
    0 and [Int8] reads 128 back as -128; the variable-length serializers
    do the same at 32 and 64 bits. *)
Theorem integers_wrap (v : Z) :
  reads_back UInt8Serializer (VNumber v) (VNumber (wrap_unsigned 8 v)) ∧
  reads_back UInt16Serializer (VNumber v) (VNumber (wrap_unsigned 16 v)) ∧
  reads_back UInt32Serializer (VNumber v) (VNumber (wrap_unsigned 32 v)) ∧
  reads_back Int8Serializer (VNumber v) (VNumber (wrap_signed 8 v)) ∧
  reads_back Int16Serializer (VNumber v) (VNumber (wrap_signed 16 v)) ∧
  reads_back Int32Serializer (VNumber v) (VNumber (wrap_signed 32 v)) ∧
  reads_back VarUInt32Serializer (VNumber v) (VNumber (wrap_unsigned 32 v)) ∧
  reads_back VarInt32Serializer (VNumber v) (VNumber (wrap_signed 32 v)) ∧
  reads_back VarUInt64Serializer (VBigInt v) (VBigInt (wrap_unsigned 64 v)).
Proof.
  repeat split.
  - by apply (reads_back_UInt _ 1).
  - by apply (reads_back_UInt _ 2).
  - by apply (reads_back_UInt _ 4).
  - apply (reads_back_Int _ 1); [lia|done|done].
  - apply (reads_back_Int _ 2); [lia|done|done].
  - apply (reads_back_Int _ 4); [lia|done|done].
  - assert (Hv : 0 ≤ v mod 2 ^ 32 < 2 ^ 32) by (apply Z.mod_pos_bound; lia).
    apply (reads_back_of _ _ _ (varuint_bytes (v mod 2 ^ 32))).
    + cbn [serialize]. rewrite VarUInt32_serialize_wrap. by apply writes_VarUInt32_serialize.
    + cbn [deserialize]. by apply reads_fmap, reads_VarUInt32_deserialize.
  - assert (Hv : - 2 ^ 31 ≤ ToInt32 v < 2 ^ 31).
    { unfold ToInt32. pose proof (Z.mod_pos_bound (v + 2 ^ 31) (2 ^ 32)). lia. }
    apply (reads_back_of _ _ _ (varuint_bytes (zigzag (ToInt32 v)))).
    + cbn [serialize]. rewrite VarInt32_serialize_wrap. by apply writes_VarInt32_serialize.
    + cbn [deserialize]. by apply reads_fmap, reads_VarInt32_deserialize.
  - assert (Hv : 0 ≤ v mod 2 ^ 64 < 2 ^ 64) by (apply Z.mod_pos_bound; lia).
    apply (reads_back_of _ _ _ (varuint_bytes (v mod 2 ^ 64))).
    + cbn [serialize]. rewrite VarUInt64_serialize_wrap. by apply writes_VarUInt64_serialize.
    + cbn [deserialize]. by apply reads_fmap, reads_VarUInt64_deserialize.
Qed.

Lemma integers_wrap_witness :
  result (serialize UInt8Serializer (VNumber 256);; deserialize UInt8Serializer)
    (ByteBuffer.new 256) = Normal (VNumber 0) ∧
  result (serialize Int8Serializer (VNumber 128);; deserialize Int8Serializer)
    (ByteBuffer.new 256) = Normal (VNumber (-128)).
Proof.
  destruct (integers_wrap 256) as (H1 & _).
  destruct (integers_wrap 128) as (_ & _ & _ & H2 & _).
  split; [apply (H1 _ (wf_new 256) eq_refl)|apply (H2 _ (wf_new 256) eq_refl)].
Defined.

(** *** Byte arrays *)

Lemma strict_ext {A} (m m' : M ByteBuffer.t A) : (∀ b, m b = m' b) → strict m → strict m'.
Proof.
  intros Hext Hm b a b' Hb E. rewrite <- Hext in E.
  destruct (Hm b a b' Hb E) as (k & Hk & Hk' & -> & H).
  exists k. split; [done|]. split; [done|]. split; [done|].
  intros b2 Hb2 Hex. rewrite <- Hext. by apply H.
Qed.

Lemma strict_readBytes len : 0 ≤ len → strict (readBytes len).
Proof.
  intros Hlen. by apply (strict_advance len _ id).
Qed.

Lemma strict_Bytes_deserialize : strict BytesSerializer.deserialize.
Proof.
  apply (strict_ext (value ← VarUInt32_for 5 0 0 0; readBytes (js_shr value 0))).
  { intros b. unfold BytesSerializer.deserialize, VarUInt32_deserialize, mbind, M_bind.
    by destruct (VarUInt32_for 5 0 0 0 b) as [[value|e] b1]. }
  apply strict_bind; [apply strict_VarUInt32_for|].
  intros value. apply strict_readBytes. rewrite js_shr_0. apply Z.mod_pos_bound. lia.
Qed.

Lemma writes_Bytes_serialize data :
  Z.of_nat (length data) < 2 ^ 32 →
  writes (BytesSerializer.serialize data) (varuint_bytes (Z.of_nat (length data)) ++ data).
Proof.
  intros Hlen. apply writes_bind; [|apply writes_writeBytes].
  apply writes_VarUInt32_serialize. lia.
Qed.

Lemma reads_Bytes_deserialize data :
  Z.of_nat (length data) < 2 ^ 32 →
  reads BytesSerializer.deserialize (varuint_bytes (Z.of_nat (length data)) ++ data) data.
Proof.
  intros Hlen. eapply reads_bind; [apply reads_VarUInt32_deserialize; lia|].
  apply reads_readBytes.
Qed.

(** X27 -- [Bytes] writes the length of a byte array and then its bytes, and
    reads the array back; from a buffer that holds only a part of what
    was written, [deserialize] throws an underflow error: it never
    returns a shorter array. *)
Theorem bytes_roundtrip (data : list Z) (b : ByteBuffer.t) :
  Z.of_nat (length data) < 2 ^ 32 → wf b → readPos b = writePos b →
  let written := run (BytesSerializer.serialize data) b in
  unread written = varuint_bytes (Z.of_nat (length data)) ++ data ∧
  result BytesSerializer.deserialize written = Normal data ∧
  available (run BytesSerializer.deserialize written) = 0 ∧
  ∀ b2 missing, wf b2 → missing ≠ [] → unread written = unread b2 ++ missing →
    ∃ e, underflow e ∧ result BytesSerializer.deserialize b2 = Throw e.
Proof.
  intros Hlen Hb Hall written.
  destruct (writes_Bytes_serialize data Hlen b Hb) as (b1 & E1 & Hb1 & W1 & R1).
  assert (Ew : written = b1) by (unfold written, run; by rewrite E1).
  rewrite Ew. clear written Ew.
  assert (Hun : unread b1 = varuint_bytes (Z.of_nat (length data)) ++ data).
  { unfold unread. rewrite W1, R1, Hall, <- (length_toUint8Array b Hb), Nat2Z.id.
    by rewrite drop_app_length. }
  pose proof (reads_Bytes_deserialize data Hlen b1 [] Hb1) as Er.
  unfold unread in Hun. rewrite app_nil_r in Er. specialize (Er Hun).
  split; [done|]. split; [unfold result; by rewrite Er|]. split.
  { unfold run, available. rewrite Er. simpl.
    pose proof (length_toUint8Array b1 Hb1) as Hl. rewrite <- Hl.
    rewrite <- (take_drop (Z.to_nat (readPos b1)) (toUint8Array b1)), Hun, length_app at 1.
    rewrite length_take. destruct Hb1 as (? & ? & ?). lia. }
  intros b2 missing Hb2 Hmiss Hex.
  destruct (strict_Bytes_deserialize b1 data _ Hb1 Er) as (k & Hk & _ & Hset & Hstrict).
  assert (Ek : k = Z.of_nat (length (varuint_bytes (Z.of_nat (length data)) ++ data))).
  { apply (f_equal readPos) in Hset. simpl in Hset. lia. }
  destruct (Hstrict b2 Hb2 (ex_intro _ missing Hex)) as [_ Hshort].
  destruct Hshort as (e & b2' & He & Ee).
  { rewrite Ek. fold (unread b1) in Hun. rewrite <- Hun, Hex, length_app.
    destruct missing; [done|]. simpl. lia. }
  exists e. split; [done|]. unfold result. by rewrite Ee.
Qed.

Lemma bytes_roundtrip_witness :
  result BytesSerializer.deserialize
    (run (BytesSerializer.serialize [1; 2; 3]) (ByteBuffer.new 256)) = Normal [1; 2; 3].
Proof.
  destruct (bytes_roundtrip [1; 2; 3] (ByteBuffer.new 256)) as (_ & H & _).
  - simpl. lia.
  - apply wf_new.
  - reflexivity.
  - exact H.
Defined.

End SerializersMore.
